(** * Listing pipeline of the real-estate search service

    A shallow embedding of [src/pages/api/search.ts] (deduplication,
    normalisation, filtering, score merging) and of the scoring routine of
    [lib/openaiScoring], with the properties of the pipeline stated and
    proved over it.

    Conventions of the embedding:
    - a JavaScript string is the list of its UTF-16 code units ([str]);
    - a JavaScript number is [Num q] for the finite value [q], or [NaN];
      the division and [parseFloat] give the binary64 value nearest to
      their exact result, as the language does; there is no infinity, a
      result beyond the largest Number being kept as the rounded value;
    - [undefined] and [null] of an optional field are [None];
    - [Math.random] and [crypto.randomUUID] read from an explicit supply of
      draws, which the code that draws hands on to the code that follows. *)

From Stdlib Require Import QArith Qcanon Qround Qabs.
From stdpp Require Import base numbers option list gmap strings.

Open Scope Z_scope.

(** ** Strings *)

Abbreviation str := (list N).

(** The text of UTF-8 bytes ([buffer.toString("utf8")] on valid UTF-8): one
    code unit for a sequence of one to three bytes, a surrogate pair for a
    sequence of four. The literals of this file reach Rocq as UTF-8 bytes
    and are read through it. *)
Fixpoint decode_utf8 (bs : list N) : str :=
  match bs with
  | [] => []
  | b0 :: rest =>
      if (b0 <? 128)%N then b0 :: decode_utf8 rest
      else if (b0 <? 224)%N then
        match rest with
        | b1 :: rest' => ((b0 - 192) * 64 + (b1 - 128))%N :: decode_utf8 rest'
        | [] => []
        end
      else if (b0 <? 240)%N then
        match rest with
        | b1 :: b2 :: rest' =>
            ((b0 - 224) * 4096 + (b1 - 128) * 64 + (b2 - 128))%N
              :: decode_utf8 rest'
        | _ => []
        end
      else
        match rest with
        | b1 :: b2 :: b3 :: rest' =>
            let cp := ((b0 - 240) * 262144 + (b1 - 128) * 4096
                       + (b2 - 128) * 64 + (b3 - 128) - 65536)%N in
            (55296 + cp / 1024)%N :: (56320 + cp mod 1024)%N :: decode_utf8 rest'
        | _ => []
        end
  end.

Definition u16 (s : string) : str :=
  decode_utf8 (map (λ a, N.of_nat (Ascii.nat_of_ascii a)) (String.list_ascii_of_string s)).

(** ** Numbers *)

Inductive number :=
| Num (q : Qc)
| NaN.

Global Instance number_eq_dec : EqDecision number.
Proof. solve_decision. Defined.

Definition of_Z (z : Z) : number := Num (Q2Qc (inject_Z z)).

(** ToBoolean on a number: [0] and [NaN] are falsy. *)
Definition truthy_num (n : number) : bool :=
  match n with
  | Num q => negb (bool_decide (q = 0%Qc))
  | NaN => false
  end.

(** [a < b] and [a > b]: false as soon as an operand is [NaN]. *)
Definition num_lt (a b : number) : bool :=
  match a, b with
  | Num x, Num y => bool_decide (x < y)%Qc
  | _, _ => false
  end.

Definition num_gt (a b : number) : bool := num_lt b a.

(** The Number value of a real: the nearest binary64 value, a tie going to
    the one with an even significand. [round_half_even n d] is the integer
    nearest to [n / d], for a positive [d]. *)
Definition round_half_even (n d : Z) : Z :=
  let f := n / d in
  let r := n mod d in
  if 2 * r <? d then f
  else if d <? 2 * r then f + 1
  else if Z.even f then f else f + 1.

(** The exponent [e] with [2 ^ e ≤ |n / d| < 2 ^ (e + 1)], for [n] other than
    zero: the difference of the two binary logarithms, or one less. *)
Definition binade (n : Z) (d : positive) : Z :=
  let a := Z.abs n in
  let e := Z.log2 a - Z.log2 (Zpos d) in
  if (if 0 <=? e then Zpos d * 2 ^ e <=? a else Zpos d <=? a * 2 ^ (- e))
  then e else e - 1.

(** The binary64 values are the multiples of [2 ^ (e - 52)] between [2 ^ e]
    and [2 ^ (e + 1)], and the multiples of [2 ^ (-1074)] below
    [2 ^ (-1022)]. The numbers of the model have no infinity: beyond the
    largest Number, where JavaScript gives [Infinity], the value is rounded
    in the same way and stays above every Number. *)
Definition binary64 (q : Q) : Q :=
  if Qnum q =? 0 then 0%Q
  else
    let k := Z.max (binade (Qnum q) (Qden q)) (-1022) - 52 in
    if 0 <=? k
    then inject_Z (round_half_even (Qnum q) (Zpos (Qden q) * 2 ^ k) * 2 ^ k)
    else Qmake (round_half_even (Qnum q * 2 ^ (- k)) (Zpos (Qden q)))
               (Z.to_pos (2 ^ (- k))).

Definition Number_value (q : Qc) : Qc := Q2Qc (Qred (binary64 q)).

(** [a / b]: the Number value of the quotient. A division by zero gives an
    infinity or [NaN] in JavaScript; the only division of the program is
    guarded by the truthiness of its divisor. *)
Definition num_div (a b : number) : number :=
  match a, b with
  | Num x, Num y =>
      if bool_decide (y = 0%Qc) then NaN else Num (Number_value (x / y))
  | _, _ => NaN
  end.

(** [Math.round]: the nearest integer, a tie going up. *)
Definition round_Qc (q : Qc) : Qc := Q2Qc (inject_Z (Qfloor (q + Q2Qc (1 # 2))%Qc)).

Definition Math_round (a : number) : number :=
  match a with
  | Num x => Num (round_Qc x)
  | NaN => NaN
  end.

Definition Math_max (a b : number) : number :=
  match a, b with
  | Num x, Num y => Num (if bool_decide (x < y)%Qc then y else x)
  | _, _ => NaN
  end.

Definition Math_min (a b : number) : number :=
  match a, b with
  | Num x, Num y => Num (if bool_decide (y < x)%Qc then y else x)
  | _, _ => NaN
  end.

(** ** JSON values

    What [JSON.parse] and [response.json()] hand to the program. No check is
    made at run time against the declared types, so the score fields that
    come from the oracle hold such values. *)

#[local] Set Warnings "-register-all".

Inductive value :=
| JNull
| JBool (b : bool)
| JNum (q : Qc)
| JStr (s : str)
| JArr (elems : list value)
| JObj (props : list (str * value)).

(** ** Character classes *)

Definition is_digit (c : N) : bool := ((48 <=? c) && (c <=? 57))%N.

(** [\s]: WhiteSpace and LineTerminator of ECMAScript. *)
Definition is_space (c : N) : bool :=
  ((9 <=? c) && (c <=? 13) || (c =? 32) || (c =? 160) || (c =? 5760)
   || (8192 <=? c) && (c <=? 8202) || (c =? 8232) || (c =? 8233)
   || (c =? 8239) || (c =? 8287) || (c =? 12288) || (c =? 65279))%N.

Definition is_upper (c : N) : bool := ((65 <=? c) && (c <=? 90))%N.
Definition is_lower (c : N) : bool := ((97 <=? c) && (c <=? 122))%N.

(** A pattern character under the [i] flag (without [u]): both sides are
    canonicalised with [toUpperCase], and a code unit of 128 or more is never
    folded onto an ASCII one, so an ASCII letter matches its two cases and
    any other character of the patterns below matches itself only. *)
Definition ci (x : N) (c : N) : bool :=
  (c =? x)%N
  || (is_lower x && (c =? x - 32)%N)
  || (is_upper x && (c =? x + 32)%N).

(** ** Regular expressions

    The fragment of ECMAScript patterns the program uses, with the
    backtracking semantics of the standard: alternatives left to right,
    greedy quantifiers, an iteration that consumes nothing rejected, and the
    groups of a quantified atom cleared when an iteration starts. *)

Inductive regex :=
| Eps
| Chr (p : N → bool)
| Seq (r1 r2 : regex)
| Alt (r1 r2 : regex)
| Opt (r : regex)
| Star (r : regex)
| Grp (i : nat) (r : regex).

Definition Plus (r : regex) : regex := Seq r (Star r).

Fixpoint Lit_ci (s : str) : regex :=
  match s with
  | [] => Eps
  | [x] => Chr (ci x)
  | x :: s' => Seq (Chr (ci x)) (Lit_ci s')
  end.

(** Captures: group number to captured text, the latest binding first;
    [None] is a group reset to [undefined]. *)
Definition caps := list (nat * option str).

Fixpoint cap (c : caps) (i : nat) : option str :=
  match c with
  | [] => None
  | (j, v) :: c' => if (i =? j)%nat then v else cap c' i
  end.

Fixpoint groups_of (r : regex) : list nat :=
  match r with
  | Eps | Chr _ => []
  | Seq r1 r2 | Alt r1 r2 => groups_of r1 ++ groups_of r2
  | Opt r1 | Star r1 => groups_of r1
  | Grp i r1 => i :: groups_of r1
  end.

Definition clear_groups (r : regex) (c : caps) : caps :=
  map (λ i, (i, None)) (groups_of r) ++ c.

Fixpoint run {A : Type} (r : regex) (s : str) (c : caps)
    (k : str → caps → option A) {struct r} : option A :=
  match r with
  | Eps => k s c
  | Chr p =>
      match s with
      | x :: s' => if p x then k s' c else None
      | [] => None
      end
  | Seq r1 r2 => run r1 s c (λ s1 c1, run r2 s1 c1 k)
  | Alt r1 r2 =>
      match run r1 s c k with
      | Some a => Some a
      | None => run r2 s c k
      end
  | Opt r1 =>
      match run r1 s (clear_groups r1 c)
              (λ s1 c1, if (length s1 <? length s)%nat then k s1 c1 else None) with
      | Some a => Some a
      | None => k s c
      end
  | Star r1 =>
      (fix loop (n : nat) (s : str) (c : caps) {struct n} : option A :=
         match n with
         | O => k s c
         | S n' =>
             match run r1 s (clear_groups r1 c)
                     (λ s1 c1, if (length s1 <? length s)%nat
                               then loop n' s1 c1 else None) with
             | Some a => Some a
             | None => k s c
             end
         end) (length s) s c
  | Grp i r1 =>
      run r1 s c (λ s1 c1, k s1 ((i, Some (take (length s - length s1) s)) :: c1))
  end.

(** A match starting at the head of [s]; group 0 is the whole match. *)
Definition match_at (r : regex) (s : str) : option caps :=
  run (Grp 0 r) s [] (λ _ c, Some c).

(** [text.match(r)] for a pattern without the [g] flag: the leftmost start
    index that matches. *)
Fixpoint String_match (r : regex) (s : str) : option caps :=
  match match_at r s with
  | Some c => Some c
  | None =>
      match s with
      | [] => None
      | _ :: s' => String_match r s'
      end
  end.

(** ** Numeric conversions of matched text *)

Definition digit_val (c : N) : Z := Z.of_N c - 48.

Definition digits_to_Z (s : str) : Z :=
  fold_left (λ acc c, 10 * acc + digit_val c) s 0.

Fixpoint span_digits (s : str) : str * str :=
  match s with
  | c :: s' =>
      if is_digit c then let '(d, rest) := span_digits s' in (c :: d, rest)
      else ([], s)
  | [] => ([], [])
  end.

(** [Number(text)] on the text of a group that matched digits only. *)
Definition Number_of_digits (s : str) : number := of_Z (digits_to_Z s).

(** [parseFloat] on unsigned decimal text without exponent: the Number
    value of the longest prefix [digits], [digits.digits], [digits.] or
    [.digits]; [NaN] when there is none. *)
Definition parseFloat (s : str) : number :=
  let '(ip, rest) := span_digits s in
  let fp :=
    match rest with
    | c :: rest' => if (c =? 46)%N then fst (span_digits rest') else []
    | [] => []
    end in
  match ip, fp with
  | [], [] => NaN
  | _, _ =>
      let scale := 10 ^ Z.of_nat (length fp) in
      Num (Number_value
             (Q2Qc (Qmake (digits_to_Z ip * scale + digits_to_Z fp)
                      (Z.to_pos scale))))
  end.

(** ** The patterns of [search.ts] *)

Definition d : regex := Chr is_digit.
Definition ws : regex := Chr is_space.

(** [/(\d+(\.\d+)?)\s?(m2|m²)/i] *)
Definition re_size : regex :=
  Seq (Grp 1 (Seq (Plus d) (Opt (Grp 2 (Seq (Chr (ci 46)) (Plus d))))))
      (Seq (Opt ws) (Grp 3 (Alt (Lit_ci [109; 50]%N) (Lit_ci [109; 178]%N)))).

(** [/(\d{2,})\s?(Kc|CZK)?/i] *)
Definition re_price : regex :=
  Seq (Grp 1 (Seq d (Seq d (Star d))))
      (Seq (Opt ws) (Opt (Grp 2 (Alt (Lit_ci (u16 "Kc")) (Lit_ci (u16 "CZK")))))).

(** [/(\d+)\s*\+?\s*kk/i] *)
Definition re_rooms_plus : regex :=
  Seq (Grp 1 (Plus d))
      (Seq (Star ws) (Seq (Opt (Chr (ci 43))) (Seq (Star ws) (Lit_ci (u16 "kk"))))).

(** [/(\d+)\s*kk/i] *)
Definition re_rooms_bare : regex :=
  Seq (Grp 1 (Plus d)) (Seq (Star ws) (Lit_ci (u16 "kk"))).

(** [/\d+\s*\+\s*kk|\d+\s*kk/i] *)
Definition re_layout : regex :=
  Alt (Seq (Plus d) (Seq (Star ws) (Seq (Chr (ci 43)) (Seq (Star ws) (Lit_ci (u16 "kk"))))))
      (Seq (Plus d) (Seq (Star ws) (Lit_ci (u16 "kk")))).

(** [match[i]] *)
Definition group (m : caps) (i : nat) : str := default [] (cap m i).

Definition parseSize (text : str) : option number :=
  match String_match re_size text with
  | Some m => Some (parseFloat (group m 1))
  | None => None
  end.

(** [text.replace(/\s/g, "")] *)
Definition strip_spaces (text : str) : str :=
  filter (λ c, is_space c = false) text.

Definition parsePrice (text : str) : option number :=
  match String_match re_price (strip_spaces text) with
  | Some m => Some (Number_of_digits (group m 1))
  | None => None
  end.

Definition parseRooms (text : str) : option number :=
  match String_match re_rooms_plus text with
  | Some m => Some (Number_of_digits (group m 1))
  | None =>
      match String_match re_rooms_bare text with
      | Some other => Some (Number_of_digits (group other 1))
      | None => None
      end
  end.

Definition deriveLayoutLabel (text : str) : option str :=
  match String_match re_layout text with
  | Some m => Some (group m 0)
  | None => None
  end.

(** ** [String(x)], UTF-8 and base64 *)

Fixpoint uint_digits (u : Decimal.uint) : str :=
  match u with
  | Decimal.Nil => []
  | Decimal.D0 u' => 48%N :: uint_digits u'
  | Decimal.D1 u' => 49%N :: uint_digits u'
  | Decimal.D2 u' => 50%N :: uint_digits u'
  | Decimal.D3 u' => 51%N :: uint_digits u'
  | Decimal.D4 u' => 52%N :: uint_digits u'
  | Decimal.D5 u' => 53%N :: uint_digits u'
  | Decimal.D6 u' => 54%N :: uint_digits u'
  | Decimal.D7 u' => 55%N :: uint_digits u'
  | Decimal.D8 u' => 56%N :: uint_digits u'
  | Decimal.D9 u' => 57%N :: uint_digits u'
  end.

(** [String(n)] for an integer [n]: its decimal digits, with a minus sign
    when negative (the form JavaScript prints below 10^21). *)
Definition String_of_Z (n : Z) : str :=
  match Z.to_int n with
  | Decimal.Pos u => uint_digits u
  | Decimal.Neg u => 45%N :: uint_digits u
  end.

Definition is_high_surrogate (c : N) : bool := ((55296 <=? c) && (c <=? 56319))%N.
Definition is_low_surrogate (c : N) : bool := ((56320 <=? c) && (c <=? 57343))%N.

Definition utf8_replacement : list N := [239; 191; 189]%N.

Definition utf8_3 (c : N) : list N :=
  [224 + c / 4096; 128 + (c / 64) mod 64; 128 + c mod 64]%N.

Definition utf8_4 (cp : N) : list N :=
  [240 + cp / 262144; 128 + (cp / 4096) mod 64; 128 + (cp / 64) mod 64;
   128 + cp mod 64]%N.

(** The code point of a surrogate pair. *)
Definition pair_code_point (hi lo : N) : N :=
  (65536 + (hi - 55296) * 1024 + (lo - 56320))%N.

(** [Buffer.from(text)]: the UTF-8 bytes of the text; a surrogate without
    its partner becomes U+FFFD. *)
Fixpoint Buffer_from (s : str) : list N :=
  match s with
  | [] => []
  | c :: s' =>
      if (c <? 128)%N then c :: Buffer_from s'
      else if (c <? 2048)%N then
        [192 + c / 64; 128 + c mod 64]%N ++ Buffer_from s'
      else if is_high_surrogate c then
        match s' with
        | c2 :: s'' =>
            if is_low_surrogate c2
            then utf8_4 (pair_code_point c c2) ++ Buffer_from s''
            else utf8_replacement ++ Buffer_from s'
        | [] => utf8_replacement
        end
      else if is_low_surrogate c then utf8_replacement ++ Buffer_from s'
      else utf8_3 c ++ Buffer_from s'
  end.

(** Well-formed text: 16-bit code units, every surrogate in a pair. *)
Fixpoint well_formed (s : str) : bool :=
  match s with
  | [] => true
  | c :: s' =>
      if is_high_surrogate c then
        match s' with
        | c2 :: s'' => is_low_surrogate c2 && well_formed s''
        | [] => false
        end
      else negb (is_low_surrogate c) && (c <? 65536)%N && well_formed s'
  end.

Definition base64_char (i : N) : N :=
  (if i <? 26 then 65 + i
   else if i <? 52 then 97 + (i - 26)
   else if i <? 62 then 48 + (i - 52)
   else if i =? 62 then 43 else 47)%N.

(** [buffer.toString("base64")] *)
Fixpoint toString_base64 (bs : list N) : str :=
  match bs with
  | [] => []
  | [a] => [base64_char (a / 4); base64_char (a mod 4 * 16); 61; 61]%N
  | [a; b] =>
      [base64_char (a / 4); base64_char (a mod 4 * 16 + b / 16);
       base64_char (b mod 16 * 4); 61]%N
  | a :: b :: c :: rest =>
      [base64_char (a / 4); base64_char (a mod 4 * 16 + b / 16);
       base64_char (b mod 16 * 4 + c / 64); base64_char (c mod 64)]%N
        ++ toString_base64 rest
  end.

Definition base64_index (c : N) : N :=
  (if is_upper c then c - 65
   else if is_lower c then c - 97 + 26
   else if is_digit c then c - 48 + 52
   else if c =? 43 then 62 else 63)%N.

(** The decoding of base64 text ([Buffer.from(text, "base64")]), by which
    the encoding is seen to be reversible. *)
Fixpoint from_base64 (s : str) : list N :=
  match s with
  | c1 :: c2 :: c3 :: c4 :: rest =>
      let i1 := base64_index c1 in
      let i2 := base64_index c2 in
      let i3 := base64_index c3 in
      let i4 := base64_index c4 in
      if (c3 =? 61)%N then [i1 * 4 + i2 / 16]%N
      else if (c4 =? 61)%N then [i1 * 4 + i2 / 16; i2 mod 16 * 16 + i3 / 4]%N
      else [i1 * 4 + i2 / 16; i2 mod 16 * 16 + i3 / 4; i3 mod 4 * 64 + i4]%N
             ++ from_base64 rest
  | _ => []
  end.

(** ** Randomness

    A supply answers the successive calls of a random generator; drawing
    takes the head and leaves the tail. The strings of the [Math.random]
    supply are the draws as [String] prints them. *)

Definition supply := nat → str.

Definition draw (σ : supply) : str * supply := (σ O, λ n, σ (S n)).

(** ** Data model ([lib/types]) *)

Inductive id_value :=
| IdStr (s : str)
| IdNum (n : Z).

Module Raw.
Record t := mk {
  id : option id_value;
  url : option str;
  title : option str;
  locality : option str;
  description : option str;
  price : option number;
  size : option number;
  area : option number;
  rooms : option number;
  images : option (list str)
}.
End Raw.

Module Params.
Record t := mk {
  city : str;
  priceMax : option number;
  priceM2Max : option number;
  roomsFrom : option number;
  keywords : list str
}.
End Params.

Module Derived.
Record t := mk {
  pricePerM2 : option number;
  sizeM2 : option number;
  layoutLabel : option str
}.
End Derived.

Module Item.
Record t := mk {
  id : str;
  title : str;
  url : str;
  location : option str;
  price : option number;
  sizeM2 : option number;
  rooms : option number;
  images : option (list str);
  description : option str;
  raw : Raw.t;
  derived : Derived.t;
  aiScore : option number;
  aiReason : option value;
  aiHighlights : option value
}.
End Item.

Module Score.
Record t := mk {
  id : str;
  aiScore : option number;
  aiReason : option value;
  aiHighlights : option value
}.
End Score.

(** ToBoolean on the values the program tests. *)
Definition truthy_str (s : str) : bool :=
  match s with [] => false | _ => true end.

Definition truthy_id (i : id_value) : bool :=
  match i with
  | IdStr s => truthy_str s
  | IdNum n => negb (n =? 0)
  end.

Definition truthy (o : option number) : bool :=
  match o with
  | Some n => truthy_num n
  | None => false
  end.

(** Relational operators on optional numbers: [undefined] converts to
    [NaN], so a comparison with an absent operand is false. *)
Definition js_lt (a b : option number) : bool :=
  match a, b with
  | Some x, Some y => num_lt x y
  | _, _ => false
  end.

Definition js_gt (a b : option number) : bool := js_lt b a.

Definition String_id (i : id_value) : str :=
  match i with
  | IdStr s => s
  | IdNum n => String_of_Z n
  end.

(** [a ?? b] *)
Definition nullish {A : Type} (a : option A) (b : option A) : option A :=
  match a with
  | Some x => Some x
  | None => b
  end.
Infix "??" := nullish (at level 45, right associativity).

(** ** [deduplicate]

    The [Map] of the function keeps its entries in insertion order; it is
    the list of its (key, value) pairs. *)

Definition Map_has {V : Type} (m : list (str * V)) (k : str) : bool :=
  bool_decide (k ∈ m.*1).

Fixpoint Map_set {V : Type} (m : list (str * V)) (k : str) (v : V) : list (str * V) :=
  match m with
  | [] => [(k, v)]
  | (k', v') :: m' =>
      if bool_decide (k' = k) then (k, v) :: m' else (k', v') :: Map_set m' k v
  end.

Definition Map_values {V : Type} (m : list (str * V)) : list V := m.*2.

(** [item.url ?? String(item.id ?? Math.random())] *)
Definition dedup_key (item : Raw.t) (rnd : supply) : str * supply :=
  match Raw.url item with
  | Some u => (u, rnd)
  | None =>
      match Raw.id item with
      | Some i => (String_id i, rnd)
      | None => draw rnd
      end
  end.

(** The body of the [forEach]. *)
Definition dedup_step (acc : list (str * Raw.t) * supply) (item : Raw.t)
    : list (str * Raw.t) * supply :=
  let '(key, rnd') := dedup_key item acc.2 in
  (if Map_has acc.1 key then acc.1 else Map_set acc.1 key item, rnd').

Definition dedup_map (listings : list Raw.t) (rnd : supply)
    : list (str * Raw.t) * supply :=
  fold_left dedup_step listings ([], rnd).

Definition deduplicate (listings : list Raw.t) (rnd : supply) : list Raw.t :=
  Map_values (dedup_map listings rnd).1.

(** ** [transformListing] and its helpers *)

(** The value of an optional field when it is truthy, as tested by
    [if (x)]. *)
Definition when_truthy {A : Type} (t : A → bool) (o : option A) : option A :=
  match o with
  | Some x => if t x then Some x else None
  | None => None
  end.

Definition createId (item : Raw.t) (uuids : supply) : str * supply :=
  match when_truthy truthy_id (Raw.id item) with
  | Some i => (String_id i, uuids)
  | None =>
      match when_truthy truthy_str (Raw.url item) with
      | Some u => (toString_base64 (Buffer_from u), uuids)
      | None => draw uuids
      end
  end.

(** [size && price ? Math.round(price / size) : undefined] *)
Definition pricePerM2_of (size price : option number) : option number :=
  match size, price with
  | Some s, Some p =>
      if truthy_num s && truthy_num p then Some (Math_round (num_div p s))
      else None
  | _, _ => None
  end.

Definition transformListing (item : Raw.t) (uuids : supply) : Item.t * supply :=
  let size :=
    Raw.size item ?? Raw.area item
      ?? parseSize (default [] (Raw.description item ?? Raw.title item)) in
  let price := Raw.price item ?? parsePrice (default [] (Raw.description item)) in
  let pricePerM2 := pricePerM2_of size price in
  let '(id, uuids') := createId item uuids in
  ({| Item.id := id;
      Item.title := default (u16 "Bez názvu") (Raw.title item);
      Item.url := default (u16 "#") (Raw.url item);
      Item.location := Raw.locality item;
      Item.price := price;
      Item.sizeM2 := size;
      Item.rooms :=
        Raw.rooms item
          ?? parseRooms (default [] (Raw.title item ?? Raw.description item));
      (* present means an array, by the type of the field *)
      Item.images := Raw.images item;
      Item.description := Raw.description item;
      Item.raw := item;
      Item.derived :=
        {| Derived.pricePerM2 := pricePerM2;
           Derived.sizeM2 := size;
           Derived.layoutLabel :=
             deriveLayoutLabel (default [] (Raw.title item ?? Raw.description item)) |};
      Item.aiScore := None;
      Item.aiReason := None;
      Item.aiHighlights := None |},
   uuids').

(** [deduped.map(transformListing)], the identifiers drawn in order. *)
Fixpoint map_transformListing (l : list Raw.t) (uuids : supply) : list Item.t * supply :=
  match l with
  | [] => ([], uuids)
  | item :: l' =>
      let '(x, uuids1) := transformListing item uuids in
      let '(xs, uuids2) := map_transformListing l' uuids1 in
      (x :: xs, uuids2)
  end.

(** ** The filter of [postProcessListings] *)

(** The callback given to [transformed.filter]. *)
Definition keep_item (params : Params.t) (item : Item.t) : bool :=
  if truthy (Params.priceM2Max params)
     && truthy (Derived.pricePerM2 (Item.derived item))
     && js_gt (Derived.pricePerM2 (Item.derived item)) (Params.priceM2Max params)
  then false
  else if truthy (Params.roomsFrom params)
          && truthy (Item.rooms item)
          && js_lt (Item.rooms item) (Params.roomsFrom params)
  then false
  else true.

Definition filter_items (params : Params.t) (transformed : list Item.t) : list Item.t :=
  filter (λ item, keep_item params item = true) transformed.

Definition postProcessListings (listings : list Raw.t) (params : Params.t)
    (rnd uuids : supply) : list Item.t :=
  let deduped := deduplicate listings rnd in
  let transformed := (map_transformListing deduped uuids).1 in
  filter_items params transformed.

(** ** [mergeScores] *)

(** [new Map(scores.map((s) => [s.id, s]))]: the entries are set from left
    to right, a later entry replacing an earlier one with its key. *)
Definition score_map (scores : list Score.t) : gmap str Score.t :=
  fold_left (λ m s, <[Score.id s := s]> m) scores ∅.

Definition with_score (item : Item.t) (score : Score.t) : Item.t :=
  {| Item.id := Item.id item;
     Item.title := Item.title item;
     Item.url := Item.url item;
     Item.location := Item.location item;
     Item.price := Item.price item;
     Item.sizeM2 := Item.sizeM2 item;
     Item.rooms := Item.rooms item;
     Item.images := Item.images item;
     Item.description := Item.description item;
     Item.raw := Item.raw item;
     Item.derived := Item.derived item;
     Item.aiScore := Score.aiScore score;
     Item.aiReason := Score.aiReason score;
     Item.aiHighlights := Score.aiHighlights score |}.

Definition mergeScores (items : list Item.t) (scores : list Score.t) : list Item.t :=
  let map := score_map scores in
  (λ item,
     match map !! Item.id item with
     | None => item
     | Some score => with_score item score
     end) <$> items.

(** ** The scoring routine ([lib/openaiScoring])

    Three operations of the language are taken as an interface:
    [JSON.parse] ([None] when it throws a SyntaxError), the conversion of a
    string to a number (the StringNumericLiteral grammar) and the printing
    of a number. *)

Class ECMAScript := {
  JSON_parse : str → option value;
  StringToNumber : str → number;
  NumberToString : Qc → str
}.

Section Scoring.
Context {E : ECMAScript}.

Fixpoint own_property (props : list (str * value)) (name : str) : option value :=
  match props with
  | [] => None
  | (k, v) :: props' => if bool_decide (k = name) then Some v else own_property props' name
  end.

(** [ToString] on a parsed value, [None] when it throws a TypeError. An
    array prints its elements joined with commas, [null] as the empty
    string. An object prints as "[object Object]" through the [toString] it
    inherits; one that has a property [toString] of its own, which parsed
    JSON cannot make callable, has no way to a primitive value and the
    conversion throws. *)
Fixpoint ToString (v : value) : option str :=
  match v with
  | JNull => Some (u16 "null")
  | JBool b => Some (if b then u16 "true" else u16 "false")
  | JNum q => Some (NumberToString q)
  | JStr s => Some s
  | JArr elems =>
      (fix join (l : list value) : option str :=
         match l with
         | [] => Some []
         | [x] => match x with JNull => Some [] | _ => ToString x end
         | x :: l' =>
             match match x with JNull => Some [] | _ => ToString x end, join l' with
             | Some a, Some b => Some (a ++ 44%N :: b)
             | _, _ => None
             end
         end) elems
  | JObj props =>
      match own_property props (u16 "toString") with
      | Some _ => None
      | None => Some (u16 "[object Object]")
      end
  end.

(** [ToNumber] on the value of a property, [None] being [undefined]; the
    result is [None] when the conversion throws. An array or an object is
    first brought to a primitive value, which is its string. *)
Definition ToNumber (v : option value) : option number :=
  match v with
  | None => Some NaN
  | Some JNull => Some (Num 0%Qc)
  | Some (JBool b) => Some (Num (if b then 1%Qc else 0%Qc))
  | Some (JNum q) => Some (Num q)
  | Some (JStr s) => Some (StringToNumber s)
  | Some (JArr elems) => StringToNumber <$> ToString (JArr elems)
  | Some (JObj props) => StringToNumber <$> ToString (JObj props)
  end.

(** [parsed.name]: [None] when reading the property throws (on [null]),
    [Some None] when it is [undefined]. *)
Definition get (parsed : value) (name : str) : option (option value) :=
  match parsed with
  | JNull => None
  | JObj props => Some (own_property props name)
  | _ => Some None
  end.

(** [x ?? fallback] on a property read from parsed JSON. *)
Definition or_else (x : option value) (fallback : value) : value :=
  match x with
  | None | Some JNull => fallback
  | Some v => v
  end.

Record OpenAIScoreSchema := {
  score : number;
  reasoning : value;
  highlights : value
}.

Definition parse_failure : OpenAIScoreSchema :=
  {| score := Num 0%Qc;
     reasoning := JStr (u16 "OpenAI response could not be parsed.");
     highlights := JArr [] |}.

(** The [catch] branch also logs the error, which leaves no trace in the
    result. It is reached when [JSON.parse] throws, when a property is read
    from [null], and when [Math.max] cannot convert the score. *)
Definition parseScore (response : str) : OpenAIScoreSchema :=
  match JSON_parse response with
  | None => parse_failure
  | Some parsed =>
      match get parsed (u16 "score"), get parsed (u16 "reasoning"),
            get parsed (u16 "highlights") with
      | Some s, Some r, Some h =>
          match ToNumber s with
          | Some n =>
              {| score := Math_min (of_Z 100) (Math_max (of_Z 0) n);
                 reasoning := or_else r (JStr []);
                 highlights := or_else h (JArr []) |}
          | None => parse_failure
          end
      | _, _, _ => parse_failure
      end
  end.

(** What [client.chat.completions.create] resolves to: the request is
    rejected, or a completion arrives whose first choice may lack a
    content. *)
Inductive reply :=
| Rejected (error : str)
| Completion (content : option str).

Inductive outcome (A : Type) :=
| Returns (a : A)
| Throws (error : str).
Global Arguments Returns {A} a.
Global Arguments Throws {A} error.

(** The content of a reply that arrived. *)
Definition content_of (r : reply) : option str :=
  match r with
  | Completion content => content
  | Rejected _ => None
  end.

(** Every request of a run over the items is answered. *)
Definition answered (oracle : nat → Item.t → reply) (items : list Item.t) : Prop :=
  ∀ j x, items !! j = Some x → ∃ content, oracle j x = Completion content.

(** The result pushed for one item, given the content of its reply. *)
Definition score_of (item : Item.t) (content : option str) : Score.t :=
  let message := default (u16 "{}") content in
  let parsed := parseScore message in
  {| Score.id := Item.id item;
     Score.aiScore := Some (score parsed);
     Score.aiReason := Some (reasoning parsed);
     Score.aiHighlights := Some (highlights parsed) |}.

(** The [for] loop; [n] counts the requests already sent, and the oracle
    answers the [n]-th request about an item. *)
Fixpoint score_loop (oracle : nat → Item.t → reply) (n : nat)
    (items : list Item.t) (results : list Score.t) : outcome (list Score.t) :=
  match items with
  | [] => Returns results
  | item :: rest =>
      match oracle n item with
      | Rejected error => Throws error
      | Completion content =>
          score_loop oracle (S n) rest (results ++ [score_of item content])
      end
  end.

(** [api_key] is [process.env.OPENAI_API_KEY]. *)
Definition scoreRealEstateItems (api_key : option str)
    (oracle : nat → Item.t → reply) (items : list Item.t)
    : outcome (list Score.t) :=
  match items with
  | [] => Returns []
  | _ =>
      match when_truthy truthy_str api_key with
      | None => Throws (u16 "OPENAI_API_KEY is not configured")
      | Some _ => score_loop oracle 0 items []
      end
  end.
End Scoring.

(** ** The claims as the specification words them

    Each definition below follows the wording of the specification, to be
    compared with what the code computes. *)

(** The scenario of the specification: a title carrying the layout and the
    size, no price field, a description carrying the price. *)
Definition scenario : Raw.t :=
  {| Raw.id := None; Raw.url := None;
     Raw.title := Some (u16 "Krásný byt 2+kk, 55 m2");
     Raw.locality := None;
     Raw.description := Some (u16 "Cena 4500000 Kc");
     Raw.price := None; Raw.size := None; Raw.area := None; Raw.rooms := None;
     Raw.images := None |}.

(** The outcome the specification gives for the scenario. *)
Definition scenario_spec (x : Item.t) : Prop :=
  Item.sizeM2 x = Some (of_Z 55)
  ∧ Item.price x = Some (of_Z 4500000)
  ∧ Item.rooms x = Some (of_Z 2)
  ∧ Derived.layoutLabel (Item.derived x) = Some (u16 "2+kk")
  ∧ Derived.pricePerM2 (Item.derived x) = Some (of_Z 81818).

(** The specification's invariant on the price per square metre: present
    exactly when price and size are present and the size is positive, and
    then the rounded quotient. *)
Definition pricePerM2_spec (x : Item.t) : Prop :=
  (is_Some (Derived.pricePerM2 (Item.derived x)) ↔
     ∃ p s, Item.price x = Some (Num p) ∧ Item.sizeM2 x = Some (Num s) ∧ (0 < s)%Qc)
  ∧ (∀ p s, Item.price x = Some (Num p) → Item.sizeM2 x = Some (Num s) → (0 < s)%Qc →
       Derived.pricePerM2 (Item.derived x)
       = Some (Math_round (num_div (Num p) (Num s)))).

(** A listing offered for nothing: price 0 on 50 square metres. *)
Definition free_flat : Raw.t :=
  {| Raw.id := None; Raw.url := None; Raw.title := None; Raw.locality := None;
     Raw.description := None;
     Raw.price := Some (of_Z 0); Raw.size := Some (of_Z 50); Raw.area := None;
     Raw.rooms := None; Raw.images := None |}.

(** A raw listing that carries nothing but the given identifier and URL. *)
Definition bare (id : option id_value) (url : option str) : Raw.t :=
  {| Raw.id := id; Raw.url := url; Raw.title := None; Raw.locality := None;
     Raw.description := None; Raw.price := None; Raw.size := None;
     Raw.area := None; Raw.rooms := None; Raw.images := None |}.

(** The identifier rule as the specification words it: the raw identifier
    whenever it is present. *)
Definition identifier_spec (item : Raw.t) (x : Item.t) : Prop :=
  ∀ i, Raw.id item = Some i → Item.id x = String_id i.

(** Stability as the specification words it: with an identifier or a URL
    present, two normalisations give the same canonical identifier. *)
Definition stable_id_spec (item : Raw.t) : Prop :=
  is_Some (Raw.id item) ∨ is_Some (Raw.url item) →
  ∀ uuids1 uuids2 : supply,
    Item.id (transformListing item uuids1).1 = Item.id (transformListing item uuids2).1.

(** A raw listing has a usable identifier, or a usable URL, when the field
    is present and passes the test [if (x)]: a number other than 0, a
    non-empty string. *)
Definition has_identifier (item : Raw.t) : Prop :=
  ∃ i, Raw.id item = Some i ∧ truthy_id i = true.

Definition has_url (item : Raw.t) : Prop :=
  ∃ u, Raw.url item = Some u ∧ u ≠ [].

(** The listings paired with their identity keys, in order: the URL if
    present, else the stringified identifier, else a random draw. *)
Fixpoint keyed (listings : list Raw.t) (rnd : supply) : list (str * Raw.t) :=
  match listings with
  | [] => []
  | item :: rest =>
      let '(key, rnd') := dedup_key item rnd in (key, item) :: keyed rest rnd'
  end.

(** The identity key as the claim gives it: the URL if present, else the
    stringified identifier, else the random number drawn for the listing. *)
Definition identity_key (item : Raw.t) (random : str) : str :=
  match Raw.url item, Raw.id item with
  | Some u, _ => u
  | None, Some i => String_id i
  | None, None => random
  end.

(** A raw listing with neither URL nor identifier. *)
Definition anonymous (item : Raw.t) : bool :=
  match Raw.url item, Raw.id item with
  | None, None => true
  | _, _ => false
  end.

(** The number of the draw that the listing at position [j] would take: the
    count of the listings before it that took one. *)
Definition drawn_before (listings : list Raw.t) (j : nat) : nat :=
  length (filter (λ item, anonymous item = true) (take j listings)).

(** The identity keys of the listings, in order, every listing with
    neither URL nor identifier taking a draw of its own. *)
Definition identity_keys (listings : list Raw.t) (rnd : supply) : list str :=
  imap (λ j item, identity_key item (rnd (drawn_before listings j))) listings.

(** What one round of the loop does to the map, given the key. *)
Definition add_entry (m : list (str * Raw.t)) (kv : str * Raw.t) : list (str * Raw.t) :=
  if Map_has m kv.1 then m else m ++ [kv].

(** Two raw listings of the same URL under different titles. *)
Definition titled (url title : str) : Raw.t :=
  {| Raw.id := None; Raw.url := Some url; Raw.title := Some title;
     Raw.locality := None; Raw.description := None; Raw.price := None;
     Raw.size := None; Raw.area := None; Raw.rooms := None;
     Raw.images := None |}.

(** A canonical listing that carries only an identifier, a room count and
    a price per square metre. *)
Definition plain (id : str) (rooms pricePerM2 : option number) : Item.t :=
  {| Item.id := id; Item.title := u16 "Bez názvu"; Item.url := u16 "#";
     Item.location := None; Item.price := None; Item.sizeM2 := None;
     Item.rooms := rooms; Item.images := None; Item.description := None;
     Item.raw := bare None None;
     Item.derived :=
       {| Derived.pricePerM2 := pricePerM2; Derived.sizeM2 := None;
          Derived.layoutLabel := None |};
     Item.aiScore := None; Item.aiReason := None; Item.aiHighlights := None |}.

(** Search parameters whose only constraint is a least number of rooms. *)
Definition rooms_from (n : Z) : Params.t :=
  {| Params.city := u16 "Praha"; Params.priceMax := None;
     Params.priceM2Max := None; Params.roomsFrom := Some (of_Z n);
     Params.keywords := [] |}.

(** Rejection as the specification words it: a supplied constraint, a known
    field, and the field beyond the constraint. *)
Definition rejected_spec (params : Params.t) (x : Item.t) : Prop :=
  (∃ limit v, Params.priceM2Max params = Some limit
     ∧ Derived.pricePerM2 (Item.derived x) = Some v ∧ num_gt v limit = true)
  ∨ (∃ least n, Params.roomsFrom params = Some least
       ∧ Item.rooms x = Some n ∧ num_lt n least = true).

Definition filter_spec (params : Params.t) (items : list Item.t) : Prop :=
  ∀ x, x ∈ filter_items params items ↔ x ∈ items ∧ ¬ rejected_spec params x.

(** Rejection as the code decides it: the room count must moreover not be
    zero. *)
Definition rejected (params : Params.t) (x : Item.t) : Prop :=
  (∃ limit v, Params.priceM2Max params = Some limit
     ∧ Derived.pricePerM2 (Item.derived x) = Some v ∧ num_gt v limit = true)
  ∨ (∃ least n, Params.roomsFrom params = Some least
       ∧ Item.rooms x = Some n ∧ n ≠ Num 0%Qc ∧ num_lt n least = true).

(** The normalized parameter set of the specification: a supplied
    constraint is a positive number. *)
Definition positive_if_supplied (o : option number) : Prop :=
  ∀ n, o = Some n → num_lt (Num 0%Qc) n = true.

Definition normalized (params : Params.t) : Prop :=
  positive_if_supplied (Params.priceM2Max params)
  ∧ positive_if_supplied (Params.roomsFrom params).

(** A score result that carries only an identifier and a score. *)
Definition scored (id : str) (n : Z) : Score.t :=
  {| Score.id := id; Score.aiScore := Some (of_Z n);
     Score.aiReason := None; Score.aiHighlights := None |}.

(** The rule on duplicate identifiers as the specification words it: the
    first result with the identifier of a listing is the one applied. *)
Definition first_wins_spec (items : list Item.t) (scores : list Score.t) : Prop :=
  ∀ i item l1 s l2,
    items !! i = Some item → scores = l1 ++ s :: l2 →
    Score.id s = Item.id item → (∀ s', s' ∈ l1 → Score.id s' ≠ Item.id item) →
    mergeScores items scores !! i = Some (with_score item s).

(** The range the specification gives for a score. *)
Definition within_0_100 (n : number) : Prop :=
  ∃ q, n = Num q ∧ (0 ≤ q)%Qc ∧ (q ≤ Q2Qc (inject_Z 100))%Qc.

(** The degraded result of an item whose reply could not be parsed. *)
Definition degraded (item : Item.t) : Score.t :=
  {| Score.id := Item.id item;
     Score.aiScore := Some (Num 0%Qc);
     Score.aiReason := Some (JStr (u16 "OpenAI response could not be parsed."));
     Score.aiHighlights := Some (JArr []) |}.

(** A stand-in for the operations of the language, enough to run the
    examples: [JSON.parse] reads the texts "{}", "null" and "150" and throws
    on every other text. *)
Definition example_engine : ECMAScript :=
  {| JSON_parse := λ text,
       if bool_decide (text = u16 "{}") then Some (JObj [])
       else if bool_decide (text = u16 "null") then Some JNull
       else if bool_decide (text = u16 "150")
            then Some (JNum (Q2Qc (inject_Z 150)))
       else None;
     StringToNumber := λ _, NaN;
     NumberToString := λ _, [] |}.

(** An oracle that answers the listing "b" with text that is not JSON, and
    every other listing with the text "150". *)
Definition example_oracle (n : nat) (item : Item.t) : reply :=
  if bool_decide (Item.id item = u16 "b") then Completion (Some (u16 "not json"))
  else Completion (Some (u16 "150")).

(** ** Further definitions

    The notions the further properties are stated with. *)

(** The loop of a starred pattern, named. *)
Definition star_loop {A : Type} (r : regex) (k : str → caps → option A)
    : nat → str → caps → option A :=
  fix loop (n : nat) (s : str) (c : caps) {struct n} : option A :=
    match n with
    | O => k s c
    | S n' =>
        match run r s (clear_groups r c)
                (λ s1 c1, if (length s1 <? length s)%nat
                          then loop n' s1 c1 else None) with
        | Some a => Some a
        | None => k s c
        end
    end.

(** The words of a pattern: what a match of it consumes. *)
Inductive matches : regex → str → Prop :=
| matches_eps : matches Eps []
| matches_chr p x : p x = true → matches (Chr p) [x]
| matches_seq r1 r2 w1 w2 :
    matches r1 w1 → matches r2 w2 → matches (Seq r1 r2) (w1 ++ w2)
| matches_alt_l r1 r2 w : matches r1 w → matches (Alt r1 r2) w
| matches_alt_r r1 r2 w : matches r2 w → matches (Alt r1 r2) w
| matches_opt_none r : matches (Opt r) []
| matches_opt_some r w : matches r w → matches (Opt r) w
| matches_star_nil r : matches (Star r) []
| matches_star_cons r w1 w2 :
    matches r w1 → w1 ≠ [] → matches (Star r) w2 → matches (Star r) (w1 ++ w2)
| matches_grp i r w : matches r w → matches (Grp i r) w.

Definition total_at {A} (k : str → caps → option A) (s : str) : Prop :=
  ∀ c, is_Some (k s c).

(** The shape of a layout: digits, white space with at most one plus sign
    in it, and the letters "kk" in either case. *)
Definition layout_word (l : str) : Prop :=
  ∃ digits gap1 plus gap2 k1 k2,
    l = digits ++ gap1 ++ plus ++ gap2 ++ [k1; k2]
    ∧ digits ≠ [] ∧ Forall (λ x, is_digit x = true) digits
    ∧ Forall (λ x, is_space x = true) gap1
    ∧ (plus = [] ∨ plus = [43%N])
    ∧ Forall (λ x, is_space x = true) gap2
    ∧ ci 107 k1 = true ∧ ci 107 k2 = true.

(** The first run of two or more digits of a text. *)
Fixpoint first_number (s : str) : option str :=
  match s with
  | [] => None
  | x :: s' =>
      match s' with
      | y :: _ =>
          if is_digit x && is_digit y then Some (span_digits s).1
          else first_number s'
      | [] => None
      end
  end.

Definition price_tail : regex :=
  Seq (Opt ws) (Opt (Grp 2 (Alt (Lit_ci (u16 "Kc")) (Lit_ci (u16 "CZK"))))).

Definition size_number : regex :=
  Seq (Plus d) (Opt (Grp 2 (Seq (Chr (ci 46)) (Plus d)))).

Definition size_tail : regex :=
  Seq (Opt ws) (Grp 3 (Alt (Lit_ci [109; 50]%N) (Lit_ci [109; 178]%N))).

(** A decimal number: digits, and possibly a point and digits. *)
Definition decimal_word (w : str) : Prop :=
  ∃ whole frac, w = whole ++ frac
    ∧ whole ≠ [] ∧ Forall (λ x, is_digit x = true) whole
    ∧ (frac = [] ∨ ∃ fd, frac = 46%N :: fd ∧ fd ≠ []
                      ∧ Forall (λ x, is_digit x = true) fd).

(** A unit marker: at most one white space, then "m2" or "m²", the letter
    in either case. *)
Definition unit_word (w : str) : Prop :=
  ∃ gap m e, w = gap ++ [m; e]
    ∧ (gap = [] ∨ ∃ x, gap = [x] ∧ is_space x = true)
    ∧ ci 109 m = true ∧ (e = 50%N ∨ e = 178%N).

(** A raw listing that carries its own identity: a URL or an identifier. *)
Definition identified (item : Raw.t) : Prop :=
  is_Some (Raw.url item) ∨ is_Some (Raw.id item).

(** A raw listing that is identified by its URL alone: no usable
    identifier, and a URL that is not empty and is well-formed text. *)
Definition url_identified (item : Raw.t) : Prop :=
  ¬ has_identifier item
  ∧ ∃ u, Raw.url item = Some u ∧ u ≠ [] ∧ well_formed u = true.

(** Search parameters without the two constraints the filter reads. *)
Definition unconstrained (params : Params.t) : Prop :=
  Params.priceM2Max params = None ∧ Params.roomsFrom params = None.

(** What a score result made by the scoring routine always has: an
    identifier, a score that is within 0 and 100 or is [NaN], and a reason
    and highlights that are present and not [null]. *)
Definition well_scored (r : Score.t) : Prop :=
  (∃ n, Score.aiScore r = Some n ∧ (n = NaN ∨ within_0_100 n))
  ∧ (∃ v, Score.aiReason r = Some v ∧ v ≠ JNull)
  ∧ (∃ v, Score.aiHighlights r = Some v ∧ v ≠ JNull).

(** The message of the error thrown when the API key is missing. *)
Definition missing_key_message : str := u16 "OPENAI_API_KEY is not configured".

(** ** [normalizePayload] *)

(** [String.prototype.trim]: the white space and the line terminators at
    the two ends of the text are removed. *)
Fixpoint trimStart (s : str) : str :=
  match s with
  | c :: rest => if is_space c then trimStart rest else s
  | [] => []
  end.

Fixpoint trimEnd (s : str) : str :=
  match s with
  | [] => []
  | c :: rest =>
      match trimEnd rest with
      | [] => if is_space c then [] else [c]
      | kept => c :: kept
      end
  end.

Definition trim (s : str) : str := trimEnd (trimStart s).

(** [SearchPayload] of [lib/types]. *)
Module Payload.
Record t := mk {
  city : str;
  priceMax : option number;
  priceM2Max : option number;
  roomsFrom : option number;
  keywords : option (list str);
  aiScoring : option bool
}.
End Payload.

Definition normalizePayload (payload : Payload.t) : Params.t :=
  {| Params.city := trim (Payload.city payload);
     Params.priceMax := Payload.priceMax payload;
     Params.priceM2Max := Payload.priceM2Max payload;
     Params.roomsFrom := Payload.roomsFrom payload;
     Params.keywords :=
       match Payload.keywords payload with
       | Some keywords => filter (λ k, truthy_str k = true) (trim <$> keywords)
       | None => []
       end |}.

(** A text made of white space only. *)
Definition blank (s : str) : Prop := Forall (λ c, is_space c = true) s.

(** A text with no white space at either end. *)
Definition trimmed (w : str) : Prop :=
  (∀ c, head w = Some c → is_space c = false)
  ∧ (∀ c, last w = Some c → is_space c = false).

(** ** The scraper client ([lib/apifyClient]) *)

(** The values [buildActorInput] puts into its record. *)
Inductive filter_value :=
| FStr (s : str)
| FNum (n : number)
| FList (l : list str).

(** The object [filters], as the list of its properties in the order they
    are set. *)
Definition buildActorInput (params : Params.t) : list (str * filter_value) :=
  [(u16 "city", FStr (Params.city params))]
  ++ match when_truthy truthy_num (Params.priceMax params) with
     | Some n => [(u16 "priceMax", FNum n)]
     | None => []
     end
  ++ match when_truthy truthy_num (Params.priceM2Max params) with
     | Some n => [(u16 "priceM2Max", FNum n)]
     | None => []
     end
  ++ match when_truthy truthy_num (Params.roomsFrom params) with
     | Some n => [(u16 "roomsFrom", FNum n)]
     | None => []
     end
  ++ match Params.keywords params with
     | [] => []
     | keywords => [(u16 "keywords", FList keywords)]
     end.

(** The value of a property of the object. *)
Fixpoint property (filters : list (str * filter_value)) (name : str)
    : option filter_value :=
  match filters with
  | [] => None
  | (k, v) :: rest => if bool_decide (k = name) then Some v else property rest name
  end.

(** Search parameters whose limits, where given, are truthy: neither zero
    nor [NaN]. *)
Definition usable_limits (params : Params.t) : Prop :=
  when_truthy truthy_num (Params.priceMax params) = Params.priceMax params
  ∧ when_truthy truthy_num (Params.priceM2Max params) = Params.priceM2Max params
  ∧ when_truthy truthy_num (Params.roomsFrom params) = Params.roomsFrom params.

Definition POLL_INTERVAL_MS : Z := 2000.
Definition MAX_POLL_DURATION_MS : Z := 120000.

(** What one status request of the polling loop comes to: the request or
    the reading of its body is rejected with an error; the response is not
    [ok] and has a text; or the response is [ok] and describes the run. *)
Inductive status_reply :=
| StatusRejected (error : str)
| StatusNotOk (text : str)
| StatusRun (status : str) (defaultDatasetId : option str).

(** The [while] loop of [pollRunForDataset]. [now k] is what the call
    number [k] of [Date.now()] returns, [statusResponse i] what the status
    request number [i] comes to; [i] requests have been made so far. The
    result comes with the number of requests made. *)
Fixpoint poll_loop (fuel : nat) (now : nat → Z) (statusResponse : nat → status_reply)
    (start : Z) (i : nat) : option (outcome str * nat) :=
  match fuel with
  | O => None
  | S fuel =>
      if bool_decide (now (S i) - start < MAX_POLL_DURATION_MS) then
        match statusResponse i with
        | StatusRejected error => Some (Throws error, S i)
        | StatusNotOk text =>
            Some (Throws (u16 "Failed to poll Apify run: " ++ text), S i)
        | StatusRun status defaultDatasetId =>
            if bool_decide (status = u16 "SUCCEEDED") then
              match when_truthy truthy_str defaultDatasetId with
              | None =>
                  Some (Throws (u16 "Apify run succeeded but dataset id missing"), S i)
              | Some datasetId => Some (Returns datasetId, S i)
              end
            else if bool_decide
                      (status ∈ [u16 "FAILED"; u16 "ABORTED"; u16 "TIMED-OUT"])
            then Some (Throws (u16 "Apify run ended with status " ++ status), S i)
            else poll_loop fuel now statusResponse start (S i)
        end
      else Some (Throws (u16 "Apify run polling timed out"), i)
  end.

Definition pollRunForDataset (fuel : nat) (now : nat → Z)
    (statusResponse : nat → status_reply) : option (outcome str * nat) :=
  poll_loop fuel now statusResponse (now 0%nat) 0.

(** The clock of a run of the loop: it does not go back before the first
    test, and between two tests, which a sleep separates, it advances by the
    polling interval at least. *)
Definition clock_advances (now : nat → Z) : Prop :=
  now 0%nat ≤ now 1%nat ∧ ∀ i, now (S i) + POLL_INTERVAL_MS ≤ now (S (S i)).

(** ** The store ([lib/supabase]) and the [/api/search] handler *)

(** A row of the table [results]. *)
Module Row.
Record t := mk {
  search_id : str;
  data_json : Item.t;
  ai_score : option number;
  ai_reason : option value
}.
End Row.

(** The request, as far as the handler reads it. *)
Module Request.
Record t := mk {
  method : option str;
  body : value;
  x_user_id : option str;
  x_forwarded_proto : option str;
  host : option str
}.
End Request.

(** What an [insert] into [searches] resolves to. *)
Inductive db_reply :=
| DbError (message : str)
| DbData (id : str).

(** What the call of the scoring endpoint comes to: the results of the
    body, taken at their declared type, or anything that throws inside the
    [try] block (the request fails, the response is not [ok], the body
    cannot be read). *)
Inductive endpoint_reply :=
| Unavailable
| Results (results : list Score.t).

(** The calls the handler makes to the outside, in the order it makes
    them. The lines it logs are left out. *)
Inductive event :=
| InsertSearch (user_id : option str) (params : Payload.t)
| FetchListings (params : Params.t)
| PostScore (url : str) (items : list Item.t)
| LocalScoring (items : list Item.t)
| InsertResults (rows : list Row.t).

(** The environment and the services the handler depends on. The schema
    validation of the body is one of them. *)
Record services := {
  searchSchema_parse : value → outcome Payload.t;
  SUPABASE_URL : option str;
  SUPABASE_KEY : option str;
  searches_insert : option str → Payload.t → db_reply;
  results_insert : list Row.t → option str;
  fetchListingsFromApify : Params.t → outcome (list Raw.t);
  randomUUID_keys : supply;
  randomUUID_ids : supply;
  INTERNAL_API_BASE_URL : option str;
  score_endpoint : str → list Item.t → endpoint_reply;
  OPENAI_API_KEY : option str;
  completions : nat → Item.t → reply
}.

(** A computation that may throw and that records the calls it makes. *)
Definition M (A : Type) : Type := (outcome A * list event)%type.

#[global] Instance M_ret : MRet M := λ A a, (Returns a, []).

#[global] Instance M_bind : MBind M := λ A B f m,
  match m with
  | (Returns a, calls) => let '(r, calls') := f a in (r, calls ++ calls')
  | (Throws error, calls) => (Throws error, calls)
  end.

Definition throw {A : Type} (error : str) : M A := (Throws error, []).
Definition call (e : event) : M unit := (Returns (), [e]).
Definition lift {A : Type} (r : outcome A) : M A := (r, []).

(** [createClient] is taken to return a client for every URL and key that
    are not empty. *)
Definition getSupabaseClient (w : services) : M unit :=
  match when_truthy truthy_str (SUPABASE_URL w),
        when_truthy truthy_str (SUPABASE_KEY w) with
  | Some _, Some _ => mret ()
  | _, _ => throw (u16 "Supabase environment variables are missing")
  end.

Definition persistSearch (w : services) (params : Payload.t)
    (userId : option str) : M str :=
  getSupabaseClient w ;;
  call (InsertSearch userId params) ;;
  match searches_insert w userId params with
  | DbError message => throw (u16 "Failed to persist search: " ++ message)
  | DbData id => mret id
  end.

Definition rows_of (searchId : str) (items : list Item.t) : list Row.t :=
  (λ item, {| Row.search_id := searchId;
              Row.data_json := item;
              Row.ai_score := Item.aiScore item;
              Row.ai_reason := Item.aiReason item |}) <$> items.

Definition persistResults (w : services) (searchId : str)
    (items : list Item.t) : M unit :=
  match items with
  | [] => mret ()
  | _ =>
      getSupabaseClient w ;;
      let payload := rows_of searchId items in
      call (InsertResults payload) ;;
      match results_insert w payload with
      | Some message => throw (u16 "Failed to persist results: " ++ message)
      | None => mret ()
      end
  end.

Definition getBaseUrl (w : services) (req : Request.t) : option str :=
  match when_truthy truthy_str (INTERNAL_API_BASE_URL w) with
  | Some base => Some base
  | None =>
      let proto := default (u16 "http") (Request.x_forwarded_proto req) in
      match when_truthy truthy_str (Request.host req) with
      | None => None
      | Some host => Some (proto ++ u16 "://" ++ host)
      end
  end.

(** The response of the handler. *)
Inductive response_body :=
| ErrorBody (error : str)
| SearchResponse (searchId : str) (results : list Item.t).

Record response := {
  status : N;
  Allow : option str;
  json : response_body
}.

Section Handler.
Context {E : ECMAScript}.

Definition local_scoring (w : services) (items : list Item.t) : M (list Score.t) :=
  call (LocalScoring items) ;;
  lift (scoreRealEstateItems (OPENAI_API_KEY w) (completions w) items).

Definition requestAiScoring (w : services) (req : Request.t)
    (items : list Item.t) : M (list Score.t) :=
  match when_truthy truthy_str (getBaseUrl w req) with
  | None => local_scoring w items
  | Some baseUrl =>
      call (PostScore (baseUrl ++ u16 "/api/score") items) ;;
      match score_endpoint w (baseUrl ++ u16 "/api/score") items with
      | Results results => mret results
      | Unavailable => local_scoring w items
      end
  end.

(** The value of [enrichedResults] when the results are persisted. *)
Definition enrichedResults (w : services) (req : Request.t)
    (parsed : Payload.t) (processed : list Item.t) : M (list Item.t) :=
  if bool_decide (Payload.aiScoring parsed = Some true) then
    scoreResults ← requestAiScoring w req processed;
    mret (mergeScores processed scoreResults)
  else mret processed.

(** The body of the [try] block. *)
Definition search (w : services) (req : Request.t) : M response :=
  parsed ← lift (searchSchema_parse w (Request.body req));
  let normalized := normalizePayload parsed in
  let userId := Request.x_user_id req in
  searchId ← persistSearch w parsed userId;
  rawListings ← (call (FetchListings normalized) ;;
                 lift (fetchListingsFromApify w normalized));
  let processed :=
    postProcessListings rawListings normalized
      (randomUUID_keys w) (randomUUID_ids w) in
  enriched ← enrichedResults w req parsed processed;
  persistResults w searchId enriched ;;
  mret {| status := 200; Allow := None;
          json := SearchResponse searchId enriched |}.

Definition handler (w : services) (req : Request.t) : response * list event :=
  if bool_decide (Request.method req ≠ Some (u16 "POST")) then
    ({| status := 405; Allow := Some (u16 "POST");
        json := ErrorBody (u16 "Method Not Allowed") |}, [])
  else
    match search w req with
    | (Returns res, calls) => (res, calls)
    | (Throws message, calls) =>
        ({| status := 500; Allow := None; json := ErrorBody message |}, calls)
    end.
End Handler.

(** The calls of a run that ask for scores. *)
Definition scoring_call (e : event) : Prop :=
  match e with
  | PostScore _ _ | LocalScoring _ => True
  | _ => False
  end.

(** ** Examples

    A request, the services and a clock to run the handler and the polling
    loop on. *)

(** A listing with a price of 597294 whose size, 21.6 square metres, is
    read from its description. *)
Definition priced_flat : Raw.t :=
  {| Raw.id := None; Raw.url := None; Raw.title := None; Raw.locality := None;
     Raw.description := Some (u16 "Byt 21.6 m2");
     Raw.price := Some (of_Z 597294); Raw.size := None;
     Raw.area := None; Raw.rooms := None; Raw.images := None |}.

Definition example_payload (aiScoring : option bool) : Payload.t :=
  {| Payload.city := u16 " Praha ";
     Payload.priceMax := None; Payload.priceM2Max := None;
     Payload.roomsFrom := None;
     Payload.keywords := Some [u16 " balkon"; u16 "  "];
     Payload.aiScoring := aiScoring |}.

(** Services in which the store and the scraper work, the scraper finds the
    listing of the scenario, and no scoring is available: no base URL, no
    endpoint, no API key. *)
Definition example_services (aiScoring : option bool) : services :=
  {| searchSchema_parse := λ _, Returns (example_payload aiScoring);
     SUPABASE_URL := Some (u16 "https://db");
     SUPABASE_KEY := Some (u16 "key");
     searches_insert := λ _ _, DbData (u16 "s1");
     results_insert := λ _, None;
     fetchListingsFromApify := λ _, Returns [scenario];
     randomUUID_keys := λ _, u16 "k";
     randomUUID_ids := λ _, u16 "u";
     INTERNAL_API_BASE_URL := None;
     score_endpoint := λ _ _, Unavailable;
     OPENAI_API_KEY := None;
     completions := example_oracle |}.

Definition example_request : Request.t :=
  {| Request.method := Some (u16 "POST");
     Request.body := JObj [];
     Request.x_user_id := None;
     Request.x_forwarded_proto := None;
     Request.host := None |}.

(** A clock that advances by the polling interval from one reading to the
    next, and a run that succeeds at the third status request. *)
Definition example_clock (k : nat) : Z := POLL_INTERVAL_MS * Z.of_nat k.

Definition example_status (i : nat) : status_reply :=
  if bool_decide (i = 2%nat) then StatusRun (u16 "SUCCEEDED") (Some (u16 "d1"))
  else StatusRun (u16 "RUNNING") None.

(** * Properties *)

(** ** Normalisation *)

(** The fields of a normalised listing that do not depend on the drawn
    identifier. *)
Ltac normalise item uuids :=
  unfold transformListing; destruct (createId item uuids); cbn [fst Item.id
    Item.price Item.sizeM2 Item.rooms Item.derived Derived.pricePerM2
    Derived.sizeM2 Derived.layoutLabel].

Lemma transformListing_id item uuids :
  Item.id (transformListing item uuids).1 = (createId item uuids).1.
Proof. normalise item uuids. done. Qed.

Lemma transformListing_sizeM2 item uuids :
  Item.sizeM2 (transformListing item uuids).1 =
  Raw.size item ?? Raw.area item
    ?? parseSize (default [] (Raw.description item ?? Raw.title item)).
Proof. normalise item uuids. done. Qed.

Lemma transformListing_pricePerM2 item uuids :
  let x := (transformListing item uuids).1 in
  Derived.pricePerM2 (Item.derived x) = pricePerM2_of (Item.sizeM2 x) (Item.price x).
Proof. normalise item uuids. done. Qed.

(** C1, the scenario as the specification gives it, refuted: the size is
    searched in the description, which is present and carries none, so the
    normalised listing has no size and no price per square metre. *)
Lemma scenario_spec_fails :
  ¬ scenario_spec (transformListing scenario (λ _, [])).1.
Proof.
  intros (Hsize & _). vm_compute in Hsize. discriminate Hsize.
Qed.

(** C1, amended: the scenario normalises to price 4500000, rooms 2 and
    layout label "2+kk", with size and price per square metre absent; the
    size comes from the explicit size field, else the area field, else the
    free text of the description, the title being read only when the
    description is absent (as it is for the same listing without its
    description, whose size is then 55 and price absent). *)
Theorem scenario_normalised (uuids : supply) :
  let x := (transformListing scenario uuids).1 in
  (Item.sizeM2 x = None
   ∧ Item.price x = Some (of_Z 4500000)
   ∧ Item.rooms x = Some (of_Z 2)
   ∧ Derived.layoutLabel (Item.derived x) = Some (u16 "2+kk")
   ∧ Derived.pricePerM2 (Item.derived x) = None)
  ∧ (∀ item : Raw.t,
       Item.sizeM2 (transformListing item uuids).1 =
       Raw.size item ?? Raw.area item
         ?? parseSize (default [] (Raw.description item ?? Raw.title item)))
  ∧ Item.sizeM2 (transformListing
       {| Raw.id := None; Raw.url := None;
          Raw.title := Raw.title scenario; Raw.locality := None;
          Raw.description := None;
          Raw.price := None; Raw.size := None; Raw.area := None;
          Raw.rooms := None; Raw.images := None |} uuids).1 = Some (of_Z 55).
Proof.
  split; [|split].
  - unfold transformListing. destruct (createId scenario uuids).
    cbn [fst Item.price Item.sizeM2 Item.rooms Item.derived
         Derived.pricePerM2 Derived.layoutLabel].
    repeat split; vm_compute; reflexivity.
  - intros item. apply transformListing_sizeM2.
  - rewrite transformListing_sizeM2. vm_compute. reflexivity.
Qed.

(** C2, the invariant as the specification gives it, refuted: with price 0
    and size 50 the truthiness test on the price leaves the price per square
    metre absent. *)
Lemma pricePerM2_spec_fails :
  ¬ pricePerM2_spec (transformListing free_flat (λ _, [])).1.
Proof.
  intros [Hiff _].
  assert (Hsome : is_Some (Derived.pricePerM2
            (Item.derived (transformListing free_flat (λ _, [])).1))).
  { apply Hiff. exists (Q2Qc (inject_Z 0)), (Q2Qc (inject_Z 50)).
    repeat split. }
  destruct Hsome as [v Hv]. vm_compute in Hv. discriminate Hv.
Qed.

(** C2, amended: the price per square metre of a normalised listing is
    present exactly when price and size are both present and both non-zero
    numbers, and it is then what [Math.round] makes of the quotient as the
    division gives it, which is the Number value nearest to price/size and
    not the exact quotient. *)
Theorem pricePerM2_invariant (item : Raw.t) (uuids : supply) (v : number) :
  let x := (transformListing item uuids).1 in
  Derived.pricePerM2 (Item.derived x) = Some v ↔
  ∃ p s : Qc, Item.price x = Some (Num p) ∧ Item.sizeM2 x = Some (Num s)
     ∧ p ≠ 0%Qc ∧ s ≠ 0%Qc
     ∧ v = Math_round (num_div (Num p) (Num s)).
Proof.
  intros x. subst x. rewrite transformListing_pricePerM2.
  destruct (Item.sizeM2 _) as [[s|]|], (Item.price _) as [[p|]|];
    cbn [pricePerM2_of truthy_num];
    try (split; [discriminate | by intros (? & ? & ? & ? & _)]).
  - destruct (bool_decide_reflect (s = 0%Qc)) as [Hs|Hs],
             (bool_decide_reflect (p = 0%Qc)) as [Hp|Hp]; cbn [negb andb].
    all: split;
      [ intros Hv; simplify_eq
      | intros (p' & s' & ? & ? & ? & ? & ->); simplify_eq ]; try done.
    by exists p, s.
  - split; [by rewrite andb_false_r | by intros (? & ? & ? & ? & _)].
Qed.

(** A flat of 55 square metres priced 4500000 costs 81818 a square
    metre. *)
Lemma pricePerM2_invariant_witness :
  Derived.pricePerM2
    (Item.derived
       (transformListing
          {| Raw.id := None; Raw.url := None; Raw.title := None;
             Raw.locality := None; Raw.description := None;
             Raw.price := Some (of_Z 4500000); Raw.size := Some (of_Z 55);
             Raw.area := None; Raw.rooms := None; Raw.images := None |}
          (λ _, [])).1)
  = Some (of_Z 81818).
Proof.
  apply pricePerM2_invariant.
  exists (Q2Qc (inject_Z 4500000)), (Q2Qc (inject_Z 55)).
  split_and!;
    [reflexivity|reflexivity|vm_compute; discriminate|vm_compute; discriminate
    |vm_compute; reflexivity].
Defined.

(** The division and [parseFloat] at work. The Number nearest to 21.6 is a
    little above it; 3240054 divided by it gives 150002.5 as a Number,
    though the exact quotient is below that, and so 150003 after rounding;
    and 4503599904194560 divided by 16777217 gives 268435456.5 as a Number,
    and so 268435457. *)
Lemma division_examples :
  parseFloat (u16 "21.6") = Num (Q2Qc (3039929748475085 # 140737488355328))
  ∧ num_div (of_Z 3240054) (Num (Q2Qc (3039929748475085 # 140737488355328)))
    = Num (Q2Qc (300005 # 2))
  ∧ Math_round
      (num_div (of_Z 3240054) (Num (Q2Qc (3039929748475085 # 140737488355328))))
    = of_Z 150003
  ∧ num_div (of_Z 4503599904194560) (of_Z 16777217) = Num (Q2Qc (536870913 # 2))
  ∧ Math_round (num_div (of_Z 4503599904194560) (of_Z 16777217))
    = of_Z 268435457.
Proof. split_and!; vm_compute; reflexivity. Qed.

(** C10: the size under the derived attributes is the top-level size,
    whichever way the size was obtained: the explicit size field, else the
    area field, else the free-text match. *)
Theorem derived_sizeM2_agrees (item : Raw.t) (uuids : supply) :
  let x := (transformListing item uuids).1 in
  Derived.sizeM2 (Item.derived x) = Item.sizeM2 x
  ∧ Item.sizeM2 x =
      match Raw.size item, Raw.area item with
      | Some size, _ => Some size
      | None, Some area => Some area
      | None, None =>
          parseSize (default [] (Raw.description item ?? Raw.title item))
      end.
Proof.
  normalise item uuids. split; [done|].
  by destruct (Raw.size item), (Raw.area item).
Qed.

(** ** Identifiers *)

Lemma when_truthy_Some {A} (t : A → bool) o x :
  when_truthy t o = Some x ↔ o = Some x ∧ t x = true.
Proof.
  destruct o as [y|]; cbn.
  - destruct (t y) eqn:Ht; split.
    + intros [= ->]. done.
    + by intros [? _].
    + done.
    + intros [[= ->] ?]. congruence.
  - split; [done | by intros [? _]].
Qed.

Lemma when_truthy_None {A} (t : A → bool) o :
  when_truthy t o = None ↔ ∀ x, o = Some x → t x = false.
Proof.
  destruct o as [y|]; cbn.
  - destruct (t y) eqn:Ht; split.
    + done.
    + intros H. specialize (H y eq_refl). congruence.
    + intros _ x [= <-]. done.
    + done.
  - done.
Qed.

Lemma truthy_str_true s : truthy_str s = true ↔ s ≠ [].
Proof. by destruct s. Qed.

Lemma no_identifier item :
  ¬ has_identifier item ↔ when_truthy truthy_id (Raw.id item) = None.
Proof.
  rewrite when_truthy_None. unfold has_identifier. split.
  - intros Hno i Hi. destruct (truthy_id i) eqn:Ht; [|done].
    destruct Hno. eauto.
  - intros Hall (i & Hi & Ht). rewrite (Hall i Hi) in Ht. done.
Qed.

Lemma no_url item :
  ¬ has_url item ↔ when_truthy truthy_str (Raw.url item) = None.
Proof.
  rewrite when_truthy_None. unfold has_url. split.
  - intros Hno u Hu. destruct u; [done|]. destruct Hno. eauto.
  - intros Hall (u & Hu & Hne). apply Hall in Hu. by destruct u.
Qed.

Lemma div_mul_add (a b n : N) : (b < n → (a * n + b) / n = a)%N.
Proof.
  intros Hb. rewrite N.add_comm, N.div_add by lia.
  rewrite N.div_small; lia.
Qed.

Lemma mod_mul_add (a b n : N) : (b < n → (a * n + b) mod n = b)%N.
Proof.
  intros Hb. rewrite N.add_comm, N.Div0.mod_add. by apply N.mod_small.
Qed.

Lemma div_lt (a n m : N) : (0 < n → a < m * n → a / n < m)%N.
Proof. intros Hn Ha. apply N.Div0.div_lt_upper_bound. lia. Qed.

Ltac case_cmp :=
  repeat match goal with
    | |- context [ (?a <=? ?b)%N ] => case (N.leb_spec a b); intros ?
    | |- context [ (?a <? ?b)%N ] => case (N.ltb_spec a b); intros ?
    | |- context [ (?a =? ?b)%N ] => case (N.eqb_spec a b); intros ?
    end; cbn.

Lemma base64_index_char (i : N) : (i < 64 → base64_index (base64_char i) = i)%N.
Proof.
  intros Hi. unfold base64_char. case_cmp.
  all: unfold base64_index, is_upper, is_lower, is_digit; case_cmp; lia.
Qed.

Lemma base64_char_not_pad (i : N) : (i < 64 → (base64_char i =? 61) = false)%N.
Proof.
  intros Hi. apply N.eqb_neq. unfold base64_char.
  destruct (i =? 62)%N; case_cmp; lia.
Qed.

Lemma base64_triple (a b c : N) :
  (a < 256 → b < 256 → c < 256 →
   a / 4 * 4 + (a mod 4 * 16 + b / 16) / 16 = a
   ∧ (a mod 4 * 16 + b / 16) mod 16 * 16 + (b mod 16 * 4 + c / 64) / 4 = b
   ∧ (b mod 16 * 4 + c / 64) mod 4 * 64 + c mod 64 = c)%N.
Proof.
  intros Ha Hb Hc.
  assert (b / 16 < 16)%N by (apply div_lt; lia).
  assert (c / 64 < 4)%N by (apply div_lt; lia).
  rewrite !div_mul_add, !mod_mul_add by done.
  pose proof (N.div_mod a 4). pose proof (N.div_mod b 16).
  pose proof (N.div_mod c 64). lia.
Qed.

Lemma base64_sextets (a b c : N) :
  (a < 256 → b < 256 → c < 256 →
   a / 4 < 64 ∧ a mod 4 * 16 + b / 16 < 64 ∧ b mod 16 * 4 + c / 64 < 64
   ∧ c mod 64 < 64 ∧ a mod 4 * 16 < 64 ∧ b mod 16 * 4 < 64)%N.
Proof.
  intros Ha Hb Hc.
  assert (a / 4 < 64)%N by (apply div_lt; lia).
  assert (b / 16 < 16)%N by (apply div_lt; lia).
  assert (c / 64 < 4)%N by (apply div_lt; lia).
  pose proof (N.mod_lt a 4). pose proof (N.mod_lt b 16).
  pose proof (N.mod_lt c 64). lia.
Qed.

(** Induction on a list three elements at a time. *)
Lemma list_ind3 {A} (P : list A → Prop) :
  P [] → (∀ a, P [a]) → (∀ a b, P [a; b]) →
  (∀ a b c l, P l → P (a :: b :: c :: l)) → ∀ l, P l.
Proof.
  intros H0 H1 H2 H3.
  cut (∀ l, P l ∧ (∀ a, P (a :: l)) ∧ (∀ a b, P (a :: b :: l))).
  { intros H l. apply H. }
  induction l as [|x l (IH0 & IH1 & IH2)]; [by auto|].
  split_and!; auto.
Qed.

(** Base64 text decodes to the bytes it was made from. *)
Lemma from_base64_toString (bs : list N) :
  Forall (λ b, b < 256)%N bs → from_base64 (toString_base64 bs) = bs.
Proof.
  induction bs as [|a|a b|a b c l IH] using list_ind3; intros Hbs.
  - done.
  - apply Forall_cons_1 in Hbs as [Ha _].
    destruct (base64_sextets a 0 0) as (? & ? & _ & _ & ? & _); [lia..|].
    destruct (base64_triple a 0 0) as (Ea & _); [lia..|].
    cbn. rewrite !base64_index_char by done.
    rewrite N.add_0_r in Ea. by rewrite Ea.
  - apply Forall_cons_1 in Hbs as [Ha Hbs].
    apply Forall_cons_1 in Hbs as [Hb _].
    destruct (base64_sextets a b 0) as (? & ? & _ & _ & _ & ?); [lia..|].
    destruct (base64_triple a b 0) as (Ea & Eb & _); [lia..|].
    cbn. rewrite base64_char_not_pad by done.
    rewrite !base64_index_char by done.
    rewrite N.add_0_r in Eb. by rewrite Ea, Eb.
  - apply Forall_cons_1 in Hbs as [Ha Hbs].
    apply Forall_cons_1 in Hbs as [Hb Hbs].
    apply Forall_cons_1 in Hbs as [Hc Hl].
    destruct (base64_sextets a b c) as (? & ? & ? & ? & _); [lia..|].
    destruct (base64_triple a b c) as (Ea & Eb & Ec); [lia..|].
    cbn [toString_base64 app from_base64].
    rewrite !base64_char_not_pad by done.
    rewrite !base64_index_char by done.
    rewrite Ea, Eb, Ec, IH by done. done.
Qed.

(** Induction on a text one code unit or one pair of code units at a
    time. *)
Lemma list_ind2 {A} (P : list A → Prop) :
  P [] → (∀ a, P [a]) → (∀ a l, P l → P (a :: l) → ∀ b, P (b :: a :: l)) →
  ∀ l, P l.
Proof.
  intros H0 H1 H2.
  cut (∀ l, P l ∧ ∀ a, P (a :: l)); [intros H l; apply H|].
  induction l as [|x l [IH0 IH1]]; [by auto|].
  split; [done|]. intros a. by apply H2.
Qed.

Section Utf8.
Local Ltac Zify.zify_post_hook ::= Z.to_euclidean_division_equations.

Lemma utf8_2_bounds (c : N) :
  (128 ≤ c → c < 2048 →
   128 ≤ 192 + c / 64 < 224 ∧ 128 + c mod 64 < 256
   ∧ (192 + c / 64 - 192) * 64 + (128 + c mod 64 - 128) = c)%N.
Proof. intros. lia. Qed.

Lemma utf8_3_bounds (c : N) :
  (2048 ≤ c → c < 65536 →
   224 ≤ 224 + c / 4096 < 240 ∧ 128 + (c / 64) mod 64 < 256
   ∧ 128 + c mod 64 < 256
   ∧ (224 + c / 4096 - 224) * 4096 + (128 + (c / 64) mod 64 - 128) * 64
     + (128 + c mod 64 - 128) = c)%N.
Proof. intros. lia. Qed.

Lemma utf8_4_bounds (cp : N) :
  (65536 ≤ cp → cp < 1114112 →
   240 ≤ 240 + cp / 262144 < 256 ∧ 128 + (cp / 4096) mod 64 < 256
   ∧ 128 + (cp / 64) mod 64 < 256 ∧ 128 + cp mod 64 < 256)%N.
Proof. intros. lia. Qed.

Lemma utf8_4_value (cp : N) :
  ((240 + cp / 262144 - 240) * 262144 + (128 + (cp / 4096) mod 64 - 128) * 4096
   + (128 + (cp / 64) mod 64 - 128) * 64 + (128 + cp mod 64 - 128) = cp)%N.
Proof. lia. Qed.
End Utf8.

Lemma high_surrogate_range (c : N) :
  is_high_surrogate c = true → (55296 ≤ c ≤ 56319)%N.
Proof.
  unfold is_high_surrogate. intros [?%N.leb_le ?%N.leb_le]%andb_true_iff. lia.
Qed.

Lemma surrogate_pair_split (hi lo : N) :
  is_high_surrogate hi = true → is_low_surrogate lo = true →
  (65536 ≤ pair_code_point hi lo ∧ pair_code_point hi lo < 1114112
   ∧ 55296 + (pair_code_point hi lo - 65536) / 1024 = hi
   ∧ 56320 + (pair_code_point hi lo - 65536) mod 1024 = lo)%N.
Proof.
  unfold is_high_surrogate, is_low_surrogate, pair_code_point. intros Hhi Hlo.
  apply andb_true_iff in Hhi as [?%N.leb_le ?%N.leb_le].
  apply andb_true_iff in Hlo as [?%N.leb_le ?%N.leb_le].
  replace (65536 + (hi - 55296) * 1024 + (lo - 56320) - 65536)%N
    with ((hi - 55296) * 1024 + (lo - 56320))%N by lia.
  rewrite div_mul_add, mod_mul_add by lia. lia.
Qed.

Lemma decode_utf8_1 (c : N) rest :
  (c < 128)%N → decode_utf8 (c :: rest) = c :: decode_utf8 rest.
Proof.
  intros Hc. cbn [decode_utf8]. by destruct (N.ltb_spec c 128); [|lia].
Qed.

Lemma decode_utf8_2 (c : N) rest :
  (128 ≤ c)%N → (c < 2048)%N →
  decode_utf8 ([192 + c / 64; 128 + c mod 64]%N ++ rest) = c :: decode_utf8 rest.
Proof.
  intros H1 H2. destruct (utf8_2_bounds c H1 H2) as ([? ?] & ? & Hv).
  cbn [decode_utf8 app].
  destruct (N.ltb_spec (192 + c / 64) 128); [lia|].
  destruct (N.ltb_spec (192 + c / 64) 224); [|lia].
  by rewrite Hv.
Qed.

Lemma decode_utf8_3 (c : N) rest :
  (2048 ≤ c)%N → (c < 65536)%N →
  decode_utf8 (utf8_3 c ++ rest) = c :: decode_utf8 rest.
Proof.
  intros H1 H2. destruct (utf8_3_bounds c H1 H2) as ([? ?] & ? & ? & Hv).
  unfold utf8_3. cbn [decode_utf8 app].
  destruct (N.ltb_spec (224 + c / 4096) 128); [lia|].
  destruct (N.ltb_spec (224 + c / 4096) 224); [lia|].
  destruct (N.ltb_spec (224 + c / 4096) 240); [|lia].
  by rewrite Hv.
Qed.

Lemma decode_utf8_4 (hi lo : N) rest :
  is_high_surrogate hi = true → is_low_surrogate lo = true →
  decode_utf8 (utf8_4 (pair_code_point hi lo) ++ rest)
  = hi :: lo :: decode_utf8 rest.
Proof.
  intros Hhi Hlo.
  destruct (surrogate_pair_split hi lo Hhi Hlo) as (H1 & H2 & Ehi & Elo).
  set (cp := pair_code_point hi lo) in *.
  destruct (utf8_4_bounds cp H1 H2) as ([? ?] & _).
  unfold utf8_4. cbn [decode_utf8 app].
  destruct (N.ltb_spec (240 + cp / 262144) 128); [lia|].
  destruct (N.ltb_spec (240 + cp / 262144) 224); [lia|].
  destruct (N.ltb_spec (240 + cp / 262144) 240); [lia|].
  by rewrite utf8_4_value, Ehi, Elo.
Qed.

Lemma Buffer_from_cons (c : N) (s' : str) :
  Buffer_from (c :: s') =
  if (c <? 128)%N then c :: Buffer_from s'
  else if (c <? 2048)%N then [192 + c / 64; 128 + c mod 64]%N ++ Buffer_from s'
  else if is_high_surrogate c then
    match s' with
    | c2 :: s'' =>
        if is_low_surrogate c2
        then utf8_4 (pair_code_point c c2) ++ Buffer_from s''
        else utf8_replacement ++ Buffer_from s'
    | [] => utf8_replacement
    end
  else if is_low_surrogate c then utf8_replacement ++ Buffer_from s'
  else utf8_3 c ++ Buffer_from s'.
Proof. done. Qed.

Lemma well_formed_cons (c : N) (s' : str) :
  well_formed (c :: s') =
  if is_high_surrogate c then
    match s' with
    | c2 :: s'' => is_low_surrogate c2 && well_formed s''
    | [] => false
    end
  else negb (is_low_surrogate c) && (c <? 65536)%N && well_formed s'.
Proof. done. Qed.

(** The UTF-8 bytes of a well-formed text decode to that text. *)
Lemma decode_utf8_Buffer_from (s : str) :
  well_formed s = true → decode_utf8 (Buffer_from s) = s.
Proof.
  induction s as [|c|c s IH0 IH1 c0] using list_ind2; [done| |].
  - cbn [well_formed Buffer_from].
    destruct (is_high_surrogate c) eqn:Hhi; [done|].
    rewrite andb_true_r, andb_true_iff, negb_true_iff, N.ltb_lt.
    intros [Hlo Hc]. rewrite Hlo.
    destruct (N.ltb_spec c 128); [by rewrite decode_utf8_1|].
    destruct (N.ltb_spec c 2048).
    + by rewrite decode_utf8_2.
    + by rewrite decode_utf8_3.
  - rewrite well_formed_cons, Buffer_from_cons.
    destruct (is_high_surrogate c0) eqn:Hhi.
    + rewrite andb_true_iff. intros [Hlo Hwf].
      pose proof (high_surrogate_range c0 Hhi).
      destruct (N.ltb_spec c0 128); [lia|].
      destruct (N.ltb_spec c0 2048); [lia|].
      rewrite Hlo, decode_utf8_4, IH0 by done. done.
    + rewrite !andb_true_iff, negb_true_iff, N.ltb_lt.
      intros [[Hlo Hc] Hwf]. rewrite Hlo.
      destruct (N.ltb_spec c0 128); [by rewrite decode_utf8_1, IH1|].
      destruct (N.ltb_spec c0 2048).
      * by rewrite decode_utf8_2, IH1.
      * by rewrite decode_utf8_3, IH1.
Qed.

Lemma Buffer_from_bytes (s : str) :
  well_formed s = true → Forall (λ b, b < 256)%N (Buffer_from s).
Proof.
  induction s as [|c|c s IH0 IH1 c0] using list_ind2; [done| |].
  - cbn [well_formed Buffer_from].
    destruct (is_high_surrogate c) eqn:Hhi; [done|].
    rewrite andb_true_r, andb_true_iff, negb_true_iff, N.ltb_lt.
    intros [Hlo Hc]. rewrite Hlo.
    destruct (N.ltb_spec c 128); [repeat constructor; lia|].
    destruct (N.ltb_spec c 2048).
    + destruct (utf8_2_bounds c) as ([? ?] & ? & _); [done..|].
      repeat constructor; lia.
    + destruct (utf8_3_bounds c) as ([? ?] & ? & ? & _); [done..|].
      repeat constructor; lia.
  - rewrite well_formed_cons, Buffer_from_cons.
    destruct (is_high_surrogate c0) eqn:Hhi.
    + rewrite andb_true_iff. intros [Hlo Hwf].
      pose proof (high_surrogate_range c0 Hhi).
      destruct (N.ltb_spec c0 128); [lia|].
      destruct (N.ltb_spec c0 2048); [lia|].
      rewrite Hlo.
      destruct (surrogate_pair_split c0 c Hhi Hlo) as (Hcp1 & Hcp2 & _).
      destruct (utf8_4_bounds _ Hcp1 Hcp2) as ([? ?] & ? & ? & ?).
      apply Forall_app. split; [|by apply IH0].
      repeat constructor; lia.
    + rewrite !andb_true_iff, negb_true_iff, N.ltb_lt.
      intros [[Hlo Hc] Hwf]. rewrite Hlo.
      destruct (N.ltb_spec c0 128); [constructor; [lia|by apply IH1]|].
      destruct (N.ltb_spec c0 2048).
      * destruct (utf8_2_bounds c0) as ([? ?] & ? & _); [done..|].
        apply Forall_app. split; [repeat constructor; lia|by apply IH1].
      * destruct (utf8_3_bounds c0) as ([? ?] & ? & ? & _); [done..|].
        apply Forall_app. split; [repeat constructor; lia|by apply IH1].
Qed.

Lemma truthy_id_true (i : id_value) :
  truthy_id i = true ↔ i ≠ IdNum 0 ∧ i ≠ IdStr [].
Proof.
  destruct i as [s|n]; cbn.
  - rewrite truthy_str_true. split; [intros ?; split; congruence|].
    intros [_ H] ->. done.
  - rewrite negb_true_iff, Z.eqb_neq. split; [intros ?; split; congruence|].
    intros [H _] ->. done.
Qed.

Lemma createId_identifier item uuids i :
  Raw.id item = Some i → truthy_id i = true →
  createId item uuids = (String_id i, uuids).
Proof.
  intros Hi Ht. unfold createId.
  by rewrite (proj2 (when_truthy_Some truthy_id _ i) (conj Hi Ht)).
Qed.

Lemma createId_url item uuids u :
  ¬ has_identifier item → Raw.url item = Some u → u ≠ [] →
  createId item uuids = (toString_base64 (Buffer_from u), uuids).
Proof.
  intros Hno%no_identifier Hu Hne%truthy_str_true. unfold createId.
  by rewrite Hno, (proj2 (when_truthy_Some truthy_str _ u) (conj Hu Hne)).
Qed.

Lemma createId_random item uuids :
  ¬ has_identifier item → ¬ has_url item → createId item uuids = draw uuids.
Proof.
  intros Hno%no_identifier Hnu%no_url. unfold createId. by rewrite Hno, Hnu.
Qed.

(** Two texts that differ in an unpaired surrogate have the same UTF-8
    bytes, hence the same base64 text. *)
Example base64_lone_surrogates :
  toString_base64 (Buffer_from [55296%N]) = toString_base64 (Buffer_from [55297%N]).
Proof. reflexivity. Qed.

(** C7, the identifier rule as the specification gives it, refuted: a raw
    identifier 0 is present but fails the test of the code, so the listing
    with identifier 0 and URL "https://x/1" gets the base64 text of the URL,
    not "0"; and the listing with identifier 0 and no URL gets a random
    identifier, which two normalisations draw differently. *)
Lemma identifier_spec_fails :
  (let item := bare (Some (IdNum 0)) (Some (u16 "https://x/1")) in
   ¬ identifier_spec item (transformListing item (λ _, [])).1)
  ∧ ¬ stable_id_spec (bare (Some (IdNum 0)) None).
Proof.
  split.
  - intros item H. specialize (H (IdNum 0) eq_refl).
    vm_compute in H. discriminate H.
  - intros H.
    specialize (H (or_introl (ex_intro _ _ eq_refl)) (λ _, u16 "a") (λ _, u16 "b")).
    vm_compute in H. discriminate H.
Qed.

(** C7, amended: the canonical identifier is the raw identifier,
    stringified, whenever the raw identifier is present and is neither 0 nor
    the empty string; else the base64 text of the UTF-8 bytes of the URL
    when the URL is present and not empty, from which a well-formed URL is
    recovered; else a freshly drawn random identifier. So normalising the
    same raw record twice, with such an identifier or such a URL, gives the
    same canonical identifier. *)
Theorem canonical_identifier (item : Raw.t) (uuids : supply) :
  let x := (transformListing item uuids).1 in
  (∀ i, Raw.id item = Some i → i ≠ IdNum 0 → i ≠ IdStr [] →
     Item.id x = String_id i)
  ∧ (¬ has_identifier item → ∀ u, Raw.url item = Some u → u ≠ [] →
       Item.id x = toString_base64 (Buffer_from u)
       ∧ (well_formed u = true → decode_utf8 (from_base64 (Item.id x)) = u))
  ∧ (¬ has_identifier item → ¬ has_url item → Item.id x = uuids 0%nat)
  ∧ (has_identifier item ∨ has_url item →
       ∀ uuids' : supply, Item.id (transformListing item uuids').1 = Item.id x).
Proof.
  intros x. subst x. rewrite transformListing_id. split_and!.
  - intros i Hi H0 He. by rewrite (createId_identifier _ _ i) by
      (done || by apply truthy_id_true).
  - intros Hno u Hu Hne. rewrite (createId_url _ _ u) by done. split; [done|].
    intros Hwf. cbn [fst].
    by rewrite from_base64_toString, decode_utf8_Buffer_from
      by (done || by apply Buffer_from_bytes).
  - intros Hno Hnu. by rewrite createId_random.
  - intros Hhas uuids'. rewrite transformListing_id.
    destruct (decide (when_truthy truthy_id (Raw.id item) = None)) as [Hno|Hid].
    + apply no_identifier in Hno. destruct Hhas as [?|(u & Hu & Hne)]; [done|].
      by rewrite !(createId_url _ _ u).
    + destruct (when_truthy truthy_id (Raw.id item)) as [i|] eqn:Hi; [|done].
      apply when_truthy_Some in Hi as [Hi Ht].
      by rewrite !(createId_identifier _ _ i).
Qed.

(** The identifier 42 is kept, printed; the URL is not consulted. *)
Lemma canonical_identifier_witness :
  Item.id (transformListing
             (bare (Some (IdNum 42)) (Some (u16 "https://x/1"))) (λ _, [])).1
  = u16 "42".
Proof.
  apply (canonical_identifier
           (bare (Some (IdNum 42)) (Some (u16 "https://x/1"))) (λ _, []))
    with (i := IdNum 42); [reflexivity | discriminate | discriminate].
Defined.

(** ** Filtering *)

Lemma truthy_num_true (n : number) :
  truthy_num n = true ↔ ∃ q, n = Num q ∧ q ≠ 0%Qc.
Proof.
  destruct n as [q|]; cbn.
  - rewrite negb_true_iff, bool_decide_eq_false. split; [by eauto|].
    by intros (? & [= <-] & ?).
  - split; [done | by intros (? & ? & _)].
Qed.

Lemma num_lt_true (a b : number) :
  num_lt a b = true ↔ ∃ x y, a = Num x ∧ b = Num y ∧ (x < y)%Qc.
Proof.
  destruct a as [x|], b as [y|]; cbn;
    try (split; [done | by intros (? & ? & ? & ? & _)]).
  rewrite bool_decide_eq_true. split; [by eauto|].
  by intros (? & ? & [= <-] & [= <-] & ?).
Qed.

Lemma positive_truthy (n : number) :
  num_lt (Num 0%Qc) n = true → truthy_num n = true.
Proof.
  intros (x & y & [= <-] & -> & Hlt)%num_lt_true. apply truthy_num_true.
  exists y. split; [done|]. intros ->. by apply Qclt_not_eq in Hlt.
Qed.

Lemma above_positive_truthy (limit v : number) :
  num_lt (Num 0%Qc) limit = true → num_lt limit v = true → truthy_num v = true.
Proof.
  intros (? & l & [= <-] & -> & H0)%num_lt_true
         (? & y & [= <-] & -> & Hlt)%num_lt_true.
  apply positive_truthy, num_lt_true. exists 0%Qc, y.
  split_and!; [done..|]. by trans l.
Qed.

Lemma nonzero_below_truthy (n least : number) :
  n ≠ Num 0%Qc → num_lt n least = true → truthy_num n = true.
Proof.
  intros Hn (x & y & -> & -> & _)%num_lt_true. apply truthy_num_true.
  exists x. split; [done|]. intros ->. done.
Qed.

Lemma price_rule (limit v : option number) :
  positive_if_supplied limit →
  truthy limit && truthy v && js_gt v limit = true ↔
  ∃ l x, limit = Some l ∧ v = Some x ∧ num_gt x l = true.
Proof.
  intros Hpos. rewrite !andb_true_iff. split.
  - intros [[Hl Hv] Hgt]. destruct limit as [l|], v as [x|]; try done.
    by exists l, x.
  - intros (l & x & -> & -> & Hgt). specialize (Hpos l eq_refl).
    split_and!; cbn; [by apply positive_truthy| |done].
    by apply (above_positive_truthy l).
Qed.

Lemma rooms_rule (least n : option number) :
  positive_if_supplied least →
  truthy least && truthy n && js_lt n least = true ↔
  ∃ l x, least = Some l ∧ n = Some x ∧ x ≠ Num 0%Qc ∧ num_lt x l = true.
Proof.
  intros Hpos. rewrite !andb_true_iff. split.
  - intros [[Hl Hn] Hlt]. destruct least as [l|], n as [x|]; try done.
    exists l, x. split_and!; try done.
    intros ->. cbn in Hn. by rewrite bool_decide_eq_true_2 in Hn.
  - intros (l & x & -> & -> & Hx & Hlt). specialize (Hpos l eq_refl).
    split_and!; cbn; [by apply positive_truthy| |done].
    by apply (nonzero_below_truthy x l).
Qed.

(** When the callback of the filter drops a listing. *)
Lemma keep_item_false (params : Params.t) (x : Item.t) :
  normalized params → keep_item params x = false ↔ rejected params x.
Proof.
  intros [Hprice Hrooms]. unfold rejected.
  rewrite <- (price_rule _ _ Hprice), <- (rooms_rule _ _ Hrooms).
  unfold keep_item.
  destruct (truthy (Params.priceM2Max params) && _ && _);
    [by split; [left|]|].
  destruct (truthy (Params.roomsFrom params) && _ && _);
    [by split; [right|]|].
  split; [done | by intros [|]].
Qed.

Lemma filter_items_cons (params : Params.t) (x : Item.t) (l : list Item.t) :
  filter_items params (x :: l) =
  if keep_item params x then x :: filter_items params l else filter_items params l.
Proof.
  unfold filter_items. rewrite filter_cons.
  destruct (keep_item params x); by case_decide.
Qed.

(** C3, the rule as the specification gives it, refuted: asked for at least
    3 rooms, a listing known to have 0 rooms is kept, because the code takes
    a room count of zero for an unknown one. *)
Lemma filter_spec_fails :
  ¬ filter_spec (rooms_from 3) [plain (u16 "a") (Some (of_Z 0)) None].
Proof.
  intros H.
  destruct (H (plain (u16 "a") (Some (of_Z 0)) None)) as [Hin _].
  destruct Hin as [_ Hnot].
  - rewrite filter_items_cons.
    replace (keep_item _ _) with true by (vm_compute; reflexivity).
    apply list_elem_of_here.
  - apply Hnot. right. exists (of_Z 3), (of_Z 0).
    split_and!; reflexivity.
Qed.

(** C3, amended: for a normalized parameter set the filter returns exactly
    the order-preserving subsequence of the listings that are not rejected,
    a listing being rejected if and only if priceM2Max is supplied, its
    price per square metre is known and exceeds priceM2Max, or roomsFrom is
    supplied, its room count is known, is not zero, and is below roomsFrom.
    An absent constraint is a no-op; an absent field never rejects. *)
Theorem filter_engine (params : Params.t) (items : list Item.t) :
  normalized params →
  sublist (filter_items params items) items
  ∧ (∀ x, x ∈ filter_items params items ↔ x ∈ items ∧ ¬ rejected params x)
  ∧ (∀ x l, ¬ rejected params x →
       filter_items params (x :: l) = x :: filter_items params l)
  ∧ (∀ x l, rejected params x →
       filter_items params (x :: l) = filter_items params l)
  ∧ (Params.priceM2Max params = None → Params.roomsFrom params = None →
       filter_items params items = items)
  ∧ (∀ x, Derived.pricePerM2 (Item.derived x) = None → Item.rooms x = None →
       ¬ rejected params x).
Proof.
  intros Hnorm.
  assert (Hkeep : ∀ x, keep_item params x = true ↔ ¬ rejected params x).
  { intros x. rewrite <- (keep_item_false _ _ Hnorm).
    by destruct (keep_item params x). }
  split_and!.
  - apply sublist_filter.
  - intros x. unfold filter_items. rewrite list_elem_of_filter, Hkeep. tauto.
  - intros x l Hx%Hkeep. by rewrite filter_items_cons, Hx.
  - intros x l Hx%keep_item_false; [|done]. by rewrite filter_items_cons, Hx.
  - intros Hp Hr. induction items as [|x l IH]; [done|].
    rewrite filter_items_cons, IH. unfold keep_item. by rewrite Hp, Hr.
  - intros x Hp Hr [(? & ? & _ & Hv & _)|(? & ? & _ & Hn & _)]; congruence.
Qed.

(** At least 3 rooms asked: a listing with 2 rooms goes, a listing whose
    rooms are unknown stays. *)
Lemma filter_engine_witness :
  normalized (rooms_from 3)
  ∧ filter_items (rooms_from 3)
      [plain (u16 "a") (Some (of_Z 2)) None; plain (u16 "b") None None]
    = [plain (u16 "b") None None].
Proof.
  assert (Hnorm : normalized (rooms_from 3)).
  { split; intros n [= <-]. vm_compute. reflexivity. }
  split; [exact Hnorm|].
  destruct (filter_engine (rooms_from 3) [plain (u16 "b") None None] Hnorm)
    as (_ & _ & Hkeep & Hdrop & _ & Habsent).
  rewrite Hdrop.
  - rewrite Hkeep by (by apply Habsent). reflexivity.
  - right. exists (of_Z 3), (of_Z 2). split_and!; try reflexivity.
    vm_compute. discriminate.
Defined.

(** ** Deduplication *)

Lemma Map_has_true {V} (m : list (str * V)) k : Map_has m k = true ↔ k ∈ m.*1.
Proof. unfold Map_has. by rewrite bool_decide_eq_true. Qed.

Lemma Map_has_false {V} (m : list (str * V)) k : Map_has m k = false ↔ k ∉ m.*1.
Proof. unfold Map_has. by rewrite bool_decide_eq_false. Qed.

(** Setting a key the map does not hold appends the entry. *)
Lemma Map_set_fresh {V} (m : list (str * V)) k v :
  k ∉ m.*1 → Map_set m k v = m ++ [(k, v)].
Proof.
  induction m as [|[k' v'] m IH]; [done|]. cbn.
  intros [Hne Hnotin]%not_elem_of_cons. rewrite bool_decide_eq_false_2 by done.
  by rewrite IH.
Qed.

Lemma dedup_step_add_entry m rnd item :
  dedup_step (m, rnd) item =
  (add_entry m ((dedup_key item rnd).1, item), (dedup_key item rnd).2).
Proof.
  unfold dedup_step, add_entry. cbn [fst snd].
  destruct (dedup_key item rnd) as [key rnd'] eqn:Hkey. cbn [fst snd].
  destruct (Map_has m key) eqn:Hhas; [done|].
  by rewrite Map_set_fresh by (by apply Map_has_false).
Qed.

Lemma dedup_fold_keyed listings m rnd :
  (fold_left dedup_step listings (m, rnd)).1 =
  fold_left add_entry (keyed listings rnd) m.
Proof.
  revert m rnd. induction listings as [|item rest IH]; intros m rnd; [done|].
  cbn [fold_left keyed]. rewrite dedup_step_add_entry, IH.
  by destruct (dedup_key item rnd).
Qed.

Lemma keyed_values listings rnd : (keyed listings rnd).*2 = listings.
Proof.
  revert rnd. induction listings as [|item rest IH]; intros rnd; [done|].
  cbn. destruct (dedup_key item rnd) as [key rnd']. cbn. by rewrite IH.
Qed.

Lemma add_entry_NoDup m kv : NoDup m.*1 → NoDup (add_entry m kv).*1.
Proof.
  intros Hm. unfold add_entry. destruct (Map_has m kv.1) eqn:Hhas; [done|].
  apply Map_has_false in Hhas. rewrite fmap_app. apply NoDup_app.
  split_and!; [done| |by apply NoDup_singleton].
  intros k Hk ->%list_elem_of_singleton. done.
Qed.

Lemma first_seen_NoDup kvs m :
  NoDup m.*1 → NoDup (fold_left add_entry kvs m).*1.
Proof.
  revert m. induction kvs as [|kv rest IH]; intros m Hm; [done|].
  cbn. by apply IH, add_entry_NoDup.
Qed.

Lemma first_seen_extends kvs m :
  ∃ r, fold_left add_entry kvs m = m ++ r ∧ sublist r kvs.
Proof.
  revert m. induction kvs as [|kv rest IH]; intros m.
  - exists []. by rewrite app_nil_r.
  - cbn. destruct (IH (add_entry m kv)) as (r & -> & Hsub).
    unfold add_entry. destruct (Map_has m kv.1).
    + exists r. split; [done|]. by apply sublist_cons.
    + exists (kv :: r). rewrite <- app_assoc. split; [done|].
      by apply sublist_skip.
Qed.

Lemma first_seen_covers kvs m k :
  k ∈ m.*1 ∨ k ∈ kvs.*1 → k ∈ (fold_left add_entry kvs m).*1.
Proof.
  revert m. induction kvs as [|kv rest IH]; intros m.
  - by intros [?|?%elem_of_nil].
  - cbn. intros Hk. apply IH. unfold add_entry.
    destruct (Map_has m kv.1) eqn:Hhas.
    + apply Map_has_true in Hhas.
      destruct Hk as [?|[->|?]%elem_of_cons]; auto.
    + rewrite fmap_app, elem_of_app. cbn.
      destruct Hk as [?|[->|?]%elem_of_cons]; auto.
      left. right. apply list_elem_of_here.
Qed.

Lemma first_seen_first kvs m k v :
  (k, v) ∈ fold_left add_entry kvs m →
  (k, v) ∈ m
  ∨ ((k ∉ m.*1) ∧ ∃ pre post, kvs = pre ++ (k, v) :: post ∧ (k ∉ pre.*1)).
Proof.
  revert m. induction kvs as [|[k0 v0] rest IH]; intros m; [by left|].
  cbn [fold_left]. intros Hin. apply IH in Hin. unfold add_entry in Hin.
  cbn [fst] in Hin. destruct (Map_has m k0) eqn:Hhas.
  - apply Map_has_true in Hhas.
    destruct Hin as [?|(Hk & pre & post & -> & Hpre)]; [by left|].
    right. split; [done|]. exists ((k0, v0) :: pre), post. split; [done|].
    cbn. apply not_elem_of_cons. split; [|done]. by intros ->.
  - apply Map_has_false in Hhas.
    destruct Hin as [[?|Hlast]%elem_of_app|(Hk & pre & post & -> & Hpre)].
    + by left.
    + apply list_elem_of_singleton in Hlast as [= -> ->]. right.
      split; [done|]. exists [], rest. split; [done|]. apply not_elem_of_nil.
    + rewrite fmap_app, not_elem_of_app in Hk. destruct Hk as [Hk Hk0].
      right. split; [done|]. exists ((k0, v0) :: pre), post. split; [done|].
      cbn. apply not_elem_of_cons. split; [|done].
      intros ->. apply Hk0. apply list_elem_of_here.
Qed.

(** A key the map holds stays in it. *)
Lemma dedup_keys_kept listings acc k :
  k ∈ (acc.1).*1 → k ∈ ((fold_left dedup_step listings acc).1).*1.
Proof.
  destruct acc as [m rnd]. rewrite dedup_fold_keyed. intros Hk.
  apply first_seen_covers. by left.
Qed.

(** After the loop has met a listing with a URL, the map holds that URL. *)
Lemma dedup_url_seen listings acc a u :
  a ∈ listings → Raw.url a = Some u →
  u ∈ ((fold_left dedup_step listings acc).1).*1.
Proof.
  revert acc. induction listings as [|x rest IH]; intros acc Hin Hu.
  - by apply elem_of_nil in Hin.
  - cbn [fold_left]. apply elem_of_cons in Hin as [<-|Hin]; [|by apply IH].
    apply dedup_keys_kept. destruct acc as [m rnd].
    rewrite dedup_step_add_entry. unfold dedup_key. rewrite Hu. cbn [fst].
    unfold add_entry. cbn [fst]. destruct (Map_has m u) eqn:Hhas.
    + by apply Map_has_true.
    + rewrite fmap_app, elem_of_app. right. apply list_elem_of_here.
Qed.

(** A listing whose URL the map already holds leaves the loop state as it
    was. *)
Lemma dedup_step_seen acc b u :
  Raw.url b = Some u → u ∈ (acc.1).*1 → dedup_step acc b = acc.
Proof.
  destruct acc as [m rnd]. intros Hu Hin. rewrite dedup_step_add_entry.
  unfold dedup_key. rewrite Hu. cbn [fst snd]. unfold add_entry. cbn [fst].
  by rewrite (proj2 (Map_has_true m u) Hin).
Qed.

Lemma deduplicate_second_url l1 a l2 b l3 u rnd :
  Raw.url a = Some u → Raw.url b = Some u →
  deduplicate (l1 ++ a :: l2 ++ b :: l3) rnd = deduplicate (l1 ++ a :: l2 ++ l3) rnd.
Proof.
  intros Ha Hb. unfold deduplicate, dedup_map.
  replace (l1 ++ a :: l2 ++ b :: l3) with ((l1 ++ a :: l2) ++ b :: l3)
    by (by rewrite <- app_assoc).
  replace (l1 ++ a :: l2 ++ l3) with ((l1 ++ a :: l2) ++ l3)
    by (by rewrite <- app_assoc).
  rewrite (fold_left_app _ (l1 ++ a :: l2) (b :: l3)).
  rewrite (fold_left_app _ (l1 ++ a :: l2) l3). cbn [fold_left].
  rewrite (dedup_step_seen _ b u); [done..|].
  apply (dedup_url_seen _ _ a); [|done].
  rewrite elem_of_app. right. apply list_elem_of_here.
Qed.

Lemma dedup_key_eq (item : Raw.t) (σ : supply) :
  dedup_key item σ =
  match Raw.url item, Raw.id item with
  | Some u, _ => (u, σ)
  | None, Some i => (String_id i, σ)
  | None, None => (σ 0%nat, λ n, σ (S n))
  end.
Proof. unfold dedup_key. by destruct (Raw.url item), (Raw.id item). Qed.

Lemma drawn_before_cons (item : Raw.t) (rest : list Raw.t) (j : nat) :
  drawn_before (item :: rest) (S j) =
  if anonymous item then S (drawn_before rest j) else drawn_before rest j.
Proof.
  unfold drawn_before. cbn [take]. rewrite filter_cons.
  destruct (anonymous item); by destruct (decide _).
Qed.

(** The key of every listing in terms of the supply: a listing that draws
    takes the draw that follows those of the listings before it. *)
Lemma keyed_lookup (listings : list Raw.t) (rnd : supply) (j : nat) (item : Raw.t) :
  listings !! j = Some item →
  keyed listings rnd !! j
  = Some (identity_key item (rnd (drawn_before listings j)), item).
Proof.
  revert rnd j. induction listings as [|a rest IH]; intros rnd j Hj; [done|].
  cbn [keyed]. rewrite dedup_key_eq. destruct j as [|j].
  - injection Hj as ->. unfold identity_key.
    by destruct (Raw.url item), (Raw.id item).
  - cbn in Hj. rewrite drawn_before_cons. unfold anonymous.
    destruct (Raw.url a), (Raw.id a); cbn [lookup list_lookup]; by rewrite (IH _ j).
Qed.

Lemma keyed_identity_keys (listings : list Raw.t) (rnd : supply) :
  (keyed listings rnd).*1 = identity_keys listings rnd.
Proof.
  apply list_eq. intros j. unfold identity_keys.
  rewrite list_lookup_fmap, list_lookup_imap.
  destruct (listings !! j) as [item|] eqn:Hj.
  - by rewrite (keyed_lookup _ _ _ _ Hj).
  - assert (Hnone : keyed listings rnd !! j = None); [|by rewrite Hnone].
    apply lookup_ge_None. apply lookup_ge_None in Hj.
    by rewrite <- (length_fmap snd), keyed_values.
Qed.

(** A listing whose key is that of no listing before it is kept. *)
Lemma fresh_key_kept (listings : list Raw.t) (rnd : supply) (j : nat) (item : Raw.t) :
  listings !! j = Some item →
  (∀ i, (i < j)%nat → identity_keys listings rnd !! i ≠ identity_keys listings rnd !! j) →
  item ∈ deduplicate listings rnd.
Proof.
  intros Hj Hfresh.
  pose proof (keyed_lookup listings rnd j item Hj) as Hkj.
  set (kj := identity_key item (rnd (drawn_before listings j))) in *.
  assert (Hkeys : ∀ i k v, keyed listings rnd !! i = Some (k, v) →
                    identity_keys listings rnd !! i = Some k).
  { intros i k v Hi. by rewrite <- keyed_identity_keys, list_lookup_fmap, Hi. }
  unfold deduplicate, dedup_map, Map_values. rewrite dedup_fold_keyed.
  assert (Hin : kj ∈ (fold_left add_entry (keyed listings rnd) []).*1).
  { apply first_seen_covers. right. apply list_elem_of_fmap.
    exists (kj, item). split; [done|]. by eapply list_elem_of_lookup_2. }
  apply list_elem_of_fmap in Hin as ([k v] & Hk & Hin). cbn in Hk. subst k.
  apply list_elem_of_fmap. exists (kj, v). split; [|done]. cbn.
  apply first_seen_first in Hin as [?%elem_of_nil|(_ & pre & post & Hsplit & Hpre)];
    [done|].
  rewrite Hsplit in Hkj. rewrite Hsplit in Hkeys.
  destruct (lt_eq_lt_dec (length pre) j) as [[Hlt|Heq]|Hgt].
  - exfalso. apply (Hfresh (length pre) Hlt).
    rewrite (Hkeys (length pre) kj v), (Hkeys j kj item); [done|done|].
    by rewrite list_lookup_middle.
  - rewrite list_lookup_middle in Hkj by done. by injection Hkj as <-.
  - exfalso. apply Hpre. rewrite lookup_app_l in Hkj by done.
    apply list_elem_of_fmap. exists (kj, item). split; [done|].
    by eapply list_elem_of_lookup_2.
Qed.

(** C4: the deduplicated sequence is no longer than the input; the
    identity key of a listing is its URL if present, else its stringified
    identifier, else a random draw, which is taken from the supply so that
    the next listing without URL and identifier draws afresh; the map the
    result is read from holds each identity key once; its entries are
    listings of the input in their input order, one for every identity key
    met, and each is the first listing of the input with its key. Of two
    listings with the same URL the second never adds an entry, and of a
    sequence made of two such listings only the first remains. The keys are
    those of [identity_keys], and a listing whose key is that of no listing
    before it is kept: so is every listing without URL and identifier whose
    draw differs from the keys before it. *)
Theorem deduplicate_first_seen (listings : list Raw.t) (rnd : supply) :
  let entries := (dedup_map listings rnd).1 in
  deduplicate listings rnd = entries.*2
  ∧ (length (deduplicate listings rnd) ≤ length listings)%nat
  ∧ (∀ item (σ : supply),
       dedup_key item σ =
       match Raw.url item, Raw.id item with
       | Some u, _ => (u, σ)
       | None, Some i => (String_id i, σ)
       | None, None => (σ 0%nat, λ n, σ (S n))
       end)
  ∧ NoDup entries.*1
  ∧ sublist entries (keyed listings rnd)
  ∧ sublist (deduplicate listings rnd) listings
  ∧ (∀ k, k ∈ (keyed listings rnd).*1 → k ∈ entries.*1)
  ∧ (∀ k v, (k, v) ∈ entries →
       ∃ pre post, keyed listings rnd = pre ++ (k, v) :: post ∧ (k ∉ pre.*1))
  ∧ (∀ a b u, listings = [a; b] → Raw.url a = Some u → Raw.url b = Some u →
       deduplicate listings rnd = [a])
  ∧ (∀ l1 a l2 b l3 u,
       listings = l1 ++ a :: l2 ++ b :: l3 →
       Raw.url a = Some u → Raw.url b = Some u →
       deduplicate listings rnd = deduplicate (l1 ++ a :: l2 ++ l3) rnd)
  ∧ (keyed listings rnd).*1 = identity_keys listings rnd
  ∧ (keyed listings rnd).*2 = listings
  ∧ (∀ j item, listings !! j = Some item →
       (∀ i, (i < j)%nat →
          identity_keys listings rnd !! i ≠ identity_keys listings rnd !! j) →
       item ∈ deduplicate listings rnd)
  ∧ (∀ j item, listings !! j = Some item → anonymous item = true →
       (∀ i, (i < j)%nat →
          identity_keys listings rnd !! i
          ≠ Some (rnd (drawn_before listings j))) →
       item ∈ deduplicate listings rnd).
Proof.
  intros entries.
  assert (Hentries : entries = fold_left add_entry (keyed listings rnd) [])
    by apply dedup_fold_keyed.
  destruct (first_seen_extends (keyed listings rnd) []) as (r & Hr & Hsub).
  rewrite <- Hentries in Hr. cbn in Hr. subst r.
  assert (Hvalues : sublist (entries.*2) ((keyed listings rnd).*2))
    by (by apply fmap_sublist).
  rewrite keyed_values in Hvalues.
  split_and!.
  - done.
  - by apply sublist_length.
  - apply dedup_key_eq.
  - rewrite Hentries. apply first_seen_NoDup, NoDup_nil_2.
  - done.
  - done.
  - intros k Hk. rewrite Hentries. apply first_seen_covers. by right.
  - intros k v Hin. rewrite Hentries in Hin.
    apply first_seen_first in Hin as [?%elem_of_nil|[_ ?]]; done.
  - intros a b u -> Ha Hb.
    rewrite (deduplicate_second_url [] a [] b [] u) by done.
    unfold deduplicate, dedup_map. cbn [app fold_left].
    rewrite dedup_step_add_entry. unfold dedup_key. by rewrite Ha.
  - intros l1 a l2 b l3 u -> Ha Hb. by apply (deduplicate_second_url _ _ _ _ _ u).
  - apply keyed_identity_keys.
  - apply keyed_values.
  - apply fresh_key_kept.
  - intros j item Hj Hanon Hfresh. apply (fresh_key_kept _ _ j); [done|].
    intros i Hi. unfold identity_keys at 2. rewrite list_lookup_imap, Hj.
    cbn. unfold identity_key, anonymous in *.
    destruct (Raw.url item), (Raw.id item); try done. by apply Hfresh.
Qed.

(** The scenario of the specification: of two listings with the URL
    "https://x/1" and different titles, the first remains. *)
Lemma deduplicate_first_seen_witness :
  deduplicate [titled (u16 "https://x/1") (u16 "A");
               titled (u16 "https://x/1") (u16 "B")] (λ _, [])
  = [titled (u16 "https://x/1") (u16 "A")].
Proof.
  destruct (deduplicate_first_seen
              [titled (u16 "https://x/1") (u16 "A");
               titled (u16 "https://x/1") (u16 "B")] (λ _, []))
    as (_ & _ & _ & _ & _ & _ & _ & _ & Htwo & _).
  by apply (Htwo (titled (u16 "https://x/1") (u16 "A"))
                 (titled (u16 "https://x/1") (u16 "B")) (u16 "https://x/1")).
Defined.

(** Three listings without URL and identifier, drawing 0.1, 0.2 and 0.3:
    every one has a key of its own and all three remain; were the second
    draw 0.1 again, the second listing would go. *)
Lemma anonymous_listings_kept :
  deduplicate [bare None None; bare None None; bare None None]
    (λ n, nth n [u16 "0.1"; u16 "0.2"; u16 "0.3"] [])
  = [bare None None; bare None None; bare None None]
  ∧ deduplicate [bare None None; bare None None; bare None None]
      (λ n, nth n [u16 "0.1"; u16 "0.1"; u16 "0.3"] [])
    = [bare None None; bare None None].
Proof. split; vm_compute; reflexivity. Qed.

(** ** Merging the scores *)

Lemma score_map_snoc scores s :
  score_map (scores ++ [s]) = <[Score.id s := s]> (score_map scores).
Proof. unfold score_map. by rewrite fold_left_app. Qed.

Lemma score_map_Some scores k s :
  score_map scores !! k = Some s → s ∈ scores ∧ Score.id s = k.
Proof.
  induction scores as [|s0 scores IH] using rev_ind; [done|].
  rewrite score_map_snoc, elem_of_app, list_elem_of_singleton.
  destruct (decide (Score.id s0 = k)) as [<-|Hne].
  - rewrite lookup_insert_eq. intros [= ->]. auto.
  - rewrite lookup_insert_ne by done. intros [? ?]%IH. auto.
Qed.

Lemma score_map_None scores k :
  score_map scores !! k = None ↔ ∀ s, s ∈ scores → Score.id s ≠ k.
Proof.
  induction scores as [|s0 scores IH] using rev_ind.
  - split; [by intros _ s ?%elem_of_nil | done].
  - rewrite score_map_snoc, lookup_insert_None, IH. split.
    + intros [Hall Hne] s [?|Hs%list_elem_of_singleton]%elem_of_app;
        [|subst s]; auto.
    + intros Hall. split.
      * intros s Hs. apply Hall, elem_of_app. by left.
      * apply Hall, elem_of_app. right. apply list_elem_of_here.
Qed.

(** The map holds, for an identifier, the last result that carries it. *)
Lemma score_map_last l1 s l2 :
  (∀ s', s' ∈ l2 → Score.id s' ≠ Score.id s) →
  score_map (l1 ++ s :: l2) !! Score.id s = Some s.
Proof.
  induction l2 as [|s0 l2 IH] using rev_ind; intros Hlater.
  - by rewrite score_map_snoc, lookup_insert_eq.
  - replace (l1 ++ s :: l2 ++ [s0]) with ((l1 ++ s :: l2) ++ [s0])
      by (by rewrite <- app_assoc).
    rewrite score_map_snoc, lookup_insert_ne.
    + apply IH. intros s' Hs'. apply Hlater, elem_of_app. by left.
    + apply Hlater, elem_of_app. right. apply list_elem_of_here.
Qed.

Lemma mergeScores_lookup items scores i item :
  items !! i = Some item →
  mergeScores items scores !! i =
  Some match score_map scores !! Item.id item with
       | None => item
       | Some score => with_score item score
       end.
Proof.
  intros Hi. unfold mergeScores. by rewrite list_lookup_fmap, Hi.
Qed.

(** C5: the merged sequence has the length and the order of the listings;
    a listing whose identifier is that of some score result comes out with
    its three score fields taken from such a result and every other field
    as it was; a listing whose identifier no result carries comes out as it
    went in, so without score fields when it had none, as is the case of
    every listing the normaliser produces. *)
Theorem mergeScores_preserves (items : list Item.t) (scores : list Score.t) :
  length (mergeScores items scores) = length items
  ∧ (∀ i item, items !! i = Some item →
       (∃ s, s ∈ scores ∧ Score.id s = Item.id item) →
       ∃ s, s ∈ scores ∧ Score.id s = Item.id item
            ∧ mergeScores items scores !! i = Some (with_score item s))
  ∧ (∀ i item, items !! i = Some item →
       (∀ s, s ∈ scores → Score.id s ≠ Item.id item) →
       mergeScores items scores !! i = Some item)
  ∧ (∀ item s,
       Item.aiScore (with_score item s) = Score.aiScore s
       ∧ Item.aiReason (with_score item s) = Score.aiReason s
       ∧ Item.aiHighlights (with_score item s) = Score.aiHighlights s
       ∧ Item.id (with_score item s) = Item.id item
       ∧ Item.title (with_score item s) = Item.title item
       ∧ Item.url (with_score item s) = Item.url item
       ∧ Item.location (with_score item s) = Item.location item
       ∧ Item.price (with_score item s) = Item.price item
       ∧ Item.sizeM2 (with_score item s) = Item.sizeM2 item
       ∧ Item.rooms (with_score item s) = Item.rooms item
       ∧ Item.images (with_score item s) = Item.images item
       ∧ Item.description (with_score item s) = Item.description item
       ∧ Item.raw (with_score item s) = Item.raw item
       ∧ Item.derived (with_score item s) = Item.derived item)
  ∧ (∀ raw uuids,
       let item := (transformListing raw uuids).1 in
       Item.aiScore item = None ∧ Item.aiReason item = None
       ∧ Item.aiHighlights item = None).
Proof.
  split_and!.
  - unfold mergeScores. apply length_fmap.
  - intros i item Hi (s0 & Hs0 & Hid).
    rewrite (mergeScores_lookup _ _ _ _ Hi).
    destruct (score_map scores !! Item.id item) as [s|] eqn:Hs.
    + apply score_map_Some in Hs as [? ?]. by exists s.
    + rewrite score_map_None in Hs. by destruct (Hs s0 Hs0).
  - intros i item Hi Hnone. rewrite (mergeScores_lookup _ _ _ _ Hi).
    by rewrite (proj2 (score_map_None _ _) Hnone).
  - done.
  - intros raw uuids. unfold transformListing.
    by destruct (createId raw uuids).
Qed.

(** A result for "b" only: two listings go in, two come out, and the
    listing "a" comes out as it went in. *)
Lemma mergeScores_preserves_witness :
  length (mergeScores [plain (u16 "a") None None; plain (u16 "b") None None]
            [scored (u16 "b") 70]) = 2%nat
  ∧ mergeScores [plain (u16 "a") None None; plain (u16 "b") None None]
      [scored (u16 "b") 70] !! 0%nat
    = Some (plain (u16 "a") None None).
Proof.
  destruct (mergeScores_preserves
              [plain (u16 "a") None None; plain (u16 "b") None None]
              [scored (u16 "b") 70]) as (Hlen & _ & Hnone & _).
  split; [exact Hlen|]. apply Hnone; [reflexivity|].
  intros s ->%list_elem_of_singleton. vm_compute. discriminate.
Defined.

(** C6, the rule as the specification gives it, refuted: of two results
    for the identifier "a", scored 10 and then 20, the listing "a" receives
    the score 20 of the second. *)
Lemma first_wins_spec_fails :
  ¬ first_wins_spec [plain (u16 "a") None None]
      [scored (u16 "a") 10; scored (u16 "a") 20].
Proof.
  intros H.
  specialize (H 0%nat (plain (u16 "a") None None) []
                (scored (u16 "a") 10) [scored (u16 "a") 20]
                eq_refl eq_refl eq_refl).
  assert (Hfirst := H ltac:(by intros ? ?%elem_of_nil)). clear H.
  vm_compute in Hfirst. discriminate Hfirst.
Qed.

(** C6, amended: when several score results carry the identifier of a
    listing, the last of them in the sequence is the one whose score, reason
    and highlights the listing receives. *)
Theorem mergeScores_last_wins (items : list Item.t) (scores l1 l2 : list Score.t)
    (s : Score.t) (i : nat) (item : Item.t) :
  items !! i = Some item →
  scores = l1 ++ s :: l2 →
  Score.id s = Item.id item →
  (∀ s', s' ∈ l2 → Score.id s' ≠ Item.id item) →
  mergeScores items scores !! i = Some (with_score item s).
Proof.
  intros Hi -> Hid Hlater. rewrite (mergeScores_lookup _ _ _ _ Hi), <- Hid.
  rewrite score_map_last; [done|]. by rewrite Hid.
Qed.

(** Results scored 10 and then 20 for the listing "a": it receives 20. *)
Lemma mergeScores_last_wins_witness :
  mergeScores [plain (u16 "a") None None]
    [scored (u16 "a") 10; scored (u16 "a") 20] !! 0%nat
  = Some (with_score (plain (u16 "a") None None) (scored (u16 "a") 20)).
Proof.
  apply (mergeScores_last_wins _ _ [scored (u16 "a") 10] []).
  - reflexivity.
  - reflexivity.
  - reflexivity.
  - intros s' Hs'. by apply elem_of_nil in Hs'.
Defined.

(** ** Scoring *)

Section ScoringProperties.
Context {E : ECMAScript}.

(** When every request is answered, the loop returns one result per item,
    each made from the item and its own reply. *)
Lemma score_loop_returns oracle n items results :
  (∀ j x, items !! j = Some x → ∃ content, oracle (n + j)%nat x = Completion content) →
  score_loop oracle n items results =
  Returns (results
           ++ imap (λ j x, score_of x (content_of (oracle (n + j)%nat x))) items).
Proof.
  revert n results. induction items as [|x rest IH]; intros n results Hans.
  - cbn. by rewrite app_nil_r.
  - cbn [score_loop]. destruct (Hans 0%nat x eq_refl) as [content Hx].
    rewrite Nat.add_0_r in Hx. rewrite Hx, IH.
    + rewrite <- app_assoc. cbn [imap app]. rewrite Nat.add_0_r, Hx. cbn.
      do 3 f_equal. apply imap_ext. intros j y _. cbn.
      by rewrite Nat.add_succ_r.
    + intros j y Hj. replace (S n + j)%nat with (n + S j)%nat by lia.
      by apply (Hans (S j)).
Qed.

Lemma scoreRealEstateItems_returns api_key oracle items :
  is_Some (when_truthy truthy_str api_key) → answered oracle items →
  scoreRealEstateItems api_key oracle items =
  Returns (imap (λ j x, score_of x (content_of (oracle j x))) items).
Proof.
  intros [key Hkey] Hans. unfold scoreRealEstateItems. rewrite Hkey.
  destruct items as [|x rest]; [done|].
  by rewrite score_loop_returns.
Qed.

Lemma score_of_malformed item text :
  JSON_parse text = None → score_of item (Some text) = degraded item.
Proof.
  intros Hparse. unfold score_of, parseScore. cbn [from_option id].
  by rewrite Hparse.
Qed.

(** C8: when the text of the reply for one item is not JSON, the routine
    does not raise; the result of that item is the degraded one (score 0,
    the parse-failure note, no highlights), and the result of every other
    item is the one made from that item and its own reply, the same under
    any oracle that differs on the malformed reply only. *)
Theorem malformed_reply_degrades (api_key : option str)
    (oracle : nat → Item.t → reply) (items : list Item.t)
    (i : nat) (item : Item.t) (text : str) :
  is_Some (when_truthy truthy_str api_key) →
  answered oracle items →
  items !! i = Some item →
  oracle i item = Completion (Some text) →
  JSON_parse text = None →
  ∃ results,
    scoreRealEstateItems api_key oracle items = Returns results
    ∧ length results = length items
    ∧ results !! i = Some (degraded item)
    ∧ (∀ j x content, j ≠ i → items !! j = Some x →
         oracle j x = Completion content →
         results !! j = Some (score_of x content))
    ∧ (∀ oracle', answered oracle' items →
         (∀ j x, j ≠ i → oracle' j x = oracle j x) →
         ∃ results',
           scoreRealEstateItems api_key oracle' items = Returns results'
           ∧ ∀ j, j ≠ i → results' !! j = results !! j).
Proof.
  intros Hkey Hans Hi Hreply Hparse. eexists. split_and!.
  - by apply scoreRealEstateItems_returns.
  - apply length_imap.
  - rewrite list_lookup_imap, Hi. cbn. rewrite Hreply. cbn.
    by rewrite score_of_malformed.
  - intros j x content _ Hj Hx. rewrite list_lookup_imap, Hj. cbn.
    by rewrite Hx.
  - intros oracle' Hans' Hsame. eexists. split.
    + by apply scoreRealEstateItems_returns.
    + intros j Hj. rewrite !list_lookup_imap.
      destruct (items !! j) as [x|]; [|done]. cbn. by rewrite Hsame.
Qed.

(** A score that is a JSON number comes out within 0 and 100. *)
Lemma parseScore_number_clamped text props q :
  JSON_parse text = Some (JObj props) →
  own_property props (u16 "score") = Some (JNum q) →
  within_0_100 (score (parseScore text)).
Proof.
  intros Hparse Hscore. unfold parseScore. rewrite Hparse. cbn [get].
  rewrite Hscore. cbn [score ToNumber Math_max Math_min of_Z].
  eexists. split; [done|].
  repeat case_bool_decide; split;
    try done; try (by apply Qclt_le_weak); try (by apply Qcnot_lt_le).
Qed.

(** A score that cannot be converted to a number, an object with a
    [toString] property of its own, makes [Math.max] throw; the [catch]
    branch then gives the parse-failure result. *)
Lemma unconvertible_score_degrades text props v :
  JSON_parse text = Some (JObj props) →
  own_property props (u16 "score") = Some (JObj [(u16 "toString", v)]) →
  parseScore text = parse_failure.
Proof.
  intros Hparse Hscore. unfold parseScore. rewrite Hparse. cbn [get].
  rewrite Hscore. destruct (own_property props (u16 "reasoning"));
    by destruct (own_property props (u16 "highlights")).
Qed.

(** C9, the code at the failing input: a reply without content is read as
    the text "{}", an object without score, and the clamp of the missing
    score is [NaN], which is not within 0 and 100. *)
Theorem missing_score_is_NaN (api_key : option str)
    (oracle : nat → Item.t → reply) (item : Item.t) :
  is_Some (when_truthy truthy_str api_key) →
  JSON_parse (u16 "{}") = Some (JObj []) →
  oracle 0%nat item = Completion None →
  ∃ result,
    scoreRealEstateItems api_key oracle [item] = Returns [result]
    ∧ Score.aiScore result = Some NaN
    ∧ ¬ within_0_100 NaN.
Proof.
  intros [key Hkey] Hparse Hreply. eexists. split_and!.
  - unfold scoreRealEstateItems. rewrite Hkey. cbn [score_loop].
    rewrite Hreply. done.
  - unfold score_of, parseScore. cbn [from_option id Score.aiScore].
    rewrite Hparse. done.
  - by intros (q & ? & _).
Qed.
End ScoringProperties.

(** Three listings, the second answered with text that is not JSON: three
    results, the second degraded. *)
Lemma malformed_reply_degrades_witness :
  ∃ results,
    @scoreRealEstateItems example_engine (Some (u16 "key")) example_oracle
      [plain (u16 "a") None None; plain (u16 "b") None None;
       plain (u16 "c") None None] = Returns results
    ∧ length results = 3%nat
    ∧ results !! 1%nat = Some (degraded (plain (u16 "b") None None)).
Proof.
  destruct (@malformed_reply_degrades example_engine (Some (u16 "key"))
              example_oracle
              [plain (u16 "a") None None; plain (u16 "b") None None;
               plain (u16 "c") None None]
              1%nat (plain (u16 "b") None None) (u16 "not json"))
    as (results & Hret & Hlen & Hbad & _).
  - eexists. reflexivity.
  - intros j x _. unfold example_oracle. case_bool_decide; eauto.
  - reflexivity.
  - reflexivity.
  - reflexivity.
  - exists results. split_and!; [exact Hret | exact Hlen | exact Hbad].
Defined.

(** A reply without content, under an engine that parses "{}" to the empty
    object: the score is [NaN]. *)
Lemma missing_score_is_NaN_witness :
  ∃ result,
    @scoreRealEstateItems example_engine (Some (u16 "key"))
      (λ _ _, Completion None) [plain (u16 "a") None None] = Returns [result]
    ∧ Score.aiScore result = Some NaN.
Proof.
  destruct (@missing_score_is_NaN example_engine (Some (u16 "key"))
              (λ _ _, Completion None) (plain (u16 "a") None None))
    as (result & Hret & Hscore & _).
  - eexists. reflexivity.
  - reflexivity.
  - reflexivity.
  - exists result. split; [exact Hret | exact Hscore].
Defined.

(** * Further properties *)

Lemma run_Star {A} r s c (k : str → caps → option A) :
  run (Star r) s c k = star_loop r k (length s) s c.
Proof. reflexivity. Qed.

Lemma run_Seq {A} r1 r2 s c (k : str → caps → option A) :
  run (Seq r1 r2) s c k = run r1 s c (λ s1 c1, run r2 s1 c1 k).
Proof. reflexivity. Qed.

Lemma run_Grp {A} i r s c (k : str → caps → option A) :
  run (Grp i r) s c k =
  run r s c (λ s1 c1, k s1 ((i, Some (take (length s - length s1) s)) :: c1)).
Proof. reflexivity. Qed.

Lemma star_loop_S {A} r (k : str → caps → option A) n s c :
  star_loop r k (S n) s c =
  match run r s (clear_groups r c)
          (λ s1 c1, if (length s1 <? length s)%nat
                    then star_loop r k n s1 c1 else None) with
  | Some a => Some a
  | None => k s c
  end.
Proof. reflexivity. Qed.

Lemma cap_app_fresh (l : list nat) (c : caps) i :
  i ∉ l → cap (map (λ j, (j, None)) l ++ c) i = cap c i.
Proof.
  induction l as [|j l IH]; [done|]. intros [Hne Hl]%not_elem_of_cons. cbn.
  destruct (Nat.eqb_spec i j); [done|]. by apply IH.
Qed.

Lemma cap_clear_groups r c i :
  i ∉ groups_of r → cap (clear_groups r c) i = cap c i.
Proof. apply cap_app_fresh. Qed.

Lemma take_app_suffix (w s' : str) :
  take (length (w ++ s') - length s') (w ++ s') = w.
Proof.
  rewrite length_app. replace (length w + length s' - length s')%nat with (length w) by lia.
  by rewrite take_app_length.
Qed.

Ltac fresh_group :=
  cbn; repeat (apply not_elem_of_cons; split; [done|]); apply not_elem_of_nil.

(** Soundness of the backtracking search: a result comes from the
    continuation, called on what is left after a word of the pattern, with
    the captures of other groups as they were. *)
Lemma run_sound {A} r : ∀ s c (k : str → caps → option A) a,
  run r s c k = Some a →
  ∃ w s' c', s = w ++ s' ∧ matches r w
    ∧ (∀ i, i ∉ groups_of r → cap c' i = cap c i)
    ∧ k s' c' = Some a.
Proof.
  induction r as [|p|r1 IH1 r2 IH2|r1 IH1 r2 IH2|r IH|r IH|i r IH];
    intros s c k a Hrun.
  - exists [], s, c. split_and!; [done|constructor|done|done].
  - cbn [run] in Hrun. destruct s as [|x s']; [done|].
    destruct (p x) eqn:Hp; [|done].
    exists [x], s', c. split_and!; [done|by constructor|done|done].
  - cbn [run] in Hrun. apply IH1 in Hrun as (w1 & s1 & c1 & -> & Hm1 & Hc1 & Hrun).
    apply IH2 in Hrun as (w2 & s2 & c2 & -> & Hm2 & Hc2 & Hk).
    exists (w1 ++ w2), s2, c2. split_and!; [apply app_assoc|by constructor| |done].
    intros i Hi. cbn in Hi. rewrite not_elem_of_app in Hi.
    rewrite Hc2, Hc1 by tauto. done.
  - cbn [run] in Hrun. destruct (run r1 s c k) as [a'|] eqn:H1.
    + injection Hrun as ->. apply IH1 in H1 as (w & s' & c' & -> & Hm & Hc & Hk).
      exists w, s', c'. split_and!; [done|by apply matches_alt_l| |done].
      intros i Hi. cbn in Hi. rewrite not_elem_of_app in Hi. apply Hc. tauto.
    + apply IH2 in Hrun as (w & s' & c' & -> & Hm & Hc & Hk).
      exists w, s', c'. split_and!; [done|by apply matches_alt_r| |done].
      intros i Hi. cbn in Hi. rewrite not_elem_of_app in Hi. apply Hc. tauto.
  - cbn [run] in Hrun.
    destruct (run r s (clear_groups r c) _) as [a'|] eqn:H1.
    + injection Hrun as ->. apply IH in H1 as (w & s' & c' & -> & Hm & Hc & Hk).
      cbv beta in Hk.
      destruct (length s' <? length (w ++ s'))%nat; [|done].
      exists w, s', c'. split_and!; [done|by apply matches_opt_some| |done].
      intros i Hi. cbn in Hi. rewrite Hc, cap_clear_groups by done. done.
    + exists [], s, c. split_and!; [done|constructor|done|done].
  - rewrite run_Star in Hrun.
    assert (Hloop : ∀ n s c, star_loop r k n s c = Some a →
      ∃ w s' c', s = w ++ s' ∧ matches (Star r) w
        ∧ (∀ i, i ∉ groups_of r → cap c' i = cap c i) ∧ k s' c' = Some a).
    { clear s c Hrun. induction n as [|n IHn]; intros s c Hloop.
      - exists [], s, c. split_and!; [done|constructor|done|done].
      - rewrite star_loop_S in Hloop.
        destruct (run r s (clear_groups r c) _) as [a'|] eqn:H1.
        + injection Hloop as ->.
          apply IH in H1 as (w1 & s1 & c1 & -> & Hm1 & Hc1 & Hk).
          cbv beta in Hk.
          destruct (Nat.ltb_spec (length s1) (length (w1 ++ s1))) as [Hlt|]; [|done].
          apply IHn in Hk as (w2 & s2 & c2 & -> & Hm2 & Hc2 & Hk).
          exists (w1 ++ w2), s2, c2.
          split_and!; [apply app_assoc| |  |done].
          * constructor; [done| |done]. intros ->. cbn in Hlt. lia.
          * intros i Hi. rewrite Hc2, Hc1, cap_clear_groups by done. done.
        + exists [], s, c. split_and!; [done|constructor|done|done]. }
    by apply Hloop in Hrun.
  - cbn [run] in Hrun. apply IH in Hrun as (w & s' & c' & -> & Hm & Hc & Hk).
    rewrite take_app_suffix in Hk.
    exists w, s', ((i, Some w) :: c'). split_and!; [done|by constructor| |done].
    intros j Hj. cbn in Hj. apply not_elem_of_cons in Hj as [Hne Hj]. cbn.
    destruct (Nat.eqb_spec j i); [done|]. by apply Hc.
Qed.

(** What a group adds: its capture is the word it matched. *)
Lemma run_Grp_sound {A} i r s c (k : str → caps → option A) a :
  run (Grp i r) s c k = Some a →
  ∃ w s' c', s = w ++ s' ∧ matches r w
    ∧ (∀ j, j ∉ groups_of r → cap c' j = cap c j)
    ∧ k s' ((i, Some w) :: c') = Some a.
Proof.
  cbn. intros (w & s' & c' & -> & Hm & Hc & Hk)%run_sound.
  rewrite take_app_suffix in Hk. by exists w, s', c'.
Qed.

(** Completeness: where the continuation accepts what is left after a word
    of the pattern, the search succeeds. *)
Lemma run_complete {A} r w :
  matches r w →
  ∀ s' c (k : str → caps → option A), total_at k s' →
    is_Some (run r (w ++ s') c k)
    ∧ match r with
      | Star r0 => ∀ n, (length (w ++ s') ≤ n)%nat →
                     is_Some (star_loop r0 k n (w ++ s') c)
      | _ => True
      end.
Proof.
  induction 1 as [|p x Hp|r1 r2 w1 w2 _ IH1 _ IH2|r1 r2 w _ IH|r1 r2 w _ IH
                  |r|r w _ IH|r|r w1 w2 _ IH1 Hne _ IH2|i r w _ IH];
    intros s' c k Hk.
  - split; [apply Hk|done].
  - split; [|done]. cbn. rewrite Hp. apply Hk.
  - split; [|done]. cbn [run]. rewrite <- app_assoc. apply IH1.
    intros c1. by apply IH2.
  - split; [|done]. cbn [run]. destruct (IH s' c k Hk) as [[a Ha] _]. by rewrite Ha.
  - split; [|done]. cbn [run]. destruct (run r1 (w ++ s') c k); [done|]. by apply IH.
  - split; [|done]. cbn [run app]. destruct (run r s' _ _); [done|]. apply Hk.
  - split; [|done]. cbn [run]. destruct w as [|x w].
    + cbn [app]. destruct (run r s' _ _); [done|]. apply Hk.
    + destruct (IH s' (clear_groups r c)
        (λ s1 c1, if (length s1 <? length ((x :: w) ++ s'))%nat
                  then k s1 c1 else None)) as [[a Ha] _]; [|by rewrite Ha].
      intros c1. cbv beta.
      destruct (Nat.ltb_spec (length s') (length ((x :: w) ++ s'))) as [|Hge];
        [apply Hk|]. rewrite length_app in Hge. cbn in Hge. lia.
  - assert (Hloop : ∀ n, is_Some (star_loop r k n s' c)).
    { intros [|n]; [apply Hk|]. rewrite star_loop_S.
      destruct (run r s' _ _); [done|]. apply Hk. }
    split; [apply Hloop|]. intros n _. apply Hloop.
  - assert (Hloop : ∀ n, (length ((w1 ++ w2) ++ s') ≤ n)%nat →
                         is_Some (star_loop r k n ((w1 ++ w2) ++ s') c)).
    { intros n Hn. destruct w1 as [|x w1]; [done|].
      destruct n as [|n]; [rewrite !length_app in Hn; cbn in Hn; lia|].
      rewrite star_loop_S, <- app_assoc.
      destruct (IH1 (w2 ++ s') (clear_groups r c)
        (λ s1 c1, if (length s1 <? length ((x :: w1) ++ w2 ++ s'))%nat
                  then star_loop r k n s1 c1 else None)) as [[a Ha] _];
        [|by rewrite Ha].
      intros c1. cbv beta.
      destruct (Nat.ltb_spec (length (w2 ++ s')) (length ((x :: w1) ++ w2 ++ s')))
        as [|Hge]; [|rewrite !length_app in Hge; cbn in Hge; lia].
      apply (IH2 s' c1 k Hk). rewrite <- app_assoc, !length_app in Hn.
      rewrite length_app. cbn in Hn. lia. }
    split; [|done]. rewrite run_Star. by apply Hloop.
  - split; [|done]. cbn [run]. apply IH. intros c1. apply Hk.
Qed.

(** ** Matches of a whole pattern *)

Lemma match_at_sound r s c :
  match_at r s = Some c →
  ∃ w s', s = w ++ s' ∧ matches r w ∧ cap c 0 = Some w.
Proof.
  unfold match_at. intros (w & s' & c' & -> & Hm & _ & [= <-])%run_Grp_sound.
  by exists w, s'.
Qed.

Lemma match_at_complete r w s' : matches r w → is_Some (match_at r (w ++ s')).
Proof.
  intros Hm. unfold match_at.
  apply (run_complete (Grp 0 r) w (matches_grp 0 r w Hm)). by intros c.
Qed.

Lemma String_match_cons r x t :
  String_match r (x :: t) =
  match match_at r (x :: t) with
  | Some c => Some c
  | None => String_match r t
  end.
Proof. reflexivity. Qed.

Lemma String_match_nil r : String_match r [] = match_at r [].
Proof. cbn [String_match]. by destruct (match_at r []). Qed.

(** The search finds a match exactly when some part of the text is a word
    of the pattern. *)
Lemma String_match_is_Some r t :
  is_Some (String_match r t) ↔ ∃ pre w post, t = pre ++ w ++ post ∧ matches r w.
Proof.
  split.
  - induction t as [|x t IH].
    + rewrite String_match_nil. intros [c (w & s' & Hs & Hm & _)%match_at_sound].
      by exists [], w, s'.
    + rewrite String_match_cons.
      destruct (match_at r (x :: t)) as [c|] eqn:Hat.
      * intros _. apply match_at_sound in Hat as (w & s' & Hs & Hm & _).
        by exists [], w, s'.
      * intros (pre & w & post & -> & Hm)%IH. by exists (x :: pre), w, post.
  - intros (pre & w & post & -> & Hm).
    induction pre as [|x pre IH].
    + cbn [app]. destruct (match_at_complete r w post Hm) as [c Hc].
      destruct (w ++ post) as [|y u] eqn:Hw.
      * rewrite String_match_nil. eauto.
      * rewrite String_match_cons, Hc. eauto.
    + cbn [app]. rewrite String_match_cons. by destruct (match_at r _).
Qed.

(** Two patterns with the same matches at every position are found at the
    same position of a text. *)
Lemma String_match_sync r1 r2 t c1 :
  (∀ s, is_Some (match_at r1 s) ↔ is_Some (match_at r2 s)) →
  String_match r1 t = Some c1 →
  ∃ pre s c2, t = pre ++ s ∧ match_at r1 s = Some c1
    ∧ match_at r2 s = Some c2 ∧ String_match r2 t = Some c2.
Proof.
  intros Hsame. induction t as [|x t IH].
  - rewrite String_match_nil. intros H1.
    destruct (proj1 (Hsame []) (mk_is_Some _ _ H1)) as [c2 H2].
    exists [], [], c2. by rewrite String_match_nil.
  - rewrite String_match_cons.
    destruct (match_at r1 (x :: t)) as [c|] eqn:H1.
    + intros [= ->].
      destruct (proj1 (Hsame (x :: t)) (mk_is_Some _ _ H1)) as [c2 H2].
      exists [], (x :: t), c2. by rewrite String_match_cons, H2.
    + intros (pre & s & c2 & -> & Ha1 & Ha2 & Hs2)%IH.
      exists (x :: pre), s, c2. split_and!; try done.
      rewrite String_match_cons.
      destruct (match_at r2 (x :: pre ++ s)) as [c|] eqn:H2; [|done].
      destruct (proj2 (Hsame (x :: pre ++ s)) (mk_is_Some _ _ H2)) as [? ?].
      congruence.
Qed.

Lemma same_words_same_matches r1 r2 :
  (∀ w, matches r1 w ↔ matches r2 w) →
  ∀ s, is_Some (match_at r1 s) ↔ is_Some (match_at r2 s).
Proof.
  intros Hw s. split.
  - intros [c (w & s' & -> & Hm & _)%match_at_sound].
    by apply match_at_complete, Hw.
  - intros [c (w & s' & -> & Hm & _)%match_at_sound].
    by apply match_at_complete, Hw.
Qed.

(** ** Words of the constructs *)

Lemma matches_Eps w : matches Eps w ↔ w = [].
Proof. split; [by inversion 1 | intros ->; constructor]. Qed.

Lemma matches_Chr p w : matches (Chr p) w ↔ ∃ x, w = [x] ∧ p x = true.
Proof.
  split; [inversion 1; eauto | intros (x & -> & Hp); by constructor].
Qed.

Lemma matches_Seq r1 r2 w :
  matches (Seq r1 r2) w ↔ ∃ w1 w2, w = w1 ++ w2 ∧ matches r1 w1 ∧ matches r2 w2.
Proof.
  split; [inversion 1; eauto | intros (w1 & w2 & -> & ? & ?); by constructor].
Qed.

Lemma matches_Alt r1 r2 w : matches (Alt r1 r2) w ↔ matches r1 w ∨ matches r2 w.
Proof.
  split; [inversion 1; auto | intros [?|?]; [by apply matches_alt_l | by apply matches_alt_r]].
Qed.

Lemma matches_Opt r w : matches (Opt r) w ↔ w = [] ∨ matches r w.
Proof.
  split; [inversion 1; auto | intros [->|?]; [constructor | by apply matches_opt_some]].
Qed.

Lemma matches_Grp i r w : matches (Grp i r) w ↔ matches r w.
Proof. split; [by inversion 1 | by constructor]. Qed.

Lemma matches_Star_Chr p w :
  matches (Star (Chr p)) w ↔ Forall (λ x, p x = true) w.
Proof.
  split.
  - intros H. remember (Star (Chr p)) as r eqn:Hr.
    induction H as [| | | | | | | |r w1 w2 H1 _ Hne _ IH2|]; try done.
    injection Hr as ->. apply matches_Chr in H1 as (x & -> & Hp).
    constructor; [done|]. by apply IH2.
  - induction 1 as [|x w Hp _ IH]; [constructor|].
    apply (matches_star_cons _ [x] w); [by constructor|done|done].
Qed.

Lemma matches_Plus_Chr p w :
  matches (Plus (Chr p)) w ↔ w ≠ [] ∧ Forall (λ x, p x = true) w.
Proof.
  unfold Plus. rewrite matches_Seq. split.
  - intros (w1 & w2 & -> & (x & -> & Hp)%matches_Chr & Hs%matches_Star_Chr).
    split; [done|]. by constructor.
  - intros [Hne Hall]. destruct Hall as [|x w Hp Hall]; [done|].
    exists [x], w. split_and!; [done| |by apply matches_Star_Chr].
    apply matches_Chr. eauto.
Qed.

(** ** The layout patterns *)

Lemma ci_plus x : ci 43 x = true ↔ x = 43%N.
Proof.
  unfold ci. cbn. rewrite !orb_false_r. apply N.eqb_eq.
Qed.

Lemma matches_kk w :
  matches (Lit_ci (u16 "kk")) w ↔
  ∃ k1 k2, w = [k1; k2] ∧ ci 107 k1 = true ∧ ci 107 k2 = true.
Proof.
  change (Lit_ci (u16 "kk")) with (Seq (Chr (ci 107)) (Chr (ci 107))).
  rewrite matches_Seq. split.
  - intros (w1 & w2 & -> & (k1 & -> & ?)%matches_Chr & (k2 & -> & ?)%matches_Chr).
    by exists k1, k2.
  - intros (k1 & k2 & -> & ? & ?). exists [k1], [k2].
    split_and!; [done|apply matches_Chr; eauto..].
Qed.

Lemma matches_rooms_tail w :
  matches (Seq (Star ws) (Seq (Opt (Chr (ci 43)))
             (Seq (Star ws) (Lit_ci (u16 "kk"))))) w ↔
  ∃ gap1 plus gap2 k1 k2,
    w = gap1 ++ plus ++ gap2 ++ [k1; k2]
    ∧ Forall (λ x, is_space x = true) gap1
    ∧ (plus = [] ∨ plus = [43%N])
    ∧ Forall (λ x, is_space x = true) gap2
    ∧ ci 107 k1 = true ∧ ci 107 k2 = true.
Proof.
  rewrite matches_Seq. split.
  - intros (g1 & w1 & -> & Hg1%matches_Star_Chr
              & (o & w2 & -> & Ho%matches_Opt
                 & (g2 & kk & -> & Hg2%matches_Star_Chr
                    & (k1 & k2 & -> & ? & ?)%matches_kk)%matches_Seq)%matches_Seq).
    exists g1, o, g2, k1, k2. split_and!; try done.
    destruct Ho as [->|(x & -> & ->%ci_plus)%matches_Chr]; auto.
  - intros (g1 & o & g2 & k1 & k2 & -> & Hg1 & Ho & Hg2 & ? & ?).
    exists g1, (o ++ g2 ++ [k1; k2]). split_and!; [done|by apply matches_Star_Chr|].
    apply matches_Seq. exists o, (g2 ++ [k1; k2]). split_and!; [done| |].
    + apply matches_Opt. destruct Ho as [->| ->]; [by left|right].
      apply matches_Chr. exists 43%N. split; [done|]. by apply ci_plus.
    + apply matches_Seq. exists g2, [k1; k2].
      split_and!; [done|by apply matches_Star_Chr|]. apply matches_kk. eauto.
Qed.

Lemma matches_re_rooms_plus w : matches re_rooms_plus w ↔ layout_word w.
Proof.
  unfold re_rooms_plus, layout_word. rewrite matches_Seq. split.
  - intros (ds & tail & -> & [Hne Hds]%matches_Grp%matches_Plus_Chr
              & (g1 & o & g2 & k1 & k2 & -> & ?)%matches_rooms_tail).
    by exists ds, g1, o, g2, k1, k2.
  - intros (ds & g1 & o & g2 & k1 & k2 & -> & Hne & Hds & Htail).
    exists ds, (g1 ++ o ++ g2 ++ [k1; k2]). split_and!; [done| |].
    + by apply matches_Grp, matches_Plus_Chr.
    + apply matches_rooms_tail. by exists g1, o, g2, k1, k2.
Qed.

Lemma matches_re_layout w : matches re_layout w ↔ layout_word w.
Proof.
  unfold re_layout, layout_word. rewrite matches_Alt, !matches_Seq. split.
  - intros [(ds & tail & -> & [Hne Hds]%matches_Plus_Chr
               & (g1 & w1 & -> & Hg1%matches_Star_Chr
                  & (o & w2 & -> & (x & -> & ->%ci_plus)%matches_Chr
                     & (g2 & kk & -> & Hg2%matches_Star_Chr
                        & (k1 & k2 & -> & ? & ?)%matches_kk)%matches_Seq)%matches_Seq)%matches_Seq)
            |(ds & tail & -> & [Hne Hds]%matches_Plus_Chr
               & (g1 & kk & -> & Hg1%matches_Star_Chr
                  & (k1 & k2 & -> & ? & ?)%matches_kk)%matches_Seq)].
    + exists ds, g1, [43%N], g2, k1, k2. split_and!; auto.
    + exists ds, g1, [], [], k1, k2. split_and!; auto.
  - intros (ds & g1 & o & g2 & k1 & k2 & -> & Hne & Hds & Hg1 & Ho & Hg2 & ? & ?).
    assert (Hkk : matches (Lit_ci (u16 "kk")) [k1; k2]) by (apply matches_kk; eauto).
    destruct Ho as [->| ->].
    + right. exists ds, ((g1 ++ g2) ++ [k1; k2]). split_and!.
      * cbn [app]. by rewrite <- app_assoc.
      * by apply matches_Plus_Chr.
      * apply matches_Seq. exists (g1 ++ g2), [k1; k2].
        split_and!; [done| |done]. apply matches_Star_Chr. by apply Forall_app.
    + left. exists ds, (g1 ++ [43%N] ++ g2 ++ [k1; k2]). split_and!; [done| |].
      * by apply matches_Plus_Chr.
      * apply matches_Seq. exists g1, ([43%N] ++ g2 ++ [k1; k2]).
        split_and!; [done|by apply matches_Star_Chr|].
        apply matches_Seq. exists [43%N], (g2 ++ [k1; k2]). split_and!; [done| |].
        -- apply matches_Chr. exists 43%N. split; [done|]. by apply ci_plus.
        -- apply matches_Seq. exists g2, [k1; k2].
           split_and!; [done|by apply matches_Star_Chr|done].
Qed.

Lemma matches_re_rooms_bare w : matches re_rooms_bare w → layout_word w.
Proof.
  unfold re_rooms_bare. rewrite matches_Seq.
  intros (ds & tail & -> & [Hne Hds]%matches_Grp%matches_Plus_Chr
            & (g1 & kk & -> & Hg1%matches_Star_Chr
               & (k1 & k2 & -> & ? & ?)%matches_kk)%matches_Seq).
  exists ds, g1, [], [], k1, k2. split_and!; auto.
Qed.

Lemma digit_values x :
  is_digit x = true → x ∈ [48; 49; 50; 51; 52; 53; 54; 55; 56; 57]%N.
Proof.
  unfold is_digit. intros [?%N.leb_le ?%N.leb_le]%andb_true_iff.
  assert (x = 48 ∨ x = 49 ∨ x = 50 ∨ x = 51 ∨ x = 52 ∨ x = 53 ∨ x = 54
          ∨ x = 55 ∨ x = 56 ∨ x = 57)%N as Hx by lia.
  repeat (destruct Hx as [->|Hx]; [set_solver|]). subst. set_solver.
Qed.

Lemma space_not_digit x : is_space x = true → is_digit x = false.
Proof.
  intros Hs. destruct (is_digit x) eqn:Hd; [|done].
  apply digit_values in Hd. set_unfold.
  repeat (destruct Hd as [->|Hd]; [done|]). done.
Qed.

Lemma k_not_digit x : ci 107 x = true → is_digit x = false.
Proof.
  intros Hs. destruct (is_digit x) eqn:Hd; [|done].
  apply digit_values in Hd. set_unfold.
  repeat (destruct Hd as [->|Hd]; [done|]). done.
Qed.

(** What follows the digits of a layout starts with a character that is
    not a digit. *)
Lemma layout_tail_head (gap1 plus gap2 : str) (k1 k2 : N) :
  Forall (λ x, is_space x = true) gap1 → (plus = [] ∨ plus = [43%N]) →
  Forall (λ x, is_space x = true) gap2 → ci 107 k1 = true →
  ∃ x rest, gap1 ++ plus ++ gap2 ++ [k1; k2] = x :: rest ∧ is_digit x = false.
Proof.
  intros Hg1 Ho Hg2 Hk.
  destruct Hg1 as [|x g1 Hx _]; [|by exists x, (g1 ++ plus ++ gap2 ++ [k1; k2]); split; [|apply space_not_digit]].
  destruct Ho as [->| ->]; [|by eexists _, _].
  destruct Hg2 as [|x g2 Hx _]; [|by exists x, (g2 ++ [k1; k2]); split; [|apply space_not_digit]].
  exists k1, [k2]. split; [done|]. by apply k_not_digit.
Qed.

Lemma span_digits_app (ds : str) (x : N) (rest : str) :
  Forall (λ x, is_digit x = true) ds → is_digit x = false →
  span_digits (ds ++ x :: rest) = (ds, x :: rest).
Proof.
  intros Hds Hx. induction Hds as [|y ds Hy _ IH]; cbn.
  - by rewrite Hx.
  - by rewrite Hy, IH.
Qed.

Lemma layout_word_digits l :
  layout_word l →
  ∃ ds x rest, l = ds ++ x :: rest ∧ ds ≠ []
    ∧ Forall (λ x, is_digit x = true) ds ∧ is_digit x = false.
Proof.
  intros (ds & g1 & o & g2 & k1 & k2 & -> & Hne & Hds & Hg1 & Ho & Hg2 & Hk1 & _).
  destruct (layout_tail_head g1 o g2 k1 k2) as (x & rest & -> & Hx); try done.
  by exists ds, x, rest.
Qed.

(** A match of the rooms pattern: its first group holds the digits, which
    are all the digits at the place of the match. *)
Lemma match_at_rooms_plus s c :
  match_at re_rooms_plus s = Some c →
  ∃ l s', s = l ++ s' ∧ layout_word l ∧ cap c 1 = Some (span_digits s).1.
Proof.
  unfold match_at, re_rooms_plus. rewrite run_Grp, run_Seq.
  intros (ds & s1 & c1 & -> & [Hne Hds]%matches_Plus_Chr & _ & Hrest)%run_Grp_sound.
  apply run_sound in Hrest as (tail & s2 & c2 & -> & Htail & Hcaps & [= <-]).
  pose proof Htail as (g1 & o & g2 & k1 & k2 & Ht & Hg1 & Ho & Hg2 & Hk1 & Hk2)%matches_rooms_tail.
  destruct (layout_tail_head g1 o g2 k1 k2) as (x & rest & Hx & Hnd); try done.
  exists (ds ++ tail), s2. split_and!.
  - by rewrite <- app_assoc.
  - apply matches_re_rooms_plus. apply matches_Seq. exists ds, tail.
    split_and!; [done|by apply matches_Grp, matches_Plus_Chr|done].
  - cbn [cap Nat.eqb]. rewrite Hcaps by fresh_group. cbn [cap Nat.eqb].
    rewrite Ht, Hx. cbn [app]. by rewrite span_digits_app.
Qed.

Lemma match_at_layout s c :
  match_at re_layout s = Some c →
  ∃ l s', s = l ++ s' ∧ layout_word l ∧ cap c 0 = Some l
    ∧ (span_digits l).1 = (span_digits s).1.
Proof.
  intros (l & s' & -> & Hl%matches_re_layout & Hcap)%match_at_sound.
  exists l, s'. split_and!; try done.
  destruct (layout_word_digits l Hl) as (ds & x & rest & -> & _ & Hds & Hx).
  rewrite <- app_assoc. cbn [app]. by rewrite !span_digits_app.
Qed.

Lemma layout_matches_agree s :
  is_Some (match_at re_layout s) ↔ is_Some (match_at re_rooms_plus s).
Proof.
  apply same_words_same_matches. intros w.
  by rewrite matches_re_layout, matches_re_rooms_plus.
Qed.

(** The second pattern of [parseRooms] finds nothing the first has not
    found. *)
Lemma rooms_bare_subsumed t :
  String_match re_rooms_plus t = None → String_match re_rooms_bare t = None.
Proof.
  intros Hnone. destruct (String_match re_rooms_bare t) as [c|] eqn:Hbare; [|done].
  assert (is_Some (String_match re_rooms_plus t)) as [? ?]; [|congruence].
  apply String_match_is_Some.
  destruct (proj1 (String_match_is_Some _ _) (mk_is_Some _ _ Hbare))
    as (pre & w & post & -> & Hw).
  exists pre, w, post. split; [done|].
  by apply matches_re_rooms_plus, matches_re_rooms_bare.
Qed.

(** X1. The second pattern of [parseRooms] is never what decides: whenever the
    bare "kk" pattern matches, the first pattern matches too, so the room
    count is the number of the first match of the first pattern, or
    absent. *)
Theorem parseRooms_first_pattern (text : str) :
  parseRooms text =
  match String_match re_rooms_plus text with
  | Some m => Some (Number_of_digits (group m 1))
  | None => None
  end.
Proof.
  unfold parseRooms. destruct (String_match re_rooms_plus text) eqn:Hplus; [done|].
  by rewrite rooms_bare_subsumed.
Qed.

(** X2. The room count and the layout label read from one text go together:
    one is found exactly when the other is, and the room count is the
    number the label starts with. So it is for the canonical listing of a
    raw listing without a room count of its own, whose room count and label
    are read from the same text. *)
Theorem rooms_head_of_label :
  (∀ text,
     (is_Some (parseRooms text) ↔ is_Some (deriveLayoutLabel text))
     ∧ ∀ label, deriveLayoutLabel text = Some label →
         parseRooms text = Some (Number_of_digits (span_digits label).1))
  ∧ ∀ item uuids, Raw.rooms item = None →
      (is_Some (Item.rooms (transformListing item uuids).1)
       ↔ is_Some (Derived.layoutLabel (Item.derived (transformListing item uuids).1)))
      ∧ ∀ label,
          Derived.layoutLabel (Item.derived (transformListing item uuids).1)
          = Some label →
          Item.rooms (transformListing item uuids).1
          = Some (Number_of_digits (span_digits label).1).
Proof.
  assert (Htext : ∀ text,
            (is_Some (parseRooms text) ↔ is_Some (deriveLayoutLabel text))
            ∧ ∀ label, deriveLayoutLabel text = Some label →
                parseRooms text = Some (Number_of_digits (span_digits label).1)).
  { intros text. split.
    - unfold parseRooms, deriveLayoutLabel. split.
      + intros Hrooms.
        assert (is_Some (String_match re_rooms_plus text)) as [c1 H1].
        { destruct (String_match re_rooms_plus text) eqn:Hplus; [done|].
          rewrite rooms_bare_subsumed in Hrooms by done. by destruct Hrooms. }
        destruct (String_match_sync re_rooms_plus re_layout text c1)
          as (_ & _ & c2 & _ & _ & _ & ->); [|done|done].
        intros s. by rewrite layout_matches_agree.
      + intros Hlabel. destruct (String_match re_layout text) as [c2|] eqn:H2;
          [|by destruct Hlabel].
        destruct (String_match_sync re_layout re_rooms_plus text c2)
          as (_ & _ & c1 & _ & _ & _ & ->); [|done|done].
        apply layout_matches_agree.
    - intros label. unfold deriveLayoutLabel, parseRooms.
      destruct (String_match re_layout text) as [c2|] eqn:H2; [|done].
      intros [= <-].
      destruct (String_match_sync re_layout re_rooms_plus text c2)
        as (pre & s & c1 & -> & Ha2 & Ha1 & ->); [apply layout_matches_agree|done|].
      apply match_at_layout in Ha2 as (l & s' & -> & _ & Hcap0 & Hds).
      apply match_at_rooms_plus in Ha1 as (_ & _ & _ & _ & Hcap1).
      unfold group. rewrite Hcap0, Hcap1. cbn [default from_option id].
      by rewrite Hds. }
  split; [exact Htext|]. intros item uuids Hrooms.
  unfold transformListing. destruct (createId item uuids) as [id uuids'].
  cbn [fst Item.rooms Item.derived Derived.layoutLabel]. rewrite Hrooms.
  apply Htext.
Qed.

(** X3. A layout label is a piece of the text as it stands there: digits,
    white space if any, possibly a plus sign and more white space, and the
    letters "kk" in either case. *)
Theorem layout_label_shape (text label : str) :
  deriveLayoutLabel text = Some label →
  (∃ pre post, text = pre ++ label ++ post) ∧ layout_word label.
Proof.
  unfold deriveLayoutLabel.
  destruct (String_match re_layout text) as [c|] eqn:Hm; [|done]. intros [= <-].
  destruct (String_match_sync re_layout re_layout text c)
    as (pre & s & _ & -> & Ha & _ & _); [done|done|].
  apply match_at_layout in Ha as (l & s' & -> & Hl & Hcap & _).
  unfold group. rewrite Hcap. cbn. split; [by exists pre, s'|done].
Qed.

(** ** The price pattern *)

Lemma run_Chr_cons {A} p x s c (k : str → caps → option A) :
  run (Chr p) (x :: s) c k = if p x then k s c else None.
Proof. reflexivity. Qed.

Lemma span_digits_cons x s :
  span_digits (x :: s) =
  if is_digit x then (x :: (span_digits s).1, (span_digits s).2) else ([], x :: s).
Proof. cbn. destruct (is_digit x); [|done]. by destruct (span_digits s). Qed.

Lemma span_digits_split s : s = (span_digits s).1 ++ (span_digits s).2.
Proof.
  induction s as [|x s IH]; [done|]. rewrite span_digits_cons.
  destruct (is_digit x); [|done]. cbn. by rewrite <- IH.
Qed.

Lemma span_digits_Forall s : Forall (λ x, is_digit x = true) (span_digits s).1.
Proof.
  induction s as [|x s IH]; [constructor|]. rewrite span_digits_cons.
  destruct (is_digit x) eqn:Hx; [by constructor|constructor].
Qed.

(** A starred digit takes all the digits there are when what follows is
    accepted after them. *)
Lemma star_digits_greedy {A} (k : str → caps → option A) s c :
  is_Some (k (span_digits s).2 c) →
  run (Star d) s c k = k (span_digits s).2 c.
Proof.
  rewrite run_Star. generalize (le_n (length s)).
  generalize (length s) at 2 3 as n. intros n. revert s c.
  induction n as [|n IH]; intros s c Hn Hk.
  - destruct s; [done|cbn in Hn; lia].
  - rewrite star_loop_S. unfold d at 1.
    destruct s as [|x s]; [done|]. rewrite run_Chr_cons.
    rewrite span_digits_cons in Hk |- *. destruct (is_digit x); [|done].
    cbn [snd] in Hk |- *. change (clear_groups d c) with c.
    destruct (Nat.ltb_spec (length s) (length (x :: s))) as [_|Hge];
      [|cbn in Hge; lia].
    rewrite IH by first [done | cbn in Hn; lia]. by destruct Hk as [a ->].
Qed.

Lemma re_price_eq : re_price = Seq (Grp 1 (Seq d (Seq d (Star d)))) price_tail.
Proof. reflexivity. Qed.

Lemma price_tail_total {A} s c (k : str → caps → option A) :
  total_at k s → is_Some (run price_tail s c k).
Proof.
  intros Hk. apply (run_complete price_tail [] ltac:(apply matches_Seq; exists [], []; split_and!; [done|constructor..]) s c k Hk).
Qed.

Lemma match_at_price_digits x y s :
  is_digit x = true → is_digit y = true →
  ∃ c, match_at re_price (x :: y :: s) = Some c
       ∧ cap c 1 = Some (span_digits (x :: y :: s)).1.
Proof.
  intros Hx Hy. unfold match_at. rewrite re_price_eq.
  rewrite run_Grp, run_Seq, run_Grp, run_Seq. unfold d at 1. rewrite run_Chr_cons, Hx.
  rewrite run_Seq. unfold d at 1. rewrite run_Chr_cons, Hy.
  rewrite star_digits_greedy by (apply price_tail_total; by intros c).
  match goal with
  | |- ∃ c, run price_tail ?s ?c0 ?k = Some c ∧ _ =>
      destruct (price_tail_total s c0 k ltac:(by intros c)) as [c Hrun]
  end.
  exists c. split; [done|].
  apply run_sound in Hrun as (w & s' & c' & _ & _ & Hcaps & [= <-]).
  cbn [cap Nat.eqb]. rewrite Hcaps by fresh_group. cbn [cap Nat.eqb].
  rewrite !span_digits_cons, Hx, Hy. cbn [fst]. f_equal.
  rewrite (span_digits_split s) at 1 3.
  change (x :: y :: ?a ++ ?b) with ((x :: y :: a) ++ b).
  by rewrite take_app_suffix.
Qed.

Lemma matches_re_price w :
  matches re_price w →
  ∃ x y w', w = x :: y :: w' ∧ is_digit x = true ∧ is_digit y = true.
Proof.
  rewrite re_price_eq, matches_Seq.
  intros (w1 & w2 & -> & (d1 & u & -> & (x & -> & Hx)%matches_Chr
            & (d2 & v & -> & (y & -> & Hy)%matches_Chr & _)%matches_Seq)%matches_Grp%matches_Seq & _).
  by eexists x, y, _.
Qed.

Lemma match_at_price_none s :
  (∀ x y s', s = x :: y :: s' → is_digit x && is_digit y = false) →
  match_at re_price s = None.
Proof.
  intros Hno. destruct (match_at re_price s) as [c|] eqn:Hm; [|done].
  apply match_at_sound in Hm as (w & s' & -> & (x & y & w' & -> & Hx & Hy)%matches_re_price & _).
  specialize (Hno x y (w' ++ s') eq_refl). by rewrite Hx, Hy in Hno.
Qed.

Lemma String_match_price t :
  (λ m, group m 1) <$> String_match re_price t = first_number t.
Proof.
  induction t as [|x t IH].
  - rewrite String_match_nil, match_at_price_none; [done|by intros].
  - rewrite String_match_cons. cbn [first_number]. destruct t as [|y t].
    + rewrite match_at_price_none by (by intros ? ? ? [= _ ?]).
      rewrite String_match_nil, match_at_price_none; [done|by intros].
    + destruct (is_digit x && is_digit y) eqn:Hxy.
      * apply andb_true_iff in Hxy as [Hx Hy].
        destruct (match_at_price_digits x y t Hx Hy) as (c & -> & Hcap).
        cbn [fmap option_fmap option_map]. unfold group. by rewrite Hcap.
      * rewrite match_at_price_none by (by intros ? ? ? [= <- <- _]). apply IH.
Qed.

(** X4. The price read from a text is the first run of digits of the text
    with its white space removed, provided the run has two digits or more:
    a single digit between other characters is passed over, and digits that
    white space separates are read as one number. *)
Theorem parsePrice_first_number (text : str) :
  parsePrice text = Number_of_digits <$> first_number (strip_spaces text).
Proof.
  unfold parsePrice. rewrite <- String_match_price.
  by destruct (String_match re_price (strip_spaces text)).
Qed.

(** ** The size pattern *)

Lemma re_size_eq : re_size = Seq (Grp 1 size_number) size_tail.
Proof. reflexivity. Qed.

Lemma ci_point x : ci 46 x = true ↔ x = 46%N.
Proof. unfold ci. cbn. rewrite !orb_false_r. apply N.eqb_eq. Qed.

Lemma ci_two x : ci 50 x = true ↔ x = 50%N.
Proof. unfold ci. cbn. rewrite !orb_false_r. apply N.eqb_eq. Qed.

Lemma ci_squared x : ci 178 x = true ↔ x = 178%N.
Proof. unfold ci. cbn. rewrite !orb_false_r. apply N.eqb_eq. Qed.

Lemma matches_size_number w : matches size_number w → decimal_word w.
Proof.
  unfold size_number. rewrite matches_Seq.
  intros (whole & frac & -> & [Hne Hwhole]%matches_Plus_Chr & Hfrac%matches_Opt).
  exists whole, frac. split_and!; try done.
  destruct Hfrac as [->|(p & fd & -> & (x & -> & ->%ci_point)%matches_Chr
                           & [? ?]%matches_Plus_Chr)%matches_Grp%matches_Seq];
    [by left|right]. by exists fd.
Qed.

Lemma matches_size_tail w : matches size_tail w → unit_word w.
Proof.
  unfold size_tail. rewrite matches_Seq.
  intros (gap & u & -> & Hgap%matches_Opt & Hu%matches_Grp%matches_Alt).
  assert (∃ m e, u = [m; e] ∧ ci 109 m = true ∧ (e = 50%N ∨ e = 178%N))
    as (m & e & -> & Hm & He).
  { destruct Hu as [Hu|Hu].
    - change (Lit_ci [109%N; 50%N]) with (Seq (Chr (ci 109)) (Chr (ci 50))) in Hu.
      apply matches_Seq in Hu
        as (? & ? & -> & (m & -> & ?)%matches_Chr & (e & -> & ?%ci_two)%matches_Chr).
      exists m, e. auto.
    - change (Lit_ci [109%N; 178%N]) with (Seq (Chr (ci 109)) (Chr (ci 178))) in Hu.
      apply matches_Seq in Hu
        as (? & ? & -> & (m & -> & ?)%matches_Chr & (e & -> & ?%ci_squared)%matches_Chr).
      exists m, e. auto. }
  exists gap, m, e. split_and!; try done.
  destruct Hgap as [->|(x & -> & ?)%matches_Chr]; [by left|right; eauto].
Qed.

Lemma match_at_size s c :
  match_at re_size s = Some c →
  ∃ number tail s', s = number ++ tail ++ s'
    ∧ decimal_word number ∧ unit_word tail ∧ cap c 1 = Some number.
Proof.
  unfold match_at. rewrite re_size_eq, run_Grp, run_Seq.
  intros (number & s1 & c1 & -> & Hnum%matches_size_number & _ & Hrest)%run_Grp_sound.
  apply run_sound in Hrest as (tail & s2 & c2 & -> & Htail%matches_size_tail & Hcaps & [= <-]).
  exists number, tail, s2. split_and!; try done.
  cbn [cap Nat.eqb]. rewrite Hcaps by fresh_group. done.
Qed.

Lemma digit_val_nonneg x : is_digit x = true → 0 ≤ digit_val x.
Proof.
  unfold is_digit, digit_val. intros [?%N.leb_le _]%andb_true_iff. lia.
Qed.

Lemma digits_fold_nonneg s acc :
  0 ≤ acc → Forall (λ x, is_digit x = true) s →
  0 ≤ fold_left (λ acc c, 10 * acc + digit_val c) s acc.
Proof.
  revert acc. induction s as [|x s IH]; intros acc Hacc Hs; [done|]. cbn.
  apply Forall_cons_1 in Hs as [Hx Hs]. apply IH; [|done].
  pose proof (digit_val_nonneg x Hx). lia.
Qed.

Lemma digits_to_Z_nonneg s : Forall (λ x, is_digit x = true) s → 0 ≤ digits_to_Z s.
Proof. by apply digits_fold_nonneg. Qed.

Lemma Q2Qc_nonneg (n : Z) (p : positive) : 0 ≤ n → (0 ≤ Q2Qc (n # p))%Qc.
Proof.
  intros Hn. unfold Qcle. cbn [this Q2Qc]. rewrite !Qred_correct.
  unfold Qle. cbn. lia.
Qed.

Lemma round_half_even_nonneg (n d : Z) :
  0 ≤ n → 0 < d → 0 ≤ round_half_even n d.
Proof.
  intros Hn Hd. unfold round_half_even.
  pose proof (Z.div_pos n d Hn Hd).
  repeat match goal with |- context [if ?b then _ else _] => destruct b end; lia.
Qed.

(** The Number value of a real that is not negative is not negative. *)
Lemma binary64_nonneg (q : Q) : (0 <= q)%Q → (0 <= binary64 q)%Q.
Proof.
  intros Hq. assert (Hn : 0 ≤ Qnum q).
  { unfold Qle in Hq. cbn in Hq. lia. }
  unfold binary64. destruct (Qnum q =? 0); [apply Qle_refl|].
  set (k := Z.max (binade (Qnum q) (Qden q)) (-1022) - 52).
  destruct (0 <=? k) eqn:Hk; unfold Qle; cbn [Qnum Qden inject_Z].
  - apply Z.leb_le in Hk. rewrite Z.mul_0_l, Z.mul_1_r.
    apply Z.mul_nonneg_nonneg; [|by apply Z.pow_nonneg].
    apply round_half_even_nonneg; [done|].
    apply Z.mul_pos_pos; [done|]. by apply Z.pow_pos_nonneg.
  - apply Z.leb_gt in Hk. rewrite Z.mul_0_l, Z.mul_1_r.
    apply round_half_even_nonneg; [|done].
    apply Z.mul_nonneg_nonneg; [done|]. by apply Z.pow_nonneg.
Qed.

Lemma Number_value_nonneg (q : Qc) : (0 ≤ q)%Qc → (0 ≤ Number_value q)%Qc.
Proof.
  intros Hq. unfold Qcle, Number_value. cbn [this Q2Qc].
  rewrite !Qred_correct. by apply binary64_nonneg.
Qed.

(** [parseFloat] on text that starts with a digit is a number, and not a
    negative one. *)
Lemma parseFloat_digit x s :
  is_digit x = true → ∃ q, parseFloat (x :: s) = Num q ∧ (0 ≤ q)%Qc.
Proof.
  intros Hx. unfold parseFloat. rewrite span_digits_cons, Hx.
  pose proof (span_digits_Forall s) as Hip.
  destruct (span_digits s) as [ip rest]. cbn [fst snd] in *.
  set (fp := match rest with
             | [] => []
             | c :: rest' => if (c =? 46)%N then (span_digits rest').1 else []
             end).
  assert (Hfp : Forall (λ x, is_digit x = true) fp).
  { subst fp. destruct rest as [|c rest']; [constructor|].
    destruct (c =? 46)%N; [apply span_digits_Forall|constructor]. }
  eexists. split; [done|]. apply Number_value_nonneg, Q2Qc_nonneg.
  pose proof (digits_to_Z_nonneg (x :: ip) ltac:(by constructor)).
  pose proof (digits_to_Z_nonneg fp Hfp).
  assert (0 < 10 ^ Z.of_nat (length fp)) by (apply Z.pow_pos_nonneg; lia).
  nia.
Qed.

Lemma String_match_suffix r t c :
  String_match r t = Some c → ∃ pre s, t = pre ++ s ∧ match_at r s = Some c.
Proof.
  intros H. destruct (String_match_sync r r t c) as (pre & s & _ & ? & ? & _); eauto.
Qed.

(** X5. A size read from a text comes from a piece of the text: a decimal
    number, then optional white space and the unit, "m2" or "m²" in either
    case. It is the value of that number and is never negative. *)
Theorem parseSize_shape (text : str) (v : number) :
  parseSize text = Some v →
  ∃ pre number unit post,
    text = pre ++ number ++ unit ++ post
    ∧ decimal_word number ∧ unit_word unit
    ∧ v = parseFloat number
    ∧ ∃ q, v = Num q ∧ (0 ≤ q)%Qc.
Proof.
  unfold parseSize. destruct (String_match re_size text) as [c|] eqn:Hm; [|done].
  intros [= <-]. apply String_match_suffix in Hm as (pre & s & -> & Hat).
  apply match_at_size in Hat as (number & tail & s' & -> & Hnum & Htail & Hcap).
  unfold group. rewrite Hcap. cbn [default from_option id].
  exists pre, number, tail, s'. split_and!; try done.
  destruct Hnum as (whole & frac & -> & Hne & Hwhole & _).
  destruct Hwhole as [|x whole Hx _]; [done|]. by apply parseFloat_digit.
Qed.

(** ** The pipeline as a whole *)

Lemma deduplicate_entries listings rnd :
  let entries := (dedup_map listings rnd).1 in
  deduplicate listings rnd = entries.*2
  ∧ sublist entries (keyed listings rnd)
  ∧ NoDup entries.*1.
Proof.
  intros entries.
  assert (Hentries : entries = fold_left add_entry (keyed listings rnd) [])
    by apply dedup_fold_keyed.
  destruct (first_seen_extends (keyed listings rnd) []) as (r & Hr & Hsub).
  rewrite <- Hentries in Hr. cbn in Hr. subst r.
  split_and!; [done|done|]. rewrite Hentries. apply first_seen_NoDup, NoDup_nil_2.
Qed.

Lemma deduplicate_sublist listings rnd :
  sublist (deduplicate listings rnd) listings.
Proof.
  destruct (deduplicate_entries listings rnd) as (-> & Hsub & _).
  rewrite <- (keyed_values listings rnd) at 2. by apply fmap_sublist.
Qed.

Lemma sublist_elem_of {A} (l1 l2 : list A) x :
  sublist l1 l2 → x ∈ l1 → x ∈ l2.
Proof.
  intros Hsub%sublist_submseteq Hx. by apply (elem_of_submseteq l1 l2 x).
Qed.

Lemma transformListing_raw item uuids :
  Item.raw (transformListing item uuids).1 = item.
Proof. unfold transformListing. by destruct (createId item uuids). Qed.

Lemma transformListing_url item uuids :
  Item.url (transformListing item uuids).1 = default (u16 "#") (Raw.url item).
Proof. unfold transformListing. by destruct (createId item uuids). Qed.

Lemma map_transformListing_cons item l uuids :
  (map_transformListing (item :: l) uuids).1 =
  (transformListing item uuids).1
    :: (map_transformListing l (transformListing item uuids).2).1.
Proof.
  cbn [map_transformListing]. destruct (transformListing item uuids) as [x u1].
  cbn [fst snd]. by destruct (map_transformListing l u1).
Qed.

Lemma map_transformListing_raw l uuids :
  Item.raw <$> (map_transformListing l uuids).1 = l.
Proof.
  revert uuids. induction l as [|item l IH]; intros uuids; [done|].
  rewrite map_transformListing_cons. cbn [fmap list_fmap].
  by rewrite transformListing_raw, IH.
Qed.

Lemma map_transformListing_elem l uuids x :
  x ∈ (map_transformListing l uuids).1 →
  ∃ uuids', x = (transformListing (Item.raw x) uuids').1.
Proof.
  revert uuids. induction l as [|item l IH]; intros uuids.
  - by intros ?%elem_of_nil.
  - rewrite map_transformListing_cons. intros [->|Hin]%elem_of_cons; [|by eapply IH].
    exists uuids. by rewrite transformListing_raw.
Qed.

Lemma postProcessListings_sublist listings params rnd uuids :
  sublist (postProcessListings listings params rnd uuids)
          (map_transformListing (deduplicate listings rnd) uuids).1.
Proof. unfold postProcessListings, filter_items. apply sublist_filter. Qed.

Lemma postProcessListings_raw listings params rnd uuids :
  sublist (Item.raw <$> postProcessListings listings params rnd uuids) listings.
Proof.
  trans (deduplicate listings rnd); [|apply deduplicate_sublist].
  rewrite <- (map_transformListing_raw (deduplicate listings rnd) uuids).
  apply fmap_sublist, postProcessListings_sublist.
Qed.

Lemma postProcessListings_elem listings params rnd uuids x :
  x ∈ postProcessListings listings params rnd uuids →
  keep_item params x = true
  ∧ Item.raw x ∈ listings
  ∧ ∃ uuids', x = (transformListing (Item.raw x) uuids').1.
Proof.
  intros Hx. split_and!.
  - unfold postProcessListings, filter_items in Hx.
    by apply list_elem_of_filter in Hx as [? _].
  - apply (sublist_elem_of _ _ _ (postProcessListings_raw listings params rnd uuids)).
    by apply list_elem_of_fmap_2.
  - eapply map_transformListing_elem, sublist_elem_of; [|done].
    apply postProcessListings_sublist.
Qed.

(** X6. The result of the pipeline refers back to listings of the input, in the
    order of the input and each at most as often as it occurs there; every
    listing of the result is the normalisation of the raw listing it refers
    to and passes the filter. *)
Theorem postProcessListings_subsequence (listings : list Raw.t) (params : Params.t)
    (rnd uuids : supply) :
  sublist (Item.raw <$> postProcessListings listings params rnd uuids) listings
  ∧ (length (postProcessListings listings params rnd uuids) ≤ length listings)%nat
  ∧ ∀ x, x ∈ postProcessListings listings params rnd uuids →
      keep_item params x = true
      ∧ Item.raw x ∈ listings
      ∧ ∃ uuids', x = (transformListing (Item.raw x) uuids').1.
Proof.
  pose proof (postProcessListings_raw listings params rnd uuids) as Hraw.
  split_and!; [done| |apply postProcessListings_elem].
  apply sublist_length in Hraw. by rewrite length_fmap in Hraw.
Qed.

Lemma keyed_fst listings rnd :
  Forall (λ kv : str * Raw.t,
            ∀ u, Raw.url kv.2 = Some u → kv.1 = u) (keyed listings rnd).
Proof.
  revert rnd. induction listings as [|item rest IH]; intros rnd; [constructor|].
  cbn [keyed]. destruct (dedup_key item rnd) as [key rnd'] eqn:Hkey.
  constructor; [|apply IH]. cbn. intros u Hu. unfold dedup_key in Hkey.
  rewrite Hu in Hkey. congruence.
Qed.

Lemma sublist_Forall {A} (P : A → Prop) (l1 l2 : list A) :
  sublist l1 l2 → Forall P l2 → Forall P l1.
Proof.
  intros Hsub Hall. apply Forall_forall. intros x Hx.
  rewrite Forall_forall in Hall. by apply Hall, (sublist_elem_of l1 l2).
Qed.

Lemma urls_of_keys (m : list (str * Raw.t)) :
  Forall (λ kv : str * Raw.t, Raw.url kv.2 = Some kv.1) m →
  Raw.url <$> m.*2 = Some <$> m.*1.
Proof.
  induction 1 as [|kv m Hkv _ IH]; [done|]. cbn. by rewrite Hkv, IH.
Qed.

(** The URLs of the deduplicated listings, when every listing has one, are
    the keys of the map. *)
Lemma deduplicate_urls listings rnd :
  Forall (λ item, is_Some (Raw.url item)) listings →
  NoDup (Raw.url <$> deduplicate listings rnd).
Proof.
  intros Hurl. destruct (deduplicate_entries listings rnd) as (-> & Hsub & Hnd).
  assert (Hkeys : Forall (λ kv : str * Raw.t, Raw.url kv.2 = Some kv.1)
                    (dedup_map listings rnd).1).
  { apply (sublist_Forall _ _ _ Hsub).
    pose proof (keyed_fst listings rnd) as Hfst.
    assert (Hsnd : Forall (λ kv : str * Raw.t, is_Some (Raw.url kv.2))
                     (keyed listings rnd)).
    { rewrite <- (keyed_values listings rnd), Forall_fmap in Hurl.
      exact Hurl. }
    rewrite Forall_forall in Hfst, Hsnd |- *. intros kv Hkv.
    destruct (Hsnd kv Hkv) as [u Hu]. by rewrite (Hfst kv Hkv u Hu). }
  rewrite (urls_of_keys _ Hkeys). by apply (NoDup_fmap_2 Some).
Qed.

Lemma postProcessListings_urls listings params rnd uuids :
  Forall (λ item, is_Some (Raw.url item)) listings →
  NoDup (Item.url <$> postProcessListings listings params rnd uuids).
Proof.
  intros Hurl.
  apply (sublist_NoDup _ (Item.url <$> (map_transformListing (deduplicate listings rnd) uuids).1));
    [|apply fmap_sublist, postProcessListings_sublist].
  assert (Hdeduped : Forall (λ item, is_Some (Raw.url item)) (deduplicate listings rnd))
    by (eapply sublist_Forall; [apply deduplicate_sublist|done]).
  pose proof (deduplicate_urls listings rnd Hurl) as Hnd.
  revert Hdeduped Hnd. generalize (deduplicate listings rnd) as l. intros l.
  revert uuids. induction l as [|item l IH]; intros uuids Hall Hnd; [constructor|].
  rewrite map_transformListing_cons. cbn [fmap list_fmap] in *.
  apply Forall_cons_1 in Hall as [[u Hu] Hall]. apply NoDup_cons in Hnd as [Hnotin Hnd].
  apply NoDup_cons. split; [|by apply IH].
  rewrite transformListing_url, Hu. cbn.
  intros (y & Hy & Hin)%list_elem_of_fmap.
  apply map_transformListing_elem in Hin as Hty. destruct Hty as [u' Hty].
  rewrite Hty, transformListing_url in Hy.
  assert (Hraw : Item.raw y ∈ l).
  { rewrite <- (map_transformListing_raw l (transformListing item uuids).2).
    by apply list_elem_of_fmap_2. }
  rewrite Forall_forall in Hall. destruct (Hall _ Hraw) as [uy Huy].
  rewrite Huy in Hy. cbn in Hy. subst uy.
  apply Hnotin. rewrite Hu, <- Huy. by apply list_elem_of_fmap_2.
Qed.

(** X7. When every listing of the input has a URL, no two listings of the
    result have the same URL. *)
Theorem postProcessListings_distinct_urls (listings : list Raw.t)
    (params : Params.t) (rnd uuids : supply) :
  Forall (λ item, is_Some (Raw.url item)) listings →
  NoDup (Item.url <$> postProcessListings listings params rnd uuids).
Proof. apply postProcessListings_urls. Qed.

Lemma url_encoding_inj (u1 u2 : str) :
  well_formed u1 = true → well_formed u2 = true →
  toString_base64 (Buffer_from u1) = toString_base64 (Buffer_from u2) → u1 = u2.
Proof.
  intros H1 H2 Heq.
  rewrite <- (decode_utf8_Buffer_from u1 H1), <- (decode_utf8_Buffer_from u2 H2).
  rewrite <- (from_base64_toString (Buffer_from u1)) by (by apply Buffer_from_bytes).
  rewrite <- (from_base64_toString (Buffer_from u2)) by (by apply Buffer_from_bytes).
  by rewrite Heq.
Qed.

(** X8. When every listing of the input is identified by its URL alone, no two
    listings of the result have the same canonical identifier. *)
Theorem postProcessListings_distinct_ids (listings : list Raw.t)
    (params : Params.t) (rnd uuids : supply) :
  Forall url_identified listings →
  NoDup (Item.id <$> postProcessListings listings params rnd uuids).
Proof.
  intros Hall.
  assert (Hurl : Forall (λ item, is_Some (Raw.url item)) listings).
  { eapply Forall_impl; [done|]. by intros item (_ & u & -> & _). }
  pose proof (postProcessListings_urls listings params rnd uuids Hurl) as Hnd.
  pose proof (postProcessListings_elem listings params rnd uuids) as Hres.
  revert Hnd Hres. generalize (postProcessListings listings params rnd uuids) as l.
  intros l Hnd Hres.
  assert (Hx : ∀ x, x ∈ l →
            well_formed (Item.url x) = true
            ∧ Item.id x = toString_base64 (Buffer_from (Item.url x))).
  { intros x Hx. destruct (Hres x Hx) as (_ & Hraw & u' & Heq).
    rewrite Forall_forall in Hall.
    destruct (Hall _ Hraw) as (Hno & u & Hu & Hne & Hwf).
    rewrite Heq, transformListing_url, transformListing_id, Hu.
    rewrite (createId_url _ _ u) by done. done. }
  clear Hres. induction l as [|x l IH]; [constructor|].
  cbn [fmap list_fmap] in *. apply NoDup_cons in Hnd as [Hnotin Hnd].
  apply NoDup_cons. split.
  - intros (y & Hy & Hin)%list_elem_of_fmap. apply Hnotin.
    destruct (Hx x) as [Hwx Hix]; [apply list_elem_of_here|].
    destruct (Hx y) as [Hwy Hiy]; [by apply list_elem_of_further|].
    rewrite Hix, Hiy in Hy. apply url_encoding_inj in Hy; [|done..].
    rewrite Hy. by apply list_elem_of_fmap_2.
  - apply IH; [done|]. intros y Hy. apply Hx. by apply list_elem_of_further.
Qed.

Lemma add_entries_distinct (kvs m : list (str * Raw.t)) :
  NoDup (m ++ kvs).*1 → fold_left add_entry kvs m = m ++ kvs.
Proof.
  revert m. induction kvs as [|kv kvs IH]; intros m Hnd.
  - by rewrite app_nil_r.
  - cbn [fold_left]. unfold add_entry at 2.
    replace (Map_has m kv.1) with false.
    + rewrite IH; [by rewrite <- app_assoc|]. by rewrite <- app_assoc.
    + symmetry. apply Map_has_false.
      rewrite fmap_app in Hnd. apply NoDup_app in Hnd as (_ & Hdisj & _).
      intros Hin. apply (Hdisj _ Hin). cbn. apply list_elem_of_here.
Qed.

Lemma sublist_full {A} (l1 l2 : list A) :
  sublist l1 l2 → (length l2 ≤ length l1)%nat → l1 = l2.
Proof.
  induction 1 as [|x l1 l2 _ IH|x l1 l2 Hsub _]; intros Hlen; [done| |].
  - cbn in Hlen. rewrite IH; [done|lia].
  - apply sublist_length in Hsub. cbn in Hlen. lia.
Qed.

Lemma deduplicate_all listings rnd :
  deduplicate listings rnd = listings ↔ NoDup (keyed listings rnd).*1.
Proof.
  destruct (deduplicate_entries listings rnd) as (Hded & Hsub & Hnd).
  split.
  - intros Heq. rewrite Hded in Heq.
    assert (Hlen : length (dedup_map listings rnd).1 = length (keyed listings rnd)).
    { rewrite <- (length_fmap snd), Heq.
      by rewrite <- (keyed_values listings rnd) at 1; rewrite length_fmap. }
    by rewrite <- (sublist_full _ _ Hsub) by lia.
  - intros Hkeys. rewrite Hded. unfold dedup_map.
    rewrite dedup_fold_keyed, add_entries_distinct by done.
    apply keyed_values.
Qed.

(** X9. Deduplication drops nothing exactly when the identity keys of the
    listings are pairwise distinct. *)
Theorem deduplicate_keeps_all (listings : list Raw.t) (rnd : supply) :
  deduplicate listings rnd = listings ↔ NoDup (keyed listings rnd).*1.
Proof. apply deduplicate_all. Qed.

Lemma keyed_identified listings rnd rnd' :
  Forall identified listings → keyed listings rnd = keyed listings rnd'.
Proof.
  intros Hall. revert rnd rnd'.
  induction Hall as [|item rest Hitem _ IH]; intros rnd rnd'; [done|].
  cbn [keyed]. unfold dedup_key.
  destruct Hitem as [[u ->]|[i Hi]].
  - by rewrite (IH rnd rnd').
  - rewrite Hi. destruct (Raw.url item); by rewrite (IH rnd rnd').
Qed.

Lemma keyed_sublist l2 rnd (e : list (str * Raw.t)) :
  Forall identified l2 → sublist e (keyed l2 rnd) → keyed e.*2 rnd = e.
Proof.
  revert rnd e. induction l2 as [|item l2 IH]; intros rnd e Hall Hsub.
  - cbn in Hsub. by apply sublist_nil_r in Hsub as ->.
  - apply Forall_cons_1 in Hall as [Hitem Hall].
    assert (Hnodraw : (dedup_key item rnd).2 = rnd).
    { unfold dedup_key. destruct Hitem as [[u ->]|[i ->]]; [done|].
      by destruct (Raw.url item). }
    cbn [keyed] in Hsub. destruct (dedup_key item rnd) as [key rnd'] eqn:Hkey.
    cbn in Hnodraw. subst rnd'.
    apply sublist_cons_r in Hsub as [Hsub|(e' & -> & Hsub)].
    + by apply IH.
    + cbn [fmap list_fmap snd keyed]. rewrite Hkey. by rewrite (IH rnd e').
Qed.

(** X10. Deduplicating again changes nothing, whatever the random draws, when
    every listing has a URL or an identifier. *)
Theorem deduplicate_idempotent (listings : list Raw.t) (rnd rnd' : supply) :
  Forall identified listings →
  deduplicate (deduplicate listings rnd) rnd' = deduplicate listings rnd.
Proof.
  intros Hall. destruct (deduplicate_entries listings rnd) as (Hded & Hsub & Hnd).
  rewrite Hded. apply deduplicate_all.
  rewrite (keyed_identified _ rnd' rnd).
  - by rewrite (keyed_sublist listings rnd).
  - eapply sublist_Forall; [|done]. rewrite <- Hded. apply deduplicate_sublist.
Qed.

Lemma filter_items_unconstrained params items :
  unconstrained params → filter_items params items = items.
Proof.
  intros [Hp Hr]. induction items as [|x l IH]; [done|].
  rewrite filter_items_cons, IH. unfold keep_item. by rewrite Hp, Hr.
Qed.

(** X11. Two listings with different URLs and the same usable identifier both
    pass deduplication, and both receive that identifier as canonical
    identifier. *)
Theorem shared_identifier_collides (a b : Raw.t) (i : id_value) (ua ub : str)
    (params : Params.t) (rnd uuids : supply) :
  Raw.id a = Some i → Raw.id b = Some i → truthy_id i = true →
  Raw.url a = Some ua → Raw.url b = Some ub → ua ≠ ub →
  unconstrained params →
  ∃ xa xb,
    postProcessListings [a; b] params rnd uuids = [xa; xb]
    ∧ Item.raw xa = a ∧ Item.raw xb = b
    ∧ Item.id xa = String_id i ∧ Item.id xb = String_id i.
Proof.
  intros Hia Hib Hi Hua Hub Hne Hparams.
  assert (Hded : deduplicate [a; b] rnd = [a; b]).
  { apply deduplicate_all. cbn [keyed]. unfold dedup_key.
    rewrite Hua, Hub. cbn. apply NoDup_cons. split; [|apply NoDup_singleton].
    by intros ->%list_elem_of_singleton. }
  unfold postProcessListings. rewrite Hded, filter_items_unconstrained by done.
  rewrite !map_transformListing_cons. cbn [map_transformListing fst].
  eexists _, _. split; [done|].
  rewrite !transformListing_raw, !transformListing_id.
  by rewrite (createId_identifier a _ i), (createId_identifier b _ i).
Qed.

(** ** The price per square metre as a number *)

Lemma Qc_this_add (a b : Qc) : (this (a + b)%Qc == this a + this b)%Q.
Proof. unfold Qcplus. cbn [this Q2Qc]. apply Qred_correct. Qed.

Lemma Qc_this_of_Z (z : Z) : (this (Q2Qc (inject_Z z)) == inject_Z z)%Q.
Proof. cbn [this Q2Qc]. apply Qred_correct. Qed.

(** [Math.round] gives an integer within one half of its argument. *)
Lemma round_Qc_bounds (q : Qc) :
  ∃ z : Z, round_Qc q = Q2Qc (inject_Z z)
    ∧ (Q2Qc (inject_Z z) ≤ q + Q2Qc (1 # 2))%Qc
    ∧ (q + Q2Qc (1 # 2) < Q2Qc (inject_Z z) + 1)%Qc.
Proof.
  exists (Qfloor (this (q + Q2Qc (1 # 2))%Qc)). split_and!; [done| |].
  - unfold Qcle. rewrite Qc_this_of_Z. apply Qfloor_le.
  - unfold Qclt. rewrite (Qc_this_add (Q2Qc _) 1), Qc_this_of_Z.
    change (this 1%Qc) with (inject_Z 1). rewrite <- inject_Z_plus.
    apply Qlt_floor.
Qed.

(** The integer nearest to [n / d] is within one half of it. *)
Lemma round_half_even_error (n d : Z) :
  0 < d → Z.abs (2 * (round_half_even n d * d) - 2 * n) ≤ d.
Proof.
  intros Hd. unfold round_half_even.
  pose proof (Z.div_mod n d ltac:(lia)) as Hn.
  pose proof (Z.mod_pos_bound n d Hd) as Hr.
  set (f := n / d) in *. set (r := n mod d) in *.
  assert (Hf : (f + 1) * d = d * f + d) by lia.
  destruct (Z.ltb_spec (2 * r) d); [lia|].
  destruct (Z.ltb_spec d (2 * r)); [lia|].
  destruct (Z.even f); lia.
Qed.

(** The exponent found is a lower bound: [2 ^ e ≤ |n / d|]. *)
Lemma binade_le (n : Z) (d : positive) :
  n ≠ 0 →
  (0 ≤ binade n d → Zpos d * 2 ^ binade n d ≤ Z.abs n)
  ∧ (binade n d < 0 → Zpos d ≤ Z.abs n * 2 ^ (- binade n d)).
Proof.
  intros Hn. unfold binade.
  assert (Ha : 0 < Z.abs n) by lia.
  destruct (Z.log2_spec (Z.abs n) Ha) as [Hla _].
  destruct (Z.log2_spec (Zpos d) ltac:(done)) as [_ Hld].
  pose proof (Z.log2_nonneg (Z.abs n)) as Hla0.
  pose proof (Z.log2_nonneg (Zpos d)) as Hld0.
  rewrite <- Z.add_1_r in Hld.
  generalize dependent (Z.log2 (Z.abs n)). intros la Hla Hla0.
  generalize dependent (Z.log2 (Zpos d)). intros ld Hld Hld0.
  remember (la - ld) as e eqn:Hdef.
  destruct (Z.leb_spec 0 e) as [He|He].
  - destruct (Z.leb_spec (Zpos d * 2 ^ e) (Z.abs n)) as [Hle|Hgt]; cbv iota.
    + split; [done|intros ?; lia].
    + split.
      * intros He1.
        assert (Hpow : 2 ^ la = 2 ^ (ld + 1) * 2 ^ (e - 1)).
        { rewrite <- Z.pow_add_r by lia. f_equal. lia. }
        assert (0 < 2 ^ (e - 1)) by (apply Z.pow_pos_nonneg; lia).
        nia.
      * intros He1. assert (e = 0) as -> by lia.
        assert (la = ld) as -> by lia.
        change (- (0 - 1)) with 1. rewrite Z.pow_add_r, Z.pow_1_r in Hld by lia.
        lia.
  - destruct (Z.leb_spec (Zpos d) (Z.abs n * 2 ^ (- e))) as [Hle|Hgt]; cbv iota.
    + split; [intros ?; lia|done].
    + split; [intros ?; lia|]. intros _.
      replace (- (e - 1)) with (ld + 1 - la) by lia.
      assert (Hpow : 2 ^ (ld + 1) = 2 ^ la * 2 ^ (ld + 1 - la)).
      { rewrite <- Z.pow_add_r by lia. f_equal. lia. }
      assert (0 < 2 ^ (ld + 1 - la)) by (apply Z.pow_pos_nonneg; lia).
      nia.
Qed.

(** From [2 ^ (-1022)] on, the Number value of a real differs from it by
    one part in [2 ^ 53] at most. *)
Lemma binary64_error (q : Q) :
  (1 <= Qabs q * inject_Z (2 ^ 1022))%Q →
  (Qabs (binary64 q - q) * inject_Z (2 ^ 53) <= Qabs q)%Q.
Proof.
  destruct q as [n dd]. intros Hq.
  assert (Hrange : Zpos dd ≤ Z.abs n * 2 ^ 1022).
  { unfold Qle in Hq. cbn [Qabs Qmult inject_Z Qnum Qden] in Hq.
    rewrite Pos.mul_1_r in Hq. lia. }
  assert (Hn : n ≠ 0) by (intros ->; cbn in Hrange; lia).
  unfold binary64. cbn [Qnum Qden].
  rewrite (proj2 (Z.eqb_neq n 0)) by done.
  destruct (binade_le n dd Hn) as [Hpos Hneg].
  set (e := Z.max (binade n dd) (-1022)).
  assert (He : (0 ≤ e → Zpos dd * 2 ^ e ≤ Z.abs n)
               ∧ (e < 0 → Zpos dd ≤ Z.abs n * 2 ^ (- e))).
  { subst e. destruct (Z.max_spec (binade n dd) (-1022)) as [[? ->]|[? ->]].
    - split; [lia|]. intros _. exact Hrange.
    - split; [apply Hpos|apply Hneg]. }
  clearbody e. clear Hpos Hneg Hrange Hq.
  destruct (Z.leb_spec 0 (e - 52)) as [Hk|Hk].
  - set (K := 2 ^ (e - 52)).
    assert (HK : 0 < K) by (by apply Z.pow_pos_nonneg).
    pose proof (round_half_even_error n (Zpos dd * K) ltac:(lia)) as Herr.
    set (R := round_half_even n (Zpos dd * K)) in *.
    assert (HeK : K * 2 ^ 52 = 2 ^ e).
    { subst K. rewrite <- Z.pow_add_r by lia. f_equal. lia. }
    destruct He as [He _]. specialize (He ltac:(lia)).
    assert (Hle : Z.pos dd * K * 2 ^ 52 ≤ Z.abs n)
      by (by rewrite <- Z.mul_assoc, HeK).
    assert (H53 : 2 ^ 53 = 2 * 2 ^ 52) by reflexivity. rewrite H53.
    assert (Hc : 0 < 2 ^ 52) by done.
    clear HeK He H53. remember (2 ^ 52) as c eqn:Hcdef. clear Hcdef.
    unfold Qle, Qabs, Qminus, Qplus, Qopp, Qmult, inject_Z. cbn [Qnum Qden].
    rewrite !Pos2Z.inj_mul.
    assert (HA : Z.abs (R * K * Z.pos dd + - n * 1) * 2 ≤ Z.pos dd * K) by lia.
    assert (HB : Z.abs (R * K * Z.pos dd + - n * 1) * (2 * c) ≤ Z.pos dd * K * c)
      by nia.
    nia.
  - set (P := 2 ^ (- (e - 52))).
    assert (HP : 0 < P) by (apply Z.pow_pos_nonneg; lia).
    pose proof (round_half_even_error (n * P) (Zpos dd) ltac:(lia)) as Herr.
    set (R := round_half_even (n * P) (Zpos dd)) in *.
    assert (H53 : 2 ^ 53 = 2 * 2 ^ 52) by reflexivity. rewrite H53.
    assert (Hc : 0 < 2 ^ 52) by done.
    assert (Hscale : Z.pos dd * 2 ^ 52 ≤ Z.abs n * P).
    { destruct He as [Hpos Hneg]. destruct (Z.le_gt_cases 0 e) as [He|He].
      - specialize (Hpos He).
        assert (HeP : 2 ^ e * P = 2 ^ 52).
        { subst P. rewrite <- Z.pow_add_r by lia. f_equal. lia. }
        rewrite <- HeP. nia.
      - specialize (Hneg He).
        assert (HeP : P = 2 ^ 52 * 2 ^ (- e)).
        { subst P. rewrite <- Z.pow_add_r by lia. f_equal. lia. }
        rewrite HeP. nia. }
    clear H53 He. remember (2 ^ 52) as c eqn:Hcdef. clear Hcdef.
    unfold Qle, Qabs, Qminus, Qplus, Qopp, Qmult, inject_Z. cbn [Qnum Qden].
    rewrite !Pos2Z.inj_mul, Z2Pos.id by done.
    assert (HA : Z.abs (R * Z.pos dd + - n * P) * 2 ≤ Z.pos dd) by lia.
    assert (HB : Z.abs (R * Z.pos dd + - n * P) * (2 * c) ≤ Z.abs n * P) by nia.
    nia.
Qed.

Lemma Qc_this_sub (a b : Qc) : (this (a - b)%Qc == this a - this b)%Q.
Proof.
  unfold Qcminus, Qcplus, Qcopp. cbn [this Q2Qc]. by rewrite !Qred_correct.
Qed.

Lemma Number_value_this (q : Qc) : (this (Number_value q) == binary64 q)%Q.
Proof. unfold Number_value. cbn [this Q2Qc]. by rewrite !Qred_correct. Qed.

(** X12. A price per square metre that is present is an integer within one half
    of the quotient as the division gives it, a half going up; and that
    quotient, the Number value of price/size, differs from price/size by
    one part in [2 ^ 53] at most when price/size is [2 ^ (-1022)] or more in
    absolute value. This is for a quotient within the range of Number,
    [2 ^ 1023] at most in absolute value. *)
Theorem pricePerM2_rounded (item : Raw.t) (uuids : supply) (v : number) :
  Derived.pricePerM2 (Item.derived (transformListing item uuids).1) = Some v →
  ∃ p s : Qc,
    Item.price (transformListing item uuids).1 = Some (Num p)
    ∧ Item.sizeM2 (transformListing item uuids).1 = Some (Num s)
    ∧ p ≠ 0%Qc ∧ s ≠ 0%Qc
    ∧ ((Qabs (p / s)%Qc <= inject_Z (2 ^ 1023))%Q →
       ∃ (z : Z) (d : Qc),
         v = of_Z z
         ∧ num_div (Num p) (Num s) = Num d
         ∧ (Q2Qc (inject_Z z) ≤ d + Q2Qc (1 # 2))%Qc
         ∧ (d + Q2Qc (1 # 2) < Q2Qc (inject_Z z) + 1)%Qc
         ∧ ((1 <= Qabs (p / s)%Qc * inject_Z (2 ^ 1022))%Q →
            (Qabs (d - p / s)%Qc * inject_Z (2 ^ 53) <= Qabs (p / s)%Qc)%Q)).
Proof.
  rewrite transformListing_pricePerM2. unfold pricePerM2_of.
  destruct (Item.sizeM2 _) as [[s|]|], (Item.price _) as [[p|]|];
    cbn [truthy_num]; try done.
  - destruct (bool_decide_reflect (s = 0%Qc)) as [Hs|Hs]; [done|].
    destruct (bool_decide_reflect (p = 0%Qc)) as [Hp|Hp]; [done|].
    cbn [negb andb]. intros [= <-]. exists p, s. split_and!; try done.
    intros _. unfold num_div. rewrite bool_decide_eq_false_2 by done.
    cbn [Math_round].
    destruct (round_Qc_bounds (Number_value (p / s))) as (z & Hz & Hle & Hlt).
    exists z, (Number_value (p / s)). unfold of_Z. rewrite Hz.
    split_and!; try done.
    intros Hnormal. rewrite Qc_this_sub, Number_value_this.
    by apply binary64_error.
  - by rewrite andb_false_r.
Qed.

(** ** Filtering and merging together *)

Lemma mergeScores_cons item items scores :
  mergeScores (item :: items) scores =
  match score_map scores !! Item.id item with
  | None => item
  | Some score => with_score item score
  end :: mergeScores items scores.
Proof. reflexivity. Qed.

Lemma keep_item_with_score params item score :
  keep_item params (with_score item score) = keep_item params item.
Proof. reflexivity. Qed.

(** X13. The filter does not read the score fields: filtering the merged
    listings is merging the filtered ones. *)
Theorem filter_merge_commute (params : Params.t) (items : list Item.t)
    (scores : list Score.t) :
  filter_items params (mergeScores items scores)
  = mergeScores (filter_items params items) scores.
Proof.
  induction items as [|x l IH]; [done|].
  rewrite mergeScores_cons, !filter_items_cons.
  destruct (score_map scores !! Item.id x) as [s|] eqn:Hs.
  - rewrite keep_item_with_score. destruct (keep_item params x); [|done].
    by rewrite mergeScores_cons, Hs, IH.
  - destruct (keep_item params x); [|done]. by rewrite mergeScores_cons, Hs, IH.
Qed.

(** X14. Merging keeps the identifiers, so merging the same scores again changes
    nothing; and merging no scores changes nothing. *)
Theorem mergeScores_idempotent (items : list Item.t) (scores : list Score.t) :
  Item.id <$> mergeScores items scores = Item.id <$> items
  ∧ mergeScores (mergeScores items scores) scores = mergeScores items scores
  ∧ mergeScores items [] = items.
Proof.
  split_and!.
  - induction items as [|x l IH]; [done|]. rewrite mergeScores_cons. cbn.
    rewrite IH. by destruct (score_map scores !! Item.id x).
  - induction items as [|x l IH]; [done|]. rewrite !mergeScores_cons, IH.
    destruct (score_map scores !! Item.id x) as [s|] eqn:Hs.
    + cbn [with_score Item.id]. by rewrite Hs.
    + by rewrite Hs.
  - induction items as [|x l IH]; [done|]. rewrite mergeScores_cons, IH.
    unfold score_map. cbn. by rewrite lookup_empty.
Qed.

(** ** The scoring routine as a whole *)

Section ScoringFurther.
Context {E : ECMAScript}.

Lemma clamp_range (n : number) :
  Math_min (of_Z 100) (Math_max (of_Z 0) n) = NaN
  ∨ within_0_100 (Math_min (of_Z 100) (Math_max (of_Z 0) n)).
Proof.
  destruct n as [q|]; [right|by left]. cbn. eexists. split; [done|].
  repeat case_bool_decide; split;
    try done; try (by apply Qclt_le_weak); try (by apply Qcnot_lt_le).
Qed.

Lemma or_else_not_null x fallback : fallback ≠ JNull → or_else x fallback ≠ JNull.
Proof. intros Hf. by destruct x as [[]|]. Qed.

(** Whatever the reply, the parsed score is within 0 and 100 or is [NaN],
    and the reason and the highlights are not [null]. *)
Lemma parseScore_shape (text : str) :
  (score (parseScore text) = NaN ∨ within_0_100 (score (parseScore text)))
  ∧ reasoning (parseScore text) ≠ JNull
  ∧ highlights (parseScore text) ≠ JNull.
Proof.
  assert (Hfail : (score parse_failure = NaN ∨ within_0_100 (score parse_failure))
                  ∧ reasoning parse_failure ≠ JNull
                  ∧ highlights parse_failure ≠ JNull).
  { split_and!; [right|done|done]. exists 0%Qc. split_and!; done. }
  unfold parseScore. destruct (JSON_parse text) as [parsed|]; [|done].
  destruct (get parsed (u16 "score")) as [s|]; [|done].
  destruct (get parsed (u16 "reasoning")) as [r|]; [|done].
  destruct (get parsed (u16 "highlights")) as [h|]; [|done].
  destruct (ToNumber s) as [n|]; [|done].
  cbn [score reasoning highlights]. split_and!.
  - apply clamp_range.
  - by apply or_else_not_null.
  - by apply or_else_not_null.
Qed.

Lemma score_of_well_scored item content : well_scored (score_of item content).
Proof.
  destruct (parseScore_shape (default (u16 "{}") content)) as (Hs & Hr & Hh).
  unfold well_scored, score_of. cbn. split_and!; eauto.
Qed.

(** What the loop returns, when it returns. *)
Lemma score_loop_Returns oracle n items acc results :
  score_loop oracle n items acc = Returns results →
  results = acc ++ imap (λ j x, score_of x (content_of (oracle (n + j)%nat x))) items
  ∧ ∀ j x, items !! j = Some x → ∃ content, oracle (n + j)%nat x = Completion content.
Proof.
  revert n acc results. induction items as [|x rest IH]; intros n acc results.
  - cbn. intros [= <-]. by rewrite app_nil_r.
  - cbn [score_loop]. destruct (oracle n x) as [e|content] eqn:Hx; [done|].
    intros [-> Hans]%IH. split.
    + rewrite <- app_assoc. cbn [imap app]. rewrite Nat.add_0_r, Hx.
      cbn [content_of]. do 2 f_equal. apply imap_ext. intros j y _. cbn.
      by rewrite Nat.add_succ_r.
    + intros [|j] y Hj.
      * injection Hj as <-. rewrite Nat.add_0_r. eauto.
      * rewrite Nat.add_succ_r. by apply (Hans j).
Qed.

(** When the loop throws: at the first request that is rejected. *)
Lemma score_loop_Throws oracle n items acc e :
  score_loop oracle n items acc = Throws e ↔
  ∃ i x, items !! i = Some x ∧ oracle (n + i)%nat x = Rejected e
    ∧ ∀ j y, (j < i)%nat → items !! j = Some y →
        ∃ content, oracle (n + j)%nat y = Completion content.
Proof.
  revert n acc. induction items as [|x rest IH]; intros n acc.
  - cbn. split; [done|]. by intros (i & y & ? & _).
  - cbn [score_loop]. destruct (oracle n x) as [e'|content] eqn:Hx.
    + split.
      * intros [= <-]. exists 0%nat, x. rewrite Nat.add_0_r.
        split_and!; [done|done|]. intros j y Hj. lia.
      * intros ([|i] & y & Hy & Hrej & Hbefore).
        -- injection Hy as <-. rewrite Nat.add_0_r in Hrej. congruence.
        -- destruct (Hbefore 0%nat x) as [c Hc]; [lia|done|].
           rewrite Nat.add_0_r in Hc. congruence.
    + rewrite IH. split.
      * intros (i & y & Hy & Hrej & Hbefore). exists (S i), y.
        rewrite Nat.add_succ_r. split_and!; [done|done|].
        intros [|j] z Hlt Hz.
        -- injection Hz as <-. rewrite Nat.add_0_r. eauto.
        -- rewrite Nat.add_succ_r. apply (Hbefore j); [lia|done].
      * intros ([|i] & y & Hy & Hrej & Hbefore).
        -- injection Hy as <-. rewrite Nat.add_0_r in Hrej. congruence.
        -- exists i, y. rewrite Nat.add_succ_r in Hrej. split_and!; [done|done|].
           intros j z Hlt Hz. specialize (Hbefore (S j) z).
           rewrite Nat.add_succ_r in Hbefore. apply Hbefore; [lia|done].
Qed.

(** X15. The routine throws in two situations only: there are listings to score
    and the API key is missing; or the key is there and a request is
    rejected, the error being that of the first rejected request and the
    results obtained before it being lost. *)
Theorem scoreRealEstateItems_throws (api_key : option str)
    (oracle : nat → Item.t → reply) (items : list Item.t) (e : str) :
  scoreRealEstateItems api_key oracle items = Throws e ↔
  items ≠ []
  ∧ ((when_truthy truthy_str api_key = None ∧ e = missing_key_message)
     ∨ (is_Some (when_truthy truthy_str api_key)
        ∧ ∃ i x, items !! i = Some x ∧ oracle i x = Rejected e
            ∧ ∀ j y, (j < i)%nat → items !! j = Some y →
                ∃ content, oracle j y = Completion content)).
Proof.
  unfold scoreRealEstateItems. destruct items as [|x rest].
  - split; [done|]. by intros [? _].
  - destruct (when_truthy truthy_str api_key) as [key|].
    + rewrite score_loop_Throws. split.
      * intros H. split; [done|]. right. split; [done|]. exact H.
      * intros [_ [[? _]|[_ H]]]; [done|]. exact H.
    + split.
      * intros [= <-]. split; [done|]. left. unfold missing_key_message.
        split; reflexivity.
      * unfold missing_key_message. intros [_ [[_ ->]|[[? ?] _]]]; [reflexivity|done].
Qed.

(** X16. When the routine returns, there was nothing to score, or the key
    is there and every request was answered. The results are one per
    listing, in the order of the listings and under their identifiers, each
    made from the reply to its own request, with a score within 0 and 100
    or [NaN] and a reason and highlights that are not [null]. *)
Theorem scoreRealEstateItems_returns_results (api_key : option str)
    (oracle : nat → Item.t → reply) (items : list Item.t)
    (results : list Score.t) :
  scoreRealEstateItems api_key oracle items = Returns results →
  (items = [] ∨ (is_Some (when_truthy truthy_str api_key) ∧ answered oracle items))
  ∧ results = imap (λ j x, score_of x (content_of (oracle j x))) items
  ∧ Score.id <$> results = Item.id <$> items
  ∧ Forall well_scored results.
Proof.
  intros Hrun.
  assert (Hshape : (items = [] ∨ (is_Some (when_truthy truthy_str api_key)
                                   ∧ answered oracle items))
                   ∧ results = imap (λ j x, score_of x (content_of (oracle j x))) items).
  { unfold scoreRealEstateItems in Hrun. destruct items as [|x rest].
    - injection Hrun as <-. split; [by left|done].
    - destruct (when_truthy truthy_str api_key) as [key|]; [|done].
      apply score_loop_Returns in Hrun as [-> Hans]. split; [|done].
      right. split; [done|]. exact Hans. }
  destruct Hshape as [Hwhen ->]. split_and!; [done|done| |].
  - apply list_eq. intros i. rewrite !list_lookup_fmap, list_lookup_imap.
    by destruct (items !! i).
  - clear Hrun Hwhen. apply Forall_forall. intros r Hr.
    apply elem_of_lookup_imap in Hr as (j & x & -> & _). apply score_of_well_scored.
Qed.

(** With distinct identifiers, the map holds every result under its own. *)
Lemma score_map_lookup_NoDup (results : list Score.t) (i : nat) (s : Score.t) :
  NoDup (Score.id <$> results) → results !! i = Some s →
  score_map results !! Score.id s = Some s.
Proof.
  intros Hnd Hi. rewrite <- (take_drop_middle results i s Hi).
  apply score_map_last. intros s' Hs' Hid.
  apply list_elem_of_lookup in Hs' as [j Hj]. rewrite lookup_drop in Hj.
  assert (Heq : (S i + j)%nat = i); [|lia].
  apply (NoDup_lookup (Score.id <$> results) _ _ (Score.id s) Hnd).
  - by rewrite list_lookup_fmap, Hj, <- Hid.
  - by rewrite list_lookup_fmap, Hi.
Qed.

(** X17. Scoring and then merging: when the identifiers of the listings are
    distinct and the routine returns, every listing comes back in its place
    with the score made from the reply to its own request. *)
Theorem score_then_merge (api_key : option str)
    (oracle : nat → Item.t → reply) (items : list Item.t)
    (results : list Score.t) :
  NoDup (Item.id <$> items) →
  scoreRealEstateItems api_key oracle items = Returns results →
  mergeScores items results
  = imap (λ j x, with_score x (score_of x (content_of (oracle j x)))) items.
Proof.
  intros Hnd Hrun.
  assert (Hres : results = imap (λ j x, score_of x (content_of (oracle j x))) items).
  { unfold scoreRealEstateItems in Hrun. destruct items as [|x rest].
    - by injection Hrun as <-.
    - destruct (when_truthy truthy_str api_key) as [key|]; [|done].
      by apply score_loop_Returns in Hrun as [-> _]. }
  assert (Hids : Score.id <$> results = Item.id <$> items).
  { rewrite Hres. apply list_eq. intros i.
    rewrite !list_lookup_fmap, list_lookup_imap. by destruct (items !! i). }
  apply list_eq. intros i. rewrite list_lookup_imap.
  destruct (items !! i) as [x|] eqn:Hi.
  - rewrite (mergeScores_lookup _ _ _ _ Hi). cbn. f_equal.
    assert (Hr : results !! i = Some (score_of x (content_of (oracle i x)))).
    { by rewrite Hres, list_lookup_imap, Hi. }
    rewrite <- Hids in Hnd.
    pose proof (score_map_lookup_NoDup results i _ Hnd Hr) as Hm.
    change (Score.id (score_of x (content_of (oracle i x)))) with (Item.id x) in Hm.
    by rewrite Hm.
  - unfold mergeScores. by rewrite list_lookup_fmap, Hi.
Qed.
End ScoringFurther.

(** ** Trimming and the normalisation of the payload *)

Lemma trimStart_blank (pre t : str) : blank pre → trimStart (pre ++ t) = trimStart t.
Proof.
  induction 1 as [|c pre Hc _ IH]; [done|]. cbn [app trimStart]. by rewrite Hc.
Qed.

Lemma trimStart_head (t : str) :
  (∀ c, head t = Some c → is_space c = false) → trimStart t = t.
Proof.
  destruct t as [|c t]; [done|]. intros Hc. cbn [trimStart].
  by rewrite (Hc c eq_refl).
Qed.

Lemma trimStart_decomp (s : str) :
  ∃ pre, s = pre ++ trimStart s ∧ blank pre
    ∧ ∀ c, head (trimStart s) = Some c → is_space c = false.
Proof.
  induction s as [|c s (pre & Hs & Hpre & Hhead)].
  - exists []. split_and!; [done|constructor|done].
  - cbn [trimStart]. destruct (is_space c) eqn:Hc.
    + exists (c :: pre). split_and!; [by cbn; f_equal|by constructor|done].
    + exists []. split_and!; [done|constructor|]. by intros ? [= <-].
Qed.

Lemma trimEnd_blank (post : str) : blank post → trimEnd post = [].
Proof.
  induction 1 as [|c post Hc _ IH]; [done|]. cbn [trimEnd]. by rewrite IH, Hc.
Qed.

Lemma trimEnd_app_blank (t post : str) : blank post → trimEnd (t ++ post) = trimEnd t.
Proof.
  intros Hpost. induction t as [|c t IH]; [by apply trimEnd_blank|].
  cbn [app trimEnd]. by rewrite IH.
Qed.

Lemma trimEnd_last (t : str) (c : N) :
  last t = Some c → is_space c = false → trimEnd t = t.
Proof.
  intros Hlast Hc. induction t as [|c0 t IH]; [done|].
  cbn [trimEnd]. destruct t as [|c1 t].
  - injection Hlast as ->. cbn. by rewrite Hc.
  - rewrite IH by done. done.
Qed.

Lemma trimEnd_decomp (s : str) :
  ∃ post, s = trimEnd s ++ post ∧ blank post
    ∧ ∀ c, last (trimEnd s) = Some c → is_space c = false.
Proof.
  induction s as [|c s (post & Hs & Hpost & Hlast)].
  - exists []. split_and!; [done|constructor|done].
  - cbn [trimEnd]. destruct (trimEnd s) as [|k ks] eqn:Hk.
    + cbn in Hs. subst post. destruct (is_space c) eqn:Hc.
      * exists (c :: s). split_and!; [done|by constructor|done].
      * exists s. split_and!; [done|done|]. by intros ? [= <-].
    + exists post. split_and!; [by rewrite Hs at 1|done|exact Hlast].
Qed.

Lemma trimEnd_head (t : str) : trimEnd t ≠ [] → head (trimEnd t) = head t.
Proof.
  destruct t as [|c t]; [done|]. cbn [trimEnd].
  destruct (trimEnd t); [|done]. by destruct (is_space c).
Qed.

Lemma trim_trimmed (s : str) : trimmed (trim s).
Proof.
  unfold trim. destruct (trimStart_decomp s) as (pre & _ & _ & Hhead).
  destruct (trimEnd_decomp (trimStart s)) as (post & _ & _ & Hlast).
  split; [|exact Hlast]. intros c Hc. apply Hhead. rewrite <- Hc.
  symmetry. apply trimEnd_head. intros Hnil. by rewrite Hnil in Hc.
Qed.

(** Trimming is characterised by what it leaves: the trimmed text is the
    one text with no white space at either end that the input holds between
    two runs of white space. *)
Lemma trim_spec (s w : str) :
  trim s = w ↔
  ∃ pre post, s = pre ++ w ++ post ∧ blank pre ∧ blank post ∧ trimmed w.
Proof.
  split.
  - intros <-. destruct (trimStart_decomp s) as (pre & Hs & Hpre & _).
    destruct (trimEnd_decomp (trimStart s)) as (post & Ht & Hpost & _).
    exists pre, post. split_and!; [|done|done|apply trim_trimmed].
    unfold trim. by rewrite <- Ht.
  - intros (pre & post & -> & Hpre & Hpost & Hhead & Hlast).
    unfold trim. rewrite trimStart_blank by done.
    destruct w as [|c w].
    + cbn [app]. destruct (trimStart_decomp post) as (pre' & Hp & _ & _).
      apply trimEnd_blank. rewrite Hp in Hpost.
      by apply Forall_app in Hpost as [_ ?].
    + rewrite trimStart_head; [|intros c' [= <-]; by apply Hhead].
      rewrite trimEnd_app_blank by done.
      destruct (last (c :: w)) as [c'|] eqn:Hc'; [|by apply last_None in Hc'].
      apply (trimEnd_last _ c'); [done|by apply Hlast].
Qed.

(** X18. What the normalisation gives: a city with no white space at either
    end, which is empty for a city made of white space only, however long;
    the three limits as they are; and for keywords the trimmed keywords of
    the payload that are not empty, in their order, none for a payload
    without keywords. *)
Theorem normalizePayload_clean (payload : Payload.t) :
  trimmed (Params.city (normalizePayload payload))
  ∧ (blank (Payload.city payload) ↔ Params.city (normalizePayload payload) = [])
  ∧ Forall (λ k, k ≠ [] ∧ trimmed k) (Params.keywords (normalizePayload payload))
  ∧ Params.keywords (normalizePayload payload)
    `sublist_of` trim <$> default [] (Payload.keywords payload)
  ∧ (∀ k, k ∈ default [] (Payload.keywords payload) → ¬ blank k →
          trim k ∈ Params.keywords (normalizePayload payload)).
Proof.
  unfold normalizePayload. cbn. split_and!.
  - apply trim_trimmed.
  - rewrite trim_spec. split.
    + intros Hb. exists (Payload.city payload), [].
      rewrite !app_nil_r. split_and!; [done|done|constructor|done].
    + intros (pre & post & -> & Hpre & Hpost & _). cbn. by apply Forall_app.
  - destruct (Payload.keywords payload) as [ks|]; [|constructor].
    apply Forall_forall. intros k [Hk [k0 [-> _]]%list_elem_of_fmap]%list_elem_of_filter.
    split; [by destruct (trim k0)|apply trim_trimmed].
  - destruct (Payload.keywords payload) as [ks|]; [|done]. apply sublist_filter.
  - destruct (Payload.keywords payload) as [ks|]; [|by intros k ?%elem_of_nil].
    cbn. intros k Hk Hnb. apply list_elem_of_filter. split.
    + destruct (trim k) as [|c w] eqn:Ht; [|done]. exfalso. apply Hnb.
      apply trim_spec in Ht as (pre & post & -> & Hpre & Hpost & _).
      cbn. by apply Forall_app.
    + apply list_elem_of_fmap. eauto.
Qed.

(** X19. The filter reads two of the search parameters only: the limit on the
    price per square metre and the least number of rooms. The city, the
    limit on the price and the keywords have no effect on what
    [postProcessListings] returns. *)
Theorem filter_reads_two_limits (listings : list Raw.t) (params params' : Params.t)
    (rnd uuids : supply) :
  Params.priceM2Max params = Params.priceM2Max params' →
  Params.roomsFrom params = Params.roomsFrom params' →
  postProcessListings listings params rnd uuids
  = postProcessListings listings params' rnd uuids.
Proof.
  intros Hprice Hrooms. unfold postProcessListings, filter_items.
  apply list_filter_iff. intros item. unfold keep_item.
  by rewrite Hprice, Hrooms.
Qed.

(** ** The input of the scraper *)

Lemma property_city params :
  property (buildActorInput params) (u16 "city") = Some (FStr (Params.city params)).
Proof. done. Qed.

Ltac read_property :=
  unfold buildActorInput;
  repeat match goal with
         | |- context [when_truthy truthy_num ?o] =>
             destruct (when_truthy truthy_num o)
         | |- context [match Params.keywords ?p with _ => _ end] =>
             destruct (Params.keywords p)
         end;
  reflexivity.

Lemma property_priceMax params :
  property (buildActorInput params) (u16 "priceMax")
  = FNum <$> when_truthy truthy_num (Params.priceMax params).
Proof. read_property. Qed.

Lemma property_priceM2Max params :
  property (buildActorInput params) (u16 "priceM2Max")
  = FNum <$> when_truthy truthy_num (Params.priceM2Max params).
Proof. read_property. Qed.

Lemma property_roomsFrom params :
  property (buildActorInput params) (u16 "roomsFrom")
  = FNum <$> when_truthy truthy_num (Params.roomsFrom params).
Proof. read_property. Qed.

Lemma property_keywords params :
  property (buildActorInput params) (u16 "keywords")
  = match Params.keywords params with
    | [] => None
    | keywords => Some (FList keywords)
    end.
Proof. read_property. Qed.

(** X20. The input of the scraper carries the search parameters in full when the
    limits that are given are truthy: two such parameter sets with the same
    input are the same. *)
Theorem buildActorInput_injective (params params' : Params.t) :
  usable_limits params → usable_limits params' →
  buildActorInput params = buildActorInput params' →
  params = params'.
Proof.
  intros (H1 & H2 & H3) (H1' & H2' & H3') Heq.
  pose proof (property_city params) as Hc.
  pose proof (property_priceMax params) as Hp.
  pose proof (property_priceM2Max params) as Hm.
  pose proof (property_roomsFrom params) as Hr.
  pose proof (property_keywords params) as Hk.
  rewrite Heq in Hc, Hp, Hm, Hr, Hk.
  rewrite property_city in Hc. rewrite property_priceMax in Hp.
  rewrite property_priceM2Max in Hm. rewrite property_roomsFrom in Hr.
  rewrite property_keywords in Hk.
  rewrite H1, H1' in Hp. rewrite H2, H2' in Hm. rewrite H3, H3' in Hr.
  destruct params as [c p m r k], params' as [c' p' m' r' k']. cbn in *.
  f_equal.
  - congruence.
  - by destruct p, p'; simplify_eq/=.
  - by destruct m, m'; simplify_eq/=.
  - by destruct r, r'; simplify_eq/=.
  - by destruct k, k'; simplify_eq/=.
Qed.

(** ** The polling loop *)

(** From request number [i] on, with the clock that far ahead, the loop
    ends within the 60 requests whatever fuel above that it is given. *)
Lemma poll_loop_bounded (now : nat → Z) (statusResponse : nat → status_reply)
    (start : Z) (k i : nat) :
  (i + k = 60)%nat →
  (∀ j, now (S j) + POLL_INTERVAL_MS ≤ now (S (S j))) →
  start + POLL_INTERVAL_MS * Z.of_nat i ≤ now (S i) →
  ∃ r n, (n ≤ 60)%nat
    ∧ (∀ fuel, (k < fuel)%nat → poll_loop fuel now statusResponse start i = Some (r, n))
    ∧ ∀ datasetId, r = Returns datasetId →
        datasetId ≠ []
        ∧ ∃ j, (j < n)%nat
            ∧ statusResponse j = StatusRun (u16 "SUCCEEDED") (Some datasetId).
Proof.
  unfold POLL_INTERVAL_MS. intros Hk Hsleep. revert i Hk.
  induction k as [|k IH]; intros i Hk Hi.
  - exists (Throws (u16 "Apify run polling timed out")), i.
    split_and!; [lia| |done].
    intros [|fuel] Hfuel; [lia|]. cbn [poll_loop]. unfold MAX_POLL_DURATION_MS.
    rewrite bool_decide_eq_false_2; [done|lia].
  - destruct (IH (S i)) as (r & n & Hn & Hrun & Hret).
    { lia. } { specialize (Hsleep i). lia. }
    destruct (decide (now (S i) - start < MAX_POLL_DURATION_MS)) as [Hlt|Hge].
    2:{ exists (Throws (u16 "Apify run polling timed out")), i.
        split_and!; [lia| |done].
        intros [|fuel] Hfuel; [lia|]. cbn [poll_loop].
        by rewrite bool_decide_eq_false_2. }
    destruct (statusResponse i) as [error|text|status defaultDatasetId] eqn:Hreply.
    + exists (Throws error), (S i). split_and!; [lia| |done].
      intros [|fuel] Hfuel; [lia|]. cbn [poll_loop].
      by rewrite bool_decide_eq_true_2, Hreply.
    + exists (Throws (u16 "Failed to poll Apify run: " ++ text)), (S i).
      split_and!; [lia| |done].
      intros [|fuel] Hfuel; [lia|]. cbn [poll_loop].
      by rewrite bool_decide_eq_true_2, Hreply.
    + destruct (decide (status = u16 "SUCCEEDED")) as [->|Hs].
      * destruct (when_truthy truthy_str defaultDatasetId) as [datasetId|] eqn:Hd.
        -- exists (Returns datasetId), (S i). split_and!; [lia| |].
           ++ intros [|fuel] Hfuel; [lia|]. cbn [poll_loop].
              rewrite bool_decide_eq_true_2, Hreply by done.
              by rewrite bool_decide_eq_true_2, Hd.
           ++ intros ? [= <-]. destruct defaultDatasetId as [[|c d']|]; try done.
              cbn in Hd. injection Hd as <-. split; [done|].
              exists i. split; [lia|done].
        -- exists (Throws (u16 "Apify run succeeded but dataset id missing")), (S i).
           split_and!; [lia| |done].
           intros [|fuel] Hfuel; [lia|]. cbn [poll_loop].
           rewrite bool_decide_eq_true_2, Hreply by done.
           by rewrite bool_decide_eq_true_2, Hd.
      * destruct (decide (status ∈ [u16 "FAILED"; u16 "ABORTED"; u16 "TIMED-OUT"]))
          as [Hended|Hrunning].
        -- exists (Throws (u16 "Apify run ended with status " ++ status)), (S i).
           split_and!; [lia| |done].
           intros [|fuel] Hfuel; [lia|]. cbn [poll_loop].
           rewrite bool_decide_eq_true_2, Hreply by done.
           rewrite bool_decide_eq_false_2 by done.
           by rewrite bool_decide_eq_true_2.
        -- exists r, n. split_and!; [done| |].
           ++ intros [|fuel] Hfuel; [lia|]. cbn [poll_loop].
              rewrite bool_decide_eq_true_2, Hreply by done.
              rewrite !bool_decide_eq_false_2 by done.
              apply Hrun. lia.
           ++ exact Hret.
Qed.

(** X21. With a clock that advances by the polling interval between two tests,
    the polling ends: after 60 status requests at most it has returned or
    thrown, and given fuel for 61 rounds or more the loop gives that same
    result. A dataset identifier it returns is not empty and is the one of
    a status reply that reported the run as succeeded. *)
Theorem pollRunForDataset_ends (now : nat → Z) (statusResponse : nat → status_reply) :
  clock_advances now →
  ∃ r n, (n ≤ 60)%nat
    ∧ (∀ fuel, (60 < fuel)%nat →
         pollRunForDataset fuel now statusResponse = Some (r, n))
    ∧ ∀ datasetId, r = Returns datasetId →
        datasetId ≠ []
        ∧ ∃ j, (j < n)%nat
            ∧ statusResponse j = StatusRun (u16 "SUCCEEDED") (Some datasetId).
Proof.
  intros [Hstart Hsleep]. unfold pollRunForDataset.
  apply (poll_loop_bounded now statusResponse (now 0%nat) 60 0); [done|done|].
  unfold POLL_INTERVAL_MS. lia.
Qed.

(** ** The handler of [/api/search] *)

#[local] Arguments u16 : simpl never.

Section HandlerProperties.
Context {E : ECMAScript}.

Lemma getSupabaseClient_cases (w : services) :
  (getSupabaseClient w = (Returns (), [])
   ∧ is_Some (when_truthy truthy_str (SUPABASE_URL w))
   ∧ is_Some (when_truthy truthy_str (SUPABASE_KEY w)))
  ∨ (getSupabaseClient w
     = (Throws (u16 "Supabase environment variables are missing"), [])
     ∧ (when_truthy truthy_str (SUPABASE_URL w) = None
        ∨ when_truthy truthy_str (SUPABASE_KEY w) = None)).
Proof.
  unfold getSupabaseClient.
  destruct (when_truthy truthy_str (SUPABASE_URL w));
    destruct (when_truthy truthy_str (SUPABASE_KEY w)); eauto 6.
Qed.

(** The run of the handler, stage by stage: one goal for each place where
    it ends. *)
Ltac replies :=
  cbn; unfold mbind, M_bind; cbn;
  repeat match goal with
         | H : ?x = _ |- context [match ?x with _ => _ end] => rewrite H; cbn
         end.

Ltac run_handler w req :=
  unfold handler;
  destruct (decide (Request.method req = Some (u16 "POST"))) as [Hmethod|Hmethod];
  [rewrite bool_decide_eq_false_2 by (by intros ?);
   unfold search, persistSearch;
   destruct (searchSchema_parse w (Request.body req))
     as [parsed|error] eqn:Hparse;
   [destruct (getSupabaseClient_cases w) as [(-> & Hurl & Hkey)|[-> Henv]];
    [destruct (searches_insert w (Request.x_user_id req) parsed)
       as [message|searchId] eqn:Hsearch;
     [|destruct (fetchListingsFromApify w (normalizePayload parsed))
         as [rawListings|error] eqn:Hfetch;
       [destruct (enrichedResults w req parsed
                    (postProcessListings rawListings (normalizePayload parsed)
                       (randomUUID_keys w) (randomUUID_ids w)))
          as [[enriched|error] scoreCalls] eqn:Henrich;
        [destruct (persistResults w searchId enriched)
           as [[[]|error] storeCalls] eqn:Hstore|]|]]|]|]
  |rewrite bool_decide_eq_true_2 by done];
  replies.

Lemma getBaseUrl_truthy (w : services) (req : Request.t) :
  when_truthy truthy_str (getBaseUrl w req) = getBaseUrl w req.
Proof.
  unfold getBaseUrl.
  destruct (INTERNAL_API_BASE_URL w) as [[|c base]|]; cbn; try done.
  all: destruct (Request.host req) as [[|c host]|]; cbn; try done.
  all: by destruct (default (u16 "http") (Request.x_forwarded_proto req)).
Qed.

Lemma local_scoring_run (w : services) (items : list Item.t) :
  local_scoring w items
  = (scoreRealEstateItems (OPENAI_API_KEY w) (completions w) items,
     [LocalScoring items]).
Proof.
  unfold local_scoring, lift. cbn.
  by destruct (scoreRealEstateItems (OPENAI_API_KEY w) (completions w) items).
Qed.

(** The three ways a scoring request goes. *)
Lemma requestAiScoring_cases (w : services) (req : Request.t) (items : list Item.t) :
  (getBaseUrl w req = None
   ∧ requestAiScoring w req items
     = (scoreRealEstateItems (OPENAI_API_KEY w) (completions w) items,
        [LocalScoring items]))
  ∨ ∃ baseUrl, getBaseUrl w req = Some baseUrl
      ∧ ((score_endpoint w (baseUrl ++ u16 "/api/score") items = Unavailable
          ∧ requestAiScoring w req items
            = (scoreRealEstateItems (OPENAI_API_KEY w) (completions w) items,
               [PostScore (baseUrl ++ u16 "/api/score") items; LocalScoring items]))
         ∨ ∃ results,
             score_endpoint w (baseUrl ++ u16 "/api/score") items = Results results
             ∧ requestAiScoring w req items
               = (Returns results, [PostScore (baseUrl ++ u16 "/api/score") items])).
Proof.
  unfold requestAiScoring. rewrite getBaseUrl_truthy.
  destruct (getBaseUrl w req) as [baseUrl|].
  - right. exists baseUrl. split; [done|].
    destruct (score_endpoint w (baseUrl ++ u16 "/api/score") items) as [|results].
    + left. split; [done|]. rewrite local_scoring_run. cbn.
      by destruct (scoreRealEstateItems (OPENAI_API_KEY w) (completions w) items).
    + right. by exists results.
  - left. split; [done|]. apply local_scoring_run.
Qed.

Lemma requestAiScoring_calls (w : services) (req : Request.t) (items : list Item.t) :
  Forall scoring_call (requestAiScoring w req items).2.
Proof.
  destruct (requestAiScoring_cases w req items)
    as [[_ ->]|(baseUrl & _ & [[_ ->]|(results & _ & ->)])]; cbn;
    repeat constructor.
Qed.

Lemma with_score_raw item score : Item.raw (with_score item score) = Item.raw item.
Proof. done. Qed.

Lemma mergeScores_raw items scores :
  Item.raw <$> mergeScores items scores = Item.raw <$> items.
Proof.
  unfold mergeScores. rewrite <- list_fmap_compose. apply list_fmap_ext.
  intros _ item _. cbn. by destruct (score_map scores !! Item.id item).
Qed.

Lemma mergeScores_id items scores :
  Item.id <$> mergeScores items scores = Item.id <$> items.
Proof.
  unfold mergeScores. rewrite <- list_fmap_compose. apply list_fmap_ext.
  intros _ item _. cbn. by destruct (score_map scores !! Item.id item).
Qed.

(** The two ways the results are enriched. *)
Lemma enrichedResults_cases (w : services) (req : Request.t) (parsed : Payload.t)
    (items : list Item.t) :
  (Payload.aiScoring parsed ≠ Some true
   ∧ enrichedResults w req parsed items = (Returns items, []))
  ∨ (Payload.aiScoring parsed = Some true
     ∧ ((∃ error, (requestAiScoring w req items).1 = Throws error
           ∧ enrichedResults w req parsed items
             = (Throws error, (requestAiScoring w req items).2))
        ∨ ∃ scoreResults, (requestAiScoring w req items).1 = Returns scoreResults
            ∧ enrichedResults w req parsed items
              = (Returns (mergeScores items scoreResults),
                 (requestAiScoring w req items).2))).
Proof.
  unfold enrichedResults. case_bool_decide as Hai; [right|by left].
  split; [done|].
  destruct (requestAiScoring w req items) as [[scoreResults|error] calls]; cbn.
  - right. exists scoreResults. by rewrite app_nil_r.
  - left. by exists error.
Qed.

(** The ways the results are persisted. *)
Lemma persistResults_cases (w : services) (searchId : str) (items : list Item.t) :
  (items = [] ∧ persistResults w searchId items = (Returns (), []))
  ∨ (items ≠ []
     ∧ ((persistResults w searchId items
         = (Throws (u16 "Supabase environment variables are missing"), []))
        ∨ (∃ message, results_insert w (rows_of searchId items) = Some message
             ∧ persistResults w searchId items
               = (Throws (u16 "Failed to persist results: " ++ message),
                  [InsertResults (rows_of searchId items)]))
        ∨ (results_insert w (rows_of searchId items) = None
           ∧ persistResults w searchId items
             = (Returns (), [InsertResults (rows_of searchId items)])))).
Proof.
  destruct items as [|x items]; [by left|right]. split; [done|].
  unfold persistResults.
  destruct (getSupabaseClient_cases w) as [(-> & _ & _)|[-> _]]; [|by left].
  right. cbn. destruct (results_insert w _) as [message|].
  - left. by exists message.
  - by right.
Qed.

Lemma transformListing_unscored item uuids :
  Item.aiScore (transformListing item uuids).1 = None.
Proof. unfold transformListing. by destruct (createId item uuids). Qed.

Lemma postProcessListings_unscored listings params rnd uuids :
  Forall (λ x, Item.aiScore x = None) (postProcessListings listings params rnd uuids).
Proof.
  apply Forall_forall. intros x Hx.
  eapply sublist_elem_of in Hx; [|apply postProcessListings_sublist].
  apply map_transformListing_elem in Hx as [uuids' ->].
  apply transformListing_unscored.
Qed.

Lemma enrichedResults_calls (w : services) (req : Request.t) (parsed : Payload.t)
    (items : list Item.t) :
  Forall scoring_call (enrichedResults w req parsed items).2.
Proof.
  destruct (enrichedResults_cases w req parsed items)
    as [[_ ->]|[_ [(error & _ & ->)|(scoreResults & _ & ->)]]];
    [constructor|apply requestAiScoring_calls..].
Qed.

Lemma enrichedResults_Returns (w : services) (req : Request.t) (parsed : Payload.t)
    (items enriched : list Item.t) (calls : list event) :
  enrichedResults w req parsed items = (Returns enriched, calls) →
  Item.raw <$> enriched = Item.raw <$> items
  ∧ Item.id <$> enriched = Item.id <$> items.
Proof.
  destruct (enrichedResults_cases w req parsed items)
    as [[_ ->]|[_ [(error & _ & ->)|(scoreResults & _ & ->)]]];
    intros [= <- <-]; [done|].
  by rewrite mergeScores_raw, mergeScores_id.
Qed.

(** X22. No call goes out for a request that is not a POST, for a body the
    schema rejects, or when the store is not configured. For every other
    request the first call is the insertion of the search, whatever happens
    afterwards: a search that fails later has been recorded. *)
Theorem handler_first_call (w : services) (req : Request.t) :
  ((handler w req).2 ≠ []
   ↔ Request.method req = Some (u16 "POST")
     ∧ (∃ parsed, searchSchema_parse w (Request.body req) = Returns parsed)
     ∧ is_Some (when_truthy truthy_str (SUPABASE_URL w))
     ∧ is_Some (when_truthy truthy_str (SUPABASE_KEY w)))
  ∧ ∀ e, head (handler w req).2 = Some e →
      ∃ parsed, searchSchema_parse w (Request.body req) = Returns parsed
        ∧ e = InsertSearch (Request.x_user_id req) parsed.
Proof.
  run_handler w req.
  all: try (destruct Henv as [Henv|Henv]; rewrite Henv).
  all: split; [split; [intros ?|intros (? & [? ?] & [? ?] & [? ?])]
              |intros ? [= <-]].
  all: try done. all: by eauto 10.
Qed.

(** X23. A response with the status 200 means that the body was valid, the
    search was stored and the listings were fetched. Its results refer, in
    order, to raw listings that were fetched, under the identifiers the
    pipeline gave them. When there are results the last call of the run is
    the insertion of one row for each of them, which the store accepted;
    when there are none, no insertion of results is attempted. *)
Theorem handler_ok (w : services) (req : Request.t) :
  status (handler w req).1 = 200%N →
  ∃ parsed searchId rawListings results,
    Request.method req = Some (u16 "POST")
    ∧ searchSchema_parse w (Request.body req) = Returns parsed
    ∧ searches_insert w (Request.x_user_id req) parsed = DbData searchId
    ∧ fetchListingsFromApify w (normalizePayload parsed) = Returns rawListings
    ∧ json (handler w req).1 = SearchResponse searchId results
    ∧ Item.raw <$> results `sublist_of` rawListings
    ∧ Item.id <$> results
      = Item.id <$> postProcessListings rawListings (normalizePayload parsed)
                      (randomUUID_keys w) (randomUUID_ids w)
    ∧ (results = [] →
       Forall (λ e, ∀ rows, e ≠ InsertResults rows) (handler w req).2)
    ∧ (results ≠ [] →
       last (handler w req).2 = Some (InsertResults (rows_of searchId results))
       ∧ results_insert w (rows_of searchId results) = None).
Proof.
  run_handler w req; try done.
  intros _. exists parsed, searchId, rawListings, enriched.
  pose proof (enrichedResults_calls w req parsed
                (postProcessListings rawListings (normalizePayload parsed)
                   (randomUUID_keys w) (randomUUID_ids w))) as Hcalls.
  rewrite Henrich in Hcalls. cbn in Hcalls.
  apply enrichedResults_Returns in Henrich as [Hraw Hid].
  split_and!; try done.
  - rewrite Hraw. apply postProcessListings_raw.
  - intros ->. cbn in Hstore. injection Hstore as <-. rewrite !app_nil_r.
    repeat constructor; try done.
    eapply Forall_impl; [exact Hcalls|]. intros e He rows ->. exact He.
  - intros Hne. rewrite app_nil_r.
    destruct (persistResults_cases w searchId enriched)
      as [[-> _]|[_ [Hp|[(message & _ & Hp)|[Hins Hp]]]]];
      [done|congruence..|].
    rewrite Hp in Hstore. injection Hstore as <-. split; [|done].
    rewrite !app_comm_cons. apply last_snoc.
Qed.

(** X24. Unless the payload asks for it with [aiScoring: true], no scoring call
    is made, and the results of the response are the processed listings as
    they are, none of them with a score. *)
Theorem handler_no_scoring_unless_asked (w : services) (req : Request.t)
    (payload : Payload.t) :
  searchSchema_parse w (Request.body req) = Returns payload →
  Payload.aiScoring payload ≠ Some true →
  Forall (λ e, ¬ scoring_call e) (handler w req).2
  ∧ ∀ searchId results,
      json (handler w req).1 = SearchResponse searchId results →
      Forall (λ x, Item.aiScore x = None) results
      ∧ ∃ rawListings,
          fetchListingsFromApify w (normalizePayload payload) = Returns rawListings
          ∧ results = postProcessListings rawListings (normalizePayload payload)
                        (randomUUID_keys w) (randomUUID_ids w).
Proof.
  intros Hvalid Hoff. run_handler w req.
  all: simplify_eq.
  all: try (destruct (enrichedResults_cases w req payload
                (postProcessListings rawListings (normalizePayload payload)
                   (randomUUID_keys w) (randomUUID_ids w)))
             as [[_ Hen]|[? _]]; [|done];
            rewrite Hen in Henrich; simplify_eq).
  all: try (destruct (persistResults_cases w searchId
                (postProcessListings rawListings (normalizePayload payload)
                   (randomUUID_keys w) (randomUUID_ids w)))
             as [[_ Hp]|[_ [Hp|[(? & _ & Hp)|[_ Hp]]]]];
            rewrite Hp in Hstore; simplify_eq).
  all: split; [repeat constructor; by intros []|].
  all: intros ? ? [= <- <-] || (intros ? ?; discriminate).
  all: split; [apply postProcessListings_unscored|by eexists].
Qed.

(** X25. The base URL, when one is found, is not empty, so that the test made on
    it tells only whether one was found; and none is found exactly when the
    variable of the environment and the [host] header are both missing or
    empty. *)
Theorem getBaseUrl_resolved (w : services) (req : Request.t) :
  (getBaseUrl w req = None
   ↔ when_truthy truthy_str (INTERNAL_API_BASE_URL w) = None
     ∧ when_truthy truthy_str (Request.host req) = None)
  ∧ ∀ baseUrl, getBaseUrl w req = Some baseUrl → baseUrl ≠ [].
Proof.
  split.
  - unfold getBaseUrl.
    destruct (when_truthy truthy_str (INTERNAL_API_BASE_URL w));
      destruct (when_truthy truthy_str (Request.host req));
      split; first [done | by intros [? ?]].
  - intros baseUrl Hb. pose proof (getBaseUrl_truthy w req) as Ht.
    rewrite Hb in Ht. by destruct baseUrl.
Qed.

(** X26. A scoring request throws only when the local scoring routine does: a
    failure of the scoring endpoint is never passed on. The local routine
    was then the last thing called, with listings to score, and the
    endpoint, if it was called at all, had failed. *)
Theorem requestAiScoring_throws (w : services) (req : Request.t)
    (items : list Item.t) (error : str) :
  (requestAiScoring w req items).1 = Throws error →
  items ≠ []
  ∧ scoreRealEstateItems (OPENAI_API_KEY w) (completions w) items = Throws error
  ∧ last (requestAiScoring w req items).2 = Some (LocalScoring items)
  ∧ ∀ url, PostScore url items ∈ (requestAiScoring w req items).2 →
      score_endpoint w url items = Unavailable.
Proof.
  destruct (requestAiScoring_cases w req items)
    as [[_ ->]|(baseUrl & _ & [[Hun ->]|(results & _ & ->)])]; cbn; [| |done].
  - intros Hlocal. split_and!; [by intros ->|done|done|].
    intros url [[=]|?%elem_of_nil]%elem_of_cons; done.
  - intros Hlocal. split_and!; [by intros ->|done|done|].
    intros url [[= ->]|[[=]|?%elem_of_nil]%elem_of_cons]%elem_of_cons; done.
Qed.
End HandlerProperties.

(** ** The properties at work on examples *)

(** The label "2+kk" found in "Byt 2+kk". *)
Lemma layout_label_shape_witness :
  (∃ pre post, u16 "Byt 2+kk" = pre ++ u16 "2+kk" ++ post)
  ∧ layout_word (u16 "2+kk").
Proof. apply layout_label_shape. vm_compute. reflexivity. Defined.

(** The size 55 found in "byt 55 m2". *)
Lemma parseSize_shape_witness :
  ∃ pre number unit post,
    u16 "byt 55 m2" = pre ++ number ++ unit ++ post
    ∧ decimal_word number ∧ unit_word unit
    ∧ of_Z 55 = parseFloat number
    ∧ ∃ q, of_Z 55 = Num q ∧ (0 ≤ q)%Qc.
Proof. apply parseSize_shape. vm_compute. reflexivity. Defined.

(** Two listings of one URL and a third of another. *)
Lemma postProcessListings_distinct_urls_witness :
  NoDup (Item.url <$>
           postProcessListings
             [titled (u16 "u1") (u16 "a"); titled (u16 "u1") (u16 "b");
              titled (u16 "u2") (u16 "c")]
             (rooms_from 1) (λ _, u16 "k") (λ _, u16 "u")).
Proof.
  apply postProcessListings_distinct_urls.
  repeat constructor; by eexists.
Defined.

Lemma postProcessListings_distinct_ids_witness :
  NoDup (Item.id <$>
           postProcessListings
             [titled (u16 "u1") (u16 "a"); titled (u16 "u1") (u16 "b");
              titled (u16 "u2") (u16 "c")]
             (rooms_from 1) (λ _, u16 "k") (λ _, u16 "u")).
Proof.
  apply postProcessListings_distinct_ids.
  repeat constructor; try (by intros (i & [=] & _)); eexists;
    (split; [reflexivity|split; [discriminate|reflexivity]]).
Defined.

Lemma deduplicate_idempotent_witness :
  deduplicate
    (deduplicate [titled (u16 "u1") (u16 "a"); titled (u16 "u1") (u16 "b")]
       (λ _, u16 "k")) (λ _, u16 "r")
  = deduplicate [titled (u16 "u1") (u16 "a"); titled (u16 "u1") (u16 "b")]
      (λ _, u16 "k").
Proof.
  apply deduplicate_idempotent.
  apply Forall_cons_2; [left; by eexists|].
  apply Forall_cons_2; [left; by eexists|]. apply Forall_nil_2.
Defined.

(** Two listings with the identifier 7 and the URLs "a" and "b". *)
Lemma shared_identifier_collides_witness :
  ∃ xa xb,
    postProcessListings
      [bare (Some (IdNum 7)) (Some (u16 "a")); bare (Some (IdNum 7)) (Some (u16 "b"))]
      {| Params.city := u16 "Praha"; Params.priceMax := None;
         Params.priceM2Max := None; Params.roomsFrom := None;
         Params.keywords := [] |} (λ _, u16 "k") (λ _, u16 "u")
    = [xa; xb]
    ∧ Item.raw xa = bare (Some (IdNum 7)) (Some (u16 "a"))
    ∧ Item.raw xb = bare (Some (IdNum 7)) (Some (u16 "b"))
    ∧ Item.id xa = String_id (IdNum 7) ∧ Item.id xb = String_id (IdNum 7).
Proof.
  apply (shared_identifier_collides _ _ (IdNum 7) (u16 "a") (u16 "b"));
    try reflexivity.
  - vm_compute. discriminate.
  - split; reflexivity.
Defined.

(** 597294 for the 21.6 square metres of the description: the size is the
    Number nearest to 21.6, a little above it, the quotient as divided is
    just below 27652.5, and the price per square metre is 27652, where the
    exact quotient of 597294 by 21.6 is 27652.5. *)
Lemma pricePerM2_rounded_witness :
  ∃ p s : Qc,
    Item.price (transformListing priced_flat (λ _, u16 "u")).1 = Some (Num p)
    ∧ Item.sizeM2 (transformListing priced_flat (λ _, u16 "u")).1 = Some (Num s)
    ∧ p ≠ 0%Qc ∧ s ≠ 0%Qc
    ∧ ((Qabs (p / s)%Qc <= inject_Z (2 ^ 1023))%Q →
       ∃ (z : Z) (d : Qc),
         of_Z 27652 = of_Z z
         ∧ num_div (Num p) (Num s) = Num d
         ∧ (Q2Qc (inject_Z z) ≤ d + Q2Qc (1 # 2))%Qc
         ∧ (d + Q2Qc (1 # 2) < Q2Qc (inject_Z z) + 1)%Qc
         ∧ ((1 <= Qabs (p / s)%Qc * inject_Z (2 ^ 1022))%Q →
            (Qabs (d - p / s)%Qc * inject_Z (2 ^ 53) <= Qabs (p / s)%Qc)%Q)).
Proof. apply pricePerM2_rounded. vm_compute. reflexivity. Defined.

(** Two listings scored with the key present: "a" answered with "150", "b"
    with text that is not JSON. *)
Lemma scoreRealEstateItems_returns_results_witness :
  Score.id <$>
    [score_of (E:=example_engine) (plain (u16 "a") None None) (Some (u16 "150"));
     score_of (E:=example_engine) (plain (u16 "b") None None) (Some (u16 "not json"))]
  = Item.id <$> [plain (u16 "a") None None; plain (u16 "b") None None]
  ∧ Forall well_scored
      [score_of (E:=example_engine) (plain (u16 "a") None None) (Some (u16 "150"));
       score_of (E:=example_engine) (plain (u16 "b") None None)
         (Some (u16 "not json"))].
Proof.
  apply (scoreRealEstateItems_returns_results (E:=example_engine)
           (Some (u16 "key")) example_oracle
           [plain (u16 "a") None None; plain (u16 "b") None None]).
  vm_compute. reflexivity.
Defined.

Lemma score_then_merge_witness :
  mergeScores [plain (u16 "a") None None; plain (u16 "b") None None]
    [score_of (E:=example_engine) (plain (u16 "a") None None) (Some (u16 "150"));
     score_of (E:=example_engine) (plain (u16 "b") None None) (Some (u16 "not json"))]
  = imap (λ j x, with_score x
                   (score_of (E:=example_engine) x (content_of (example_oracle j x))))
      [plain (u16 "a") None None; plain (u16 "b") None None].
Proof.
  apply (score_then_merge (E:=example_engine) (Some (u16 "key")) example_oracle).
  - apply (bool_decide_unpack _). vm_compute. exact I.
  - vm_compute. reflexivity.
Defined.

(** The same listings filtered for Praha and for Brno. *)
Lemma filter_reads_two_limits_witness :
  postProcessListings [scenario; free_flat] (rooms_from 3)
    (λ _, u16 "k") (λ _, u16 "u")
  = postProcessListings [scenario; free_flat]
      {| Params.city := u16 "Brno"; Params.priceMax := Some (of_Z 1);
         Params.priceM2Max := None; Params.roomsFrom := Some (of_Z 3);
         Params.keywords := [u16 "balkon"] |}
      (λ _, u16 "k") (λ _, u16 "u").
Proof. apply filter_reads_two_limits; reflexivity. Defined.

Lemma buildActorInput_injective_witness : rooms_from 2 = rooms_from 2.
Proof.
  apply buildActorInput_injective; [by repeat split..|reflexivity].
Defined.

(** A run that succeeds at the third status request. *)
Lemma pollRunForDataset_ends_witness :
  ∃ r n, (n ≤ 60)%nat
    ∧ (∀ fuel, (60 < fuel)%nat →
         pollRunForDataset fuel example_clock example_status = Some (r, n))
    ∧ ∀ datasetId, r = Returns datasetId →
        datasetId ≠ []
        ∧ ∃ j, (j < n)%nat
            ∧ example_status j = StatusRun (u16 "SUCCEEDED") (Some datasetId).
Proof.
  apply pollRunForDataset_ends. unfold clock_advances, example_clock, POLL_INTERVAL_MS.
  split; [lia|]. intros i. lia.
Defined.

(** A search without scoring that finds the listing of the scenario. *)
Lemma handler_ok_witness :
  ∃ parsed searchId rawListings results,
    Request.method example_request = Some (u16 "POST")
    ∧ searchSchema_parse (example_services None) (Request.body example_request)
      = Returns parsed
    ∧ searches_insert (example_services None) (Request.x_user_id example_request)
        parsed = DbData searchId
    ∧ fetchListingsFromApify (example_services None) (normalizePayload parsed)
      = Returns rawListings
    ∧ json (handler (E:=example_engine) (example_services None) example_request).1
      = SearchResponse searchId results
    ∧ Item.raw <$> results `sublist_of` rawListings
    ∧ Item.id <$> results
      = Item.id <$> postProcessListings rawListings (normalizePayload parsed)
                      (randomUUID_keys (example_services None))
                      (randomUUID_ids (example_services None))
    ∧ (results = [] →
       Forall (λ e, ∀ rows, e ≠ InsertResults rows)
         (handler (E:=example_engine) (example_services None) example_request).2)
    ∧ (results ≠ [] →
       last (handler (E:=example_engine) (example_services None) example_request).2
       = Some (InsertResults (rows_of searchId results))
       ∧ results_insert (example_services None) (rows_of searchId results) = None).
Proof. apply handler_ok. vm_compute. reflexivity. Defined.

Lemma handler_no_scoring_unless_asked_witness :
  Forall (λ e, ¬ scoring_call e)
    (handler (E:=example_engine) (example_services (Some false)) example_request).2
  ∧ ∀ searchId results,
      json (handler (E:=example_engine) (example_services (Some false))
              example_request).1
      = SearchResponse searchId results →
      Forall (λ x, Item.aiScore x = None) results
      ∧ ∃ rawListings,
          fetchListingsFromApify (example_services (Some false))
            (normalizePayload (example_payload (Some false)))
          = Returns rawListings
          ∧ results
            = postProcessListings rawListings
                (normalizePayload (example_payload (Some false)))
                (randomUUID_keys (example_services (Some false)))
                (randomUUID_ids (example_services (Some false))).
Proof.
  apply handler_no_scoring_unless_asked; [reflexivity|discriminate].
Defined.

(** Scoring asked for with nothing to score with: the local routine throws
    for want of a key. *)
Lemma requestAiScoring_throws_witness :
  [plain (u16 "a") None None] ≠ []
  ∧ scoreRealEstateItems (E:=example_engine)
      (OPENAI_API_KEY (example_services (Some true)))
      (completions (example_services (Some true))) [plain (u16 "a") None None]
    = Throws missing_key_message
  ∧ last (requestAiScoring (E:=example_engine) (example_services (Some true))
            example_request [plain (u16 "a") None None]).2
    = Some (LocalScoring [plain (u16 "a") None None])
  ∧ ∀ url,
      PostScore url [plain (u16 "a") None None]
      ∈ (requestAiScoring (E:=example_engine) (example_services (Some true))
           example_request [plain (u16 "a") None None]).2 →
      score_endpoint (example_services (Some true)) url [plain (u16 "a") None None]
      = Unavailable.
Proof. apply requestAiScoring_throws. vm_compute. reflexivity. Defined.
